(** * import.name/make: the task engine, its conditions and its log quoting

    A shallow embedding of package [make] (a build system whose tasks are Go
    values) and the properties of its execution engine [run], of the
    conditions [Outdated], [Missing] and [Exists], of the variable registry
    [Getvar], of [validateTargets] and of the log rendering [maybeQuote] and
    [Env.String].

    Go strings are byte strings: [string] (a list of 8-bit [ascii]) is the
    same data.  Go's [int] indices are [Z], with [-1] for "not found" as the
    [strings] package returns it. *)

From Stdlib Require Import ZArith Ascii String List Lia Permutation.
From stdpp Require Import base decidable option list sorting gmap strings sets.

Local Open Scope Z_scope.
Set Default Proof Using "Type".

(** ** The bytes the package tests for *)

Definition squote : ascii := "'"%char.
Definition dquote : ascii := "034"%char.
Definition space : ascii := " "%char.
Definition equals : ascii := "="%char.

Definition str (c : ascii) : string := String c EmptyString.

(** ** Package [strings] of the Go library, as far as the package calls it *)

(** The first byte offset at which [substr] starts in [s]. *)
Fixpoint index_of (s substr : string) : option nat :=
  if String.prefix substr s then Some 0%nat
  else match s with
       | EmptyString => None
       | String _ s' => S <$> index_of s' substr
       end.

(** [strings.Index(s, substr)]: the index of the first instance of [substr]
    in [s], or [-1]. *)
Definition strings_Index (s substr : string) : Z :=
  match index_of s substr with
  | Some i => Z.of_nat i
  | None => -1
  end.

(** [strings.Contains(s, substr)] is [Index(s, substr) >= 0]. *)
Definition strings_Contains (s substr : string) : bool :=
  bool_decide (0 <= strings_Index s substr).

(** [strings.Count(s, substr)] at a one-byte [substr], the only way the
    package calls it: the number of bytes of [s] equal to [c]. *)
Fixpoint strings_Count (s : string) (c : ascii) : Z :=
  match s with
  | EmptyString => 0
  | String a s' => (if Ascii.eqb a c then 1 else 0) + strings_Count s' c
  end.

(** Is byte [a] one of the bytes of [chars]? *)
Fixpoint byte_in (a : ascii) (chars : string) : bool :=
  match chars with
  | EmptyString => false
  | String c chars' => Ascii.eqb a c || byte_in a chars'
  end.

Fixpoint index_any (s chars : string) : option nat :=
  match s with
  | EmptyString => None
  | String a s' => if byte_in a chars then Some 0%nat else S <$> index_any s' chars
  end.

(** [strings.IndexAny(s, chars)] for ASCII [chars]: the index of the first
    byte of [s] that is in [chars], or [-1]. *)
Definition strings_IndexAny (s chars : string) : Z :=
  match index_any s chars with
  | Some i => Z.of_nat i
  | None => -1
  end.

Fixpoint last_index_any (s chars : string) : option nat :=
  match s with
  | EmptyString => None
  | String a s' =>
      match last_index_any s' chars with
      | Some i => Some (S i)
      | None => if byte_in a chars then Some 0%nat else None
      end
  end.

(** [strings.LastIndexAny(s, chars)] for ASCII [chars]: the index of the last
    byte of [s] that is in [chars], or [-1]. *)
Definition strings_LastIndexAny (s chars : string) : Z :=
  match last_index_any s chars with
  | Some i => Z.of_nat i
  | None => -1
  end.

(** [strings.Join(elems, sep)]. *)
Definition strings_Join (elems : list string) (sep : string) : string :=
  String.concat sep elems.

(** [len(s)]. *)
Definition len (s : string) : Z := Z.of_nat (String.length s).

(** The slice expression [s[lo:hi]].  Go panics unless
    [0 <= lo <= hi <= len(s)]; [slice_ok] is that condition, which the
    slices of [maybeQuote] satisfy ([maybeQuote_slices_ok]). *)
Definition slice (s : string) (lo hi : Z) : string :=
  String.substring (Z.to_nat lo) (Z.to_nat (hi - lo)) s.

Definition slice_ok (s : string) (lo hi : Z) : Prop :=
  0 <= lo /\ lo <= hi /\ hi <= len s.

(** ** [sort.Strings] *)

(** Go orders strings byte by byte, a proper prefix first. *)
Definition string_le (s1 s2 : string) : Prop := String.leb s1 s2 = true.

#[global] Instance string_le_dec : RelDecision string_le.
Proof. intros s1 s2. unfold string_le. apply _. Defined.

(** [sort.Strings(x)].  As equal strings are indistinguishable, the result
    does not depend on the sorting algorithm. *)
Definition sort_Strings (x : list string) : list string := merge_sort string_le x.

(** ** Outcomes of Go code *)

(** A Go call returns, or ends the process with [os.Exit(code)], or panics;
    the package never recovers from a panic.  [S] is the state the call
    leaves behind. *)
Inductive Outcome (S A : Type) : Type :=
| Ret (a : A) (s : S)
| Exit (code : Z) (s : S)
| Panic (v : string) (s : S).
Arguments Ret {S A} a s.
Arguments Exit {S A} code s.
Arguments Panic {S A} v s.

Definition bind {S A B} (c : S -> Outcome S A) (k : A -> S -> Outcome S B)
  : S -> Outcome S B :=
  fun s =>
    match c s with
    | Ret a s' => k a s'
    | Exit code s' => Exit code s'
    | Panic v s' => Panic v s'
    end.

Notation "'do' x <- c ; k" := (bind c (fun x => k))
  (at level 10, x pattern, c at level 100, k at level 200).

(** A function without effects returns or panics. *)
Inductive Checked (A : Type) : Type :=
| Fine (a : A)
| Panics (v : string).
Arguments Fine {A} a.
Arguments Panics {A} v.

(** The state an outcome carries. *)
Definition final {S A} (o : Outcome S A) : S :=
  match o with
  | Ret _ s | Exit _ s | Panic _ s => s
  end.

(** ** Files *)

(** [os.FileInfo], as far as the package reads it: [ModTime()], in
    nanoseconds. *)
Record FileInfo := { ModTime : Z }.

(** [t.After(u)] of package [time]. *)
Definition After (t u : Z) : bool := bool_decide (t > u).

(** What [os.Stat] returns: the file's info, or an error with its text and
    whether [os.IsNotExist] holds of it. *)
Inductive StatResult :=
| StatOk (info : FileInfo)
| StatErr (isNotExist : bool) (msg : string).

(** Task identities: the addresses [new(tag)] returns. *)
Definition Tag := positive.

(** [type Env map[string]string]. *)
Abbreviation Env := (gmap string string).

(** What the engine does, in order, newest first: a record of its calls used
    to count them.  Nothing in the program reads it. *)
Inductive Event :=
| EvCond (t : Tag)       (* task.cond() is called *)
| EvTasks (t : Tag)      (* the loop over task.tasks is entered *)
| EvCommand (t : Tag)    (* cmd.Run() is called *)
| EvFunction (t : Tag)   (* task.function() is called *)
| EvFailed (t : Tag) (err : string). (* cmd.Run() or task.function() returned err *)

#[global] Instance Event_eq_dec : EqDecision Event.
Proof. solve_decision. Defined.

Definition event_tag (e : Event) : Tag :=
  match e with
  | EvCond t | EvTasks t | EvCommand t | EvFunction t | EvFailed t _ => t
  end.

Section Make.

(** Whatever else of the machine the tasks' functions read and write. *)
Context {Ext : Type}.

(** [strconv.Quote] of the Go library: a double-quoted Go string literal for
    [s].  What it prints depends on Go's Unicode tables; the package only
    passes its result on. *)
Variable strconv_Quote : string -> string.

(** ** The process state *)

Record World := {
  files : string -> StatResult;       (* what os.Stat returns for a path *)
  globalDeps : list string;           (* var globalDeps []string *)
  Vars : gmap string string;          (* var Vars *)
  varDefaults : gmap string string;   (* var varDefaults *)
  stdout : list string;               (* lines written to os.Stdout, oldest first *)
  stderr : list string;               (* lines written to os.Stderr, oldest first *)
  os_Environ : list string;           (* os.Environ() *)
  ext : Ext
}.

Definition with_stdout (w : World) (out : list string) : World :=
  {| files := files w; globalDeps := globalDeps w; Vars := Vars w;
     varDefaults := varDefaults w; stdout := out; stderr := stderr w;
     os_Environ := os_Environ w; ext := ext w |}.

Definition with_stderr (w : World) (err : list string) : World :=
  {| files := files w; globalDeps := globalDeps w; Vars := Vars w;
     varDefaults := varDefaults w; stdout := stdout w; stderr := err;
     os_Environ := os_Environ w; ext := ext w |}.

Definition with_globalDeps (w : World) (deps : list string) : World :=
  {| files := files w; globalDeps := deps; Vars := Vars w;
     varDefaults := varDefaults w; stdout := stdout w; stderr := stderr w;
     os_Environ := os_Environ w; ext := ext w |}.

Definition with_varDefaults (w : World) (d : gmap string string) : World :=
  {| files := files w; globalDeps := globalDeps w; Vars := Vars w;
     varDefaults := d; stdout := stdout w; stderr := stderr w;
     os_Environ := os_Environ w; ext := ext w |}.

(** [fmt.Println(strings.Join(strs, " "))], and [fmt.Println] itself, which
    also puts a space between its operands. *)
Definition Println (strs : list string) (w : World) : World :=
  with_stdout w (stdout w ++ [strings_Join strs " "]).

(** [fmt.Fprintln(os.Stderr, ...)]. *)
Definition Eprintln (strs : list string) (w : World) : World :=
  with_stderr w (stderr w ++ [strings_Join strs " "]).

(** [os.Stat(path)]. *)
Definition os_Stat (path : string) (w : World) : StatResult := files w path.

(** A Go function value [func() A]. *)
Definition closure (A : Type) : Type := World -> Outcome World A.

(** Running the program [command] with environment [environ] ([None]: the
    process's own), as [exec.Cmd.Run] does: the error it returns, if any (a
    non-zero exit status, or a failure to launch), and the state it leaves. *)
Variable cmd_Run : list string -> option (list string) -> World -> option string * World.

(** ** [maybeQuote] *)

Definition maybeQuote (s : string) : string :=
  if strings_Contains s (str squote) then strconv_Quote s
  else
    match strings_Count s dquote with
    | 0 =>
        let space_ := strings_Index s (str space) in
        if bool_decide (space_ < 0) then s
        else
          let equal := strings_Index s (str equals) in
          if bool_decide (equal < 0 \/ equal > space_) then
            str dquote +:+ s +:+ str dquote
          else
            slice s 0 (equal + 1) +:+ str dquote +:+ slice s (equal + 1) (len s) +:+ str dquote
    | 2 =>
        let beg := strings_IndexAny s (String dquote (str space)) in
        let i := strings_Index s (str equals) in
        let beg := if bool_decide (i >= 0 /\ i < beg) then i + 1 else beg in
        let end_ := strings_LastIndexAny s (String dquote (str space)) + 1 in
        slice s 0 beg +:+ str squote +:+ slice s beg end_ +:+ str squote +:+ slice s end_ (len s)
    | _ => str squote +:+ s +:+ str squote
    end.

(** ** [Env.String] *)

(** One pair of [Env.String]: [maybeQuote(k)+"="+maybeQuote(v)]. *)
Definition Env_pair (kv : string * string) : string :=
  maybeQuote kv.1 +:+ "=" +:+ maybeQuote kv.2.

(** The body of [Env.String] when [range env] yields the pairs in [order]. *)
Definition Env_String_in (order : list (string * string)) : string :=
  let pairs := map Env_pair order in
  strings_Join (sort_Strings pairs) " ".

(** [Env.String]: Go leaves the order of [range] over a map open; here it is
    the order of [map_to_list]. *)
Definition Env_String (env : Env) : string := Env_String_in (map_to_list env).

(** ** Conditions *)

(** [Exists]. *)
Definition Exists (path : string) (w : World) : bool :=
  match os_Stat path w with
  | StatOk _ => true                          (* err == nil *)
  | StatErr isNotExist _ => negb isNotExist   (* !os.IsNotExist(err) *)
  end.

(** [Missing]. *)
Definition Missing (path : string) : closure bool :=
  fun w => Ret (negb (Exists path w)) w.

(** The loop of [Outdated] over [deps]. *)
Fixpoint Outdated_deps (target : string) (targetTime : Z) (deps : list string)
  : closure bool :=
  fun w =>
    match deps with
    | [] => Ret false w
    | source :: deps' =>
        match os_Stat source w with
        | StatErr _ err =>
            Ret true (with_stderr w (stderr w ++
              [target +:+ " dependency " +:+ source +:+ ": " +:+ err]))
        | StatOk info =>
            if After (ModTime info) targetTime then Ret true w
            else Outdated_deps target targetTime deps' w
        end
    end.

(** [Outdated]. *)
Definition Outdated (target : string) (sources : option (closure (list string)))
  : closure bool :=
  fun w =>
    match os_Stat target w with
    | StatErr _ _ => Ret true w
    | StatOk info =>
        let targetTime := ModTime info in
        let deps := globalDeps w in
        match sources with
        | None => Outdated_deps target targetTime deps w
        | Some f =>
            (do srcs <- f; Outdated_deps target targetTime (deps ++ srcs)) w
        end
    end.

(** [All]. *)
Fixpoint All_loop (conds : list (closure bool)) : closure bool :=
  match conds with
  | [] => Ret true
  | cond :: conds' => do b <- cond; if b then All_loop conds' else Ret false
  end.

Definition All (conds : list (closure bool)) : closure bool :=
  match conds with
  | [cond] => cond
  | _ => All_loop conds
  end.

(** [Any]. *)
Fixpoint Any_loop (conds : list (closure bool)) : closure bool :=
  match conds with
  | [] => Ret false
  | cond :: conds' => do b <- cond; if b then Ret true else Any_loop conds'
  end.

Definition Any (conds : list (closure bool)) : closure bool :=
  match conds with
  | [cond] => cond
  | _ => Any_loop conds
  end.

(** ** Variables *)

(** [Getvar]. *)
Definition Getvar (key defaultValue : string) : closure string :=
  fun w =>
    match varDefaults w !! key with
    | Some value =>
        if bool_decide (value <> defaultValue) then
          Panic ("Variable " +:+ key +:+ " accessed with different default values") w
        else
          let w := with_varDefaults w (<[key := defaultValue]> (varDefaults w)) in
          Ret (default defaultValue (Vars w !! key)) w
    | None =>
        let w := with_varDefaults w (<[key := defaultValue]> (varDefaults w)) in
        Ret (default defaultValue (Vars w !! key)) w
    end.

(** ** Tasks *)

(** [type Task struct].  A nil [env], [function], [cond] or [tag] is
    [None]. *)
#[warnings="-register-all"]
Inductive Task : Type := mkTask {
  name : string;
  isDefault : bool;
  tasks : list Task;
  command : list string;
  env : option Env;
  function : option (closure (option string));
  cond : option (closure bool);
  tag : option Tag
}.

(** [Task.commandline]. *)
Definition commandline (task : Task) : string :=
  let cmd := map maybeQuote (command task) in
  let line := strings_Join cmd " " in
  match env task with
  | Some e => if bool_decide (0 < size e)%nat then Env_String e +:+ " " +:+ line else line
  | None => line
  end.

(** [Task.environ].  The pairs of [env] come in the order of [range], which
    Go leaves open: here the order of [map_to_list]. *)
Definition environ (task : Task) (w : World) : option (list string) :=
  match env task with
  | None => None
  | Some e => Some (os_Environ w ++ map (fun kv => kv.1 +:+ "=" +:+ kv.2) (map_to_list e))
  end.

(** ** The engine *)

(** The engine's state: the process state, and the record of its calls. *)
Record Machine := { world : World; trace : list Event }.

Definition log (e : Event) (m : Machine) : Machine :=
  {| world := world m; trace := e :: trace m |}.

Definition on_world (f : World -> World) (m : Machine) : Machine :=
  {| world := f (world m); trace := trace m |}.

(** Calling a function value from the engine. *)
Definition call {A} (f : closure A) : Machine -> Outcome Machine A :=
  fun m =>
    match f (world m) with
    | Ret a w => Ret a {| world := w; trace := trace m |}
    | Exit code w => Exit code {| world := w; trace := trace m |}
    | Panic v w => Panic v {| world := w; trace := trace m |}
    end.

(** [fmt.Fprintln(os.Stderr, err); os.Exit(1)]. *)
Definition fatal {A} (err : string) : Machine -> Outcome Machine A :=
  fun m => Exit 1 (on_world (Eprintln [err]) m).

(** The loop [for _, subtask := range tasks { if run(subtask, cache) { worked =
    true } }], from [worked]. *)
Fixpoint run_tasks (run : Task -> gset Tag -> Machine -> Outcome Machine (bool * gset Tag))
    (subtasks : list Task) (worked : bool) (cache : gset Tag)
  : Machine -> Outcome Machine (bool * gset Tag) :=
  match subtasks with
  | [] => Ret (worked, cache)
  | subtask :: rest =>
      do r <- run subtask cache;
      run_tasks run rest (if r.1 then true else worked) r.2
  end.

(** The guard of a task with tag [t]: [task.cond == nil || task.cond()]. *)
Definition run_cond (task : Task) (t : Tag) : Machine -> Outcome Machine bool :=
  match cond task with
  | Some c => fun m => call c (log (EvCond t) m)
  | None => Ret true
  end.

(** The command of a task with tag [t], when it has one. *)
Definition run_command (task : Task) (t : Tag) (worked : bool)
  : Machine -> Outcome Machine bool :=
  fun m =>
    if bool_decide (0 < length (command task))%nat then
      let m := on_world (Println ["Running"; commandline task]) m in
      let m := log (EvCommand t) m in
      match cmd_Run (command task) (environ task (world m)) (world m) with
      | (Some err, w) => fatal err (log (EvFailed t err) {| world := w; trace := trace m |})
      | (None, w) => Ret true {| world := w; trace := trace m |}
      end
    else Ret worked m.

(** The function of a task with tag [t], when it has one. *)
Definition run_function (task : Task) (t : Tag) (worked : bool)
  : Machine -> Outcome Machine bool :=
  match function task with
  | Some f =>
      do r <- (fun m => call f (log (EvFunction t) m));
      match r with
      | Some err => fun m => fatal err (log (EvFailed t err) m)
      | None => Ret true
      end
  | None => Ret worked
  end.

(** [run].  The map [cache] is shared with the caller: the map a call leaves
    is returned with its result. *)
Fixpoint run (task : Task) (cache : gset Tag) {struct task}
  : Machine -> Outcome Machine (bool * gset Tag) :=
  match tag task with
  | None =>
      fun m => Exit 1 (on_world (Eprintln ["Task values must not be created directly"]) m)
  | Some t =>
      if bool_decide (t ∈ cache) then Ret (false, cache)
      else
        let cache := {[t]} ∪ cache in
        do go <- run_cond task t;
        if negb go then Ret (false, cache)
        else
          do r <- (fun m => run_tasks run (tasks task) false cache (log (EvTasks t) m));
          do worked <- run_command task t r.1;
          do worked <- run_function task t worked;
          Ret (worked, r.2)
  end.

(** ** [Main] *)

(** The start of [Main]: the global dependencies are registered. *)
Definition Main_globalDeps (main : string) (deps : list string) (w : World) : World :=
  let w := if bool_decide (main <> EmptyString)
           then with_globalDeps w (globalDeps w ++ [main]) else w in
  with_globalDeps w (globalDeps w ++ deps).

(** The loop of [Main] over the selected [targets]. *)
Fixpoint Main_targets (targets : list Task) (cache : gset Tag)
  : Machine -> Outcome Machine (gset Tag) :=
  match targets with
  | [] => Ret cache
  | task :: rest =>
      do r <- run task cache;
      fun m =>
        let m := if negb r.1
                 then on_world (Println ["Nothing to be done for"; name task]) m else m in
        Main_targets rest r.2 m
  end.

(** The end of [Main]: a fresh cache, the loop over the selected [targets],
    and [os.Exit(0)]. *)
Definition Main_run (targets : list Task) : Machine -> Outcome Machine unit :=
  do _ <- Main_targets targets ∅;
  Exit 0.

(** ** [validateTargets] *)

(** The loop of [validateTargets], from the [names] seen and [defaults]. *)
Fixpoint validateTargets_loop (targets : list Task) (names : gset string)
    (defaults : bool) : Checked bool :=
  match targets with
  | [] => Fine defaults
  | task :: rest =>
      let defaults := if isDefault task then true else defaults in
      if bool_decide (name task <> EmptyString) then
        if bool_decide (name task = "help") then Panics (name task)
        else if bool_decide (name task ∈ names) then Panics (name task)
        else validateTargets_loop rest ({[name task]} ∪ names) defaults
      else validateTargets_loop rest names defaults
  end.

(** [validateTargets]. *)
Definition validateTargets (targets : list Task) : Checked bool :=
  validateTargets_loop targets ∅ false.

(** The events a run from [m] added, newest first. *)
Definition new_events {A} (m : Machine) (out : Outcome Machine A) : list Event :=
  take (length (trace (final out)) - length (trace m)) (trace (final out)).

(** What each subtask's [run] returned, in the loop over [subtasks] from
    [cache] and [m], up to the first that did not return. *)
Fixpoint subtask_results (subtasks : list Task) (cache : gset Tag) (m : Machine)
  : list bool :=
  match subtasks with
  | [] => []
  | subtask :: rest =>
      match run subtask cache m with
      | Ret r m' => r.1 :: subtask_results rest r.2 m'
      | _ => []
      end
  end.

(** A sequence of [Getvar] calls, as the code that builds the tasks makes
    them. *)
Fixpoint Getvars (queries : list (string * string)) : closure unit :=
  match queries with
  | [] => Ret tt
  | (key, defaultValue) :: rest => do _ <- Getvar key defaultValue; Getvars rest
  end.

(** ** [Flatten] *)

(** The values of type [interface{}] that [flatten] tells apart: a string, a
    [[]string], a [func() []string], a [[]interface{}], and a value of
    another type, with the text Go shows for it. *)
#[warnings="-register-all"]
Inductive Value : Type :=
| VString (s : string)
| VStrings (ss : list string)
| VFunc (f : closure (list string))
| VList (xs : list Value)
| VOther (shown : string).

(** The loop of [flatten] over [strings], with [each] for one value. *)
Fixpoint flatten_loop (each : list string -> Value -> closure (list string))
    (dest : list string) (strings : list Value) : closure (list string) :=
  match strings with
  | [] => Ret dest
  | x :: rest => do dest <- each dest x; flatten_loop each dest rest
  end.

(** The type switch of [flatten] on one value. *)
Fixpoint flatten_value (dest : list string) (x : Value) {struct x} : closure (list string) :=
  match x with
  | VString s => Ret (dest ++ [s])
  | VStrings ss => Ret (dest ++ ss)
  | VFunc f => do ss <- f; Ret (dest ++ ss)
  | VList xs => flatten_loop flatten_value dest xs
  | VOther shown => Panic shown
  end.

(** [flatten]. *)
Definition flatten (dest : list string) (strings : list Value) : closure (list string) :=
  flatten_loop flatten_value dest strings.

(** [Flatten]. *)
Definition Flatten (strings : list Value) : closure (list string) := flatten [] strings.

(** [Wrap]. *)
Definition Wrap (optional : string) (strings : list Value) : closure (list string) :=
  if bool_decide (optional <> EmptyString) then flatten [] (VString optional :: strings)
  else flatten [] strings.

(** [Flattener]: its function passes the slice [strings] to [Flatten] as one
    value. *)
Definition Flattener (strings : list Value) : closure (list string) :=
  Flatten [VList strings].

(** [Thunk]. *)
Definition Thunk (strings : list string) : closure (list string) := Ret strings.

(** ** [ReplaceSuffix] *)

(** The last byte offset at which [substr] starts in [s]. *)
Fixpoint last_index_of (s substr : string) : option nat :=
  match s with
  | EmptyString => if String.prefix substr EmptyString then Some 0%nat else None
  | String _ s' =>
      match last_index_of s' substr with
      | Some i => Some (S i)
      | None => if String.prefix substr s then Some 0%nat else None
      end
  end.

(** [strings.LastIndex(s, substr)]: the index of the last instance of
    [substr] in [s], or [-1]. *)
Definition strings_LastIndex (s substr : string) : Z :=
  match last_index_of s substr with
  | Some i => Z.of_nat i
  | None => -1
  end.

(** [ReplaceSuffix]. *)
Definition ReplaceSuffix (s newSuffix : string) : Checked string :=
  let i := strings_LastIndex s "." in
  if bool_decide (i <= 0) || strings_Contains (slice s i (len s)) "/" then Panics s
  else Fine (slice s 0 i +:+ newSuffix).

(** ** The functions that build tasks *)

(** [new(tag)]: the next free address, and the next one after it.  The
    addresses in use are those below [next]. *)
Definition new_tag (next : positive) : Tag * positive := (next, Pos.succ next).

(** [TargetDefault]. *)
Definition TargetDefault (name : string) (tasks : list Task) (next : positive)
  : Task * positive :=
  let (t, next) := new_tag next in
  (mkTask name true tasks [] None None None (Some t), next).

(** [Target]. *)
Definition Target (name : string) (tasks : list Task) (next : positive) : Task * positive :=
  let (t, next) := new_tag next in
  (mkTask name false tasks [] None None None (Some t), next).

(** [Func]. *)
Definition Func (f : closure (option string)) (next : positive) : Task * positive :=
  let (t, next) := new_tag next in
  (mkTask EmptyString false [] [] None (Some f) None (Some t), next).

(** [If]. *)
Definition If (cond : closure bool) (tasks : list Task) (next : positive) : Task * positive :=
  let (t, next) := new_tag next in
  (mkTask EmptyString false tasks [] None None (Some cond) (Some t), next).

(** [Group]. *)
Definition Group (tasks : list Task) (next : positive) : Task * positive :=
  let (t, next) := new_tag next in
  (mkTask EmptyString false tasks [] None None None (Some t), next).

(** [Env.Command], for a nil [env] too: the slice [command] goes to
    [Flatten] as one value. *)
Definition Env_Command (env : option Env) (command : list Value) (next : positive)
  : closure (Task * positive) :=
  do c <- Flatten [VList command];
  let (t, next) := new_tag next in
  Ret (mkTask EmptyString false [] c env None None (Some t), next).

(** [Env.CommandWrap]. *)
Definition Env_CommandWrap (env : option Env) (optional : string) (command : list Value)
    (next : positive) : closure (Task * positive) :=
  do c <- Wrap optional [VList command];
  let (t, next) := new_tag next in
  Ret (mkTask EmptyString false [] c env None None (Some t), next).

(** [Command]. *)
Definition Command (command : list Value) : positive -> closure (Task * positive) :=
  Env_Command None command.

(** [CommandWrap]. *)
Definition CommandWrap (optionalWrapper : string) (command : list Value)
  : positive -> closure (Task * positive) :=
  Env_CommandWrap None optionalWrapper command.

(** [Tasks.Add]: the slice with [task] at its end, and the copy of [task]
    that is returned. *)
Definition Tasks_Add (ptr : list Task) (task : Task) : list Task * Task :=
  (ptr ++ [task], task).

(** ** [Main], from the command line to the targets *)

(** [strings.HasPrefix(s, prefix)]. *)
Definition strings_HasPrefix (s prefix : string) : bool := String.prefix prefix s.

(** [strings.SplitN(s, sep, 2)] for a [sep] that is not empty: [s] cut at the
    first [sep], or [s] alone. *)
Definition strings_SplitN2 (s sep : string) : list string :=
  match index_of s sep with
  | Some i => [slice s 0 (Z.of_nat i); slice s (Z.of_nat i + len sep) (len s)]
  | None => [s]
  end.

Definition with_Vars (w : World) (vars : gmap string string) : World :=
  {| files := files w; globalDeps := globalDeps w; Vars := vars;
     varDefaults := varDefaults w; stdout := stdout w; stderr := stderr w;
     os_Environ := os_Environ w; ext := ext w |}.

(** The test of both loops over the variables:
    [strings.Contains(arg, "=") && !strings.HasPrefix(arg, "-")]. *)
Definition is_var (arg : string) : bool :=
  strings_Contains arg "=" && negb (strings_HasPrefix arg "-").

(** The first loop of [Main] over [args]: [Vars[ss[0]] = ss[1]].  An index
    out of the range of [ss] panics. *)
Fixpoint Main_setVars (args : list string) : closure unit :=
  match args with
  | [] => Ret tt
  | arg :: rest =>
      if is_var arg then
        match strings_SplitN2 arg "=" with
        | k :: v :: _ => fun w => Main_setVars rest (with_Vars w (<[k := v]> (Vars w)))
        | _ => Panic "runtime error: index out of range"
        end
      else Main_setVars rest
  end.

(** The second loop of [Main] over [args]: a variable that no [Getvar] asked
    for ends the process. *)
Fixpoint Main_checkVars (args : list string) : closure unit :=
  match args with
  | [] => Ret tt
  | arg :: rest =>
      if is_var arg then
        match strings_SplitN2 arg "=" with
        | k :: _ =>
            fun w =>
              match varDefaults w !! k with
              | None => Exit 2 (Eprintln ["Unknown variable:"; k] w)
              | Some _ => Main_checkVars rest w
              end
        | [] => Panic "runtime error: index out of range"
        end
      else Main_checkVars rest
  end.

(** The lines [usage] prints for the targets. *)
Definition usage_targets (available : list Task) : list string :=
  omap (fun task =>
          if bool_decide (name task <> EmptyString) then
            Some (if isDefault task then "  " +:+ name task +:+ " (default)"
                  else "  " +:+ name task)
          else None) available.

(** The lines [usage] prints for the variables, when there are any: the
    names sorted, each with the value of the command line or else with its
    default. *)
Definition usage_vars (w : World) : list string :=
  if bool_decide (0 < size (varDefaults w))%nat then
    [EmptyString; "Variables:"] ++
    map (fun name =>
           let value := match Vars w !! name with
                        | Some v => v
                        | None => default EmptyString (varDefaults w !! name)
                        end in
           if bool_decide (value = EmptyString) then "  " +:+ name
           else "  " +:+ name +:+ " (" +:+ value +:+ ")")
        (sort_Strings (map fst (map_to_list (varDefaults w))))
  else [].

(** The closure [usage] of [Main]: the usage text on the error stream, and
    [os.Exit(exitcode)]. *)
Definition usage {A} (defaults : bool) (main prog : string) (available : list Task)
    (exitcode : Z) : closure A :=
  fun w =>
    let metaTarget := if defaults then "[TARGET]..." else "target" in
    let prog := if bool_decide (main <> EmptyString) then "go run " +:+ main else prog in
    Exit exitcode
      (with_stderr w (stderr w ++
         ["Usage: " +:+ prog +:+ " " +:+ metaTarget +:+ " [VAR=value]...";
          "       " +:+ prog +:+ " -h|--help";
          EmptyString;
          "Targets:"] ++
         usage_targets available ++
         usage_vars w ++
         [EmptyString])).

(** The loop of [Main] that collects the names of the targets asked for. *)
Fixpoint Main_names (defaults : bool) (main prog : string) (available : list Task)
    (args : list string) (names : gset string) : closure (gset string) :=
  match args with
  | [] => Ret names
  | arg :: rest =>
      if strings_HasPrefix arg "-" then usage defaults main prog available 2
      else if negb (strings_Contains arg "=")
           then Main_names defaults main prog available rest ({[arg]} ∪ names)
           else Main_names defaults main prog available rest names
  end.

(** The targets [Main] selects among the [available] ones. *)
Definition Main_select (names : gset string) (available : list Task) : list Task :=
  filter (fun task => name task ∈ names \/ (size names = 0%nat /\ isDefault task = true))
         available.

(** The loop of [Main] over the names asked for, in the order [order] in
    which [range names] yields them: a name that selected no target ends the
    process. *)
Fixpoint Main_unknown (order : list string) (found : gset string) : closure unit :=
  match order with
  | [] => Ret tt
  | name :: rest =>
      if bool_decide (name ∈ found) then Main_unknown rest found
      else fun w => Exit 2 (Eprintln ["Unknown target:"; name] w)
  end.

(** [Main] up to its last loop: the targets to run.  [prog] is [os.Args[0]]
    and [args] is [os.Args[1:]]; Go leaves the order of [range names] open,
    here it is the order of [elements]. *)
Definition Main_targets_of (getTargets : closure (list Task)) (main : string)
    (deps : list string) (prog : string) (args : list string) : closure (list Task) :=
  do _ <- (fun w => Ret tt (Main_globalDeps main deps w));
  do _ <- Main_setVars args;
  do available <- getTargets;
  do defaults <- (fun w => match validateTargets available with
                           | Fine d => Ret d w
                           | Panics v => Panic v w
                           end);
  do _ <- Main_checkVars args;
  do _ <- (match args with
           | [arg] =>
               if bool_decide (arg = "-h" \/ arg = "-help" \/ arg = "--help")
               then usage defaults main prog available 0
               else Ret tt
           | _ => Ret tt
           end);
  do names <- Main_names defaults main prog available args ∅;
  do _ <- (if negb defaults && bool_decide (size names = 0%nat)
           then usage defaults main prog available 2 else Ret tt);
  let targets := Main_select names available in
  do _ <- Main_unknown (elements names) (list_to_set (name <$> targets));
  Ret targets.

(** [Main]. *)
Definition Main (getTargets : closure (list Task)) (main : string) (deps : list string)
    (prog : string) (args : list string) : Machine -> Outcome Machine unit :=
  do targets <- call (Main_targets_of getTargets main deps prog args);
  Main_run targets.

(** ** Removal *)

Section Removal_model.

(** [os.RemoveAll(path)]: the error it returns, if any, and the file system
    it leaves. *)
Variable os_RemoveAll : string -> World -> option string * World.

(** The loop of [Removal]: [err] is the named result. *)
Fixpoint Removal_loop (directories : list string) (err : option string) (w : World)
  : option string * World :=
  match directories with
  | [] => (err, w)
  | path :: directories =>
      let (e, w) := os_RemoveAll path w in
      Removal_loop directories (match err with None => e | Some _ => err end) w
  end.

(** [Removal]. *)
Definition Removal (directories : list string) : positive -> Task * positive :=
  Func (fun w => let (err, w) := Removal_loop directories None w in Ret err w).

End Removal_model.

(** * The vocabulary of the properties *)

(** The names of the named targets, in order. *)
Definition target_names (targets : list Task) : list string :=
  filter (fun n => n <> EmptyString) (name <$> targets).

(** Two targets, at different places of the list, share a name that is not
    empty. *)
Definition shared_name (targets : list Task) : Prop :=
  exists (i j : nat) (task1 task2 : Task),
    i <> j /\ targets !! i = Some task1 /\ targets !! j = Some task2 /\
    name task1 = name task2 /\ name task1 <> EmptyString.

(** A target is named "help". *)
Definition named_help (targets : list Task) : Prop :=
  exists task, task ∈ targets /\ name task = "help".

(** [os.Stat(path)] returns an error. *)
Definition stat_fails (path : string) (w : World) : Prop :=
  exists isNotExist msg, os_Stat path w = StatErr isNotExist msg.

(** [path] does not exist: [os.Stat(path)] returns an error of which
    [os.IsNotExist] holds. *)
Definition not_exist (path : string) (w : World) : Prop :=
  exists msg, os_Stat path w = StatErr true msg.

(** The modification time of [dep] (in [wd]) is after that of [target] (in
    [wt]). *)
Definition newer (dep target : string) (wt wd : World) : Prop :=
  exists it id, os_Stat target wt = StatOk it /\ os_Stat dep wd = StatOk id /\
    ModTime id > ModTime it.

(** The per-call sources: what [sources()] returns, nothing for a nil
    [sources]. *)
Definition call_sources (sources : option (closure (list string))) : closure (list string) :=
  match sources with
  | None => Ret []
  | Some f => f
  end.

(** C3 as the specification words it: a target or a dependency counts only
    when it does not exist. *)
Definition Outdated_iff_not_exist (target : string)
    (sources : option (closure (list string))) (w : World) : Prop :=
  forall srcs w1, call_sources sources w = Ret srcs w1 ->
  exists b w', Outdated target sources w = Ret b w' /\
    (b = true <->
       not_exist target w \/
       exists d, d ∈ globalDeps w ++ srcs /\ (not_exist d w1 \/ newer d target w w1)).

(** No byte of [s] is a byte of [chars]. *)
Fixpoint free (chars s : string) : bool :=
  match s with
  | EmptyString => true
  | String a s' => negb (byte_in a chars) && free chars s'
  end.

(** The bytes [maybeQuote] looks for with [IndexAny] and [LastIndexAny]. *)
Definition quote_or_space : string := String dquote (str space).

(** C9 as the specification words it: an argument without space and double
    quote is printed bare, and an argument with a space and without quote
    characters is wrapped in double quotes. *)
Definition maybeQuote_as_stated (s : string) : Prop :=
  (free quote_or_space s = true -> maybeQuote s = s) /\
  (free (String squote (str dquote)) s = true -> free (str space) s = false ->
   maybeQuote s = str dquote +:+ s +:+ str dquote).

(** The order of two pairs by their keys. *)
Definition key_le (kv1 kv2 : string * string) : Prop := string_le kv1.1 kv2.1.

#[global] Instance key_le_dec : RelDecision key_le.
Proof. intros kv1 kv2. unfold key_le. apply _. Defined.

(** C8 as the specification words it: the pairs are printed in the order of
    their keys. *)
Definition Env_String_by_key (env : Env) : string :=
  strings_Join (Env_pair <$> merge_sort key_le (map_to_list env)) " ".

(** What holds of the outcome of [c] from [m]: [Q] when it returns, [E] when
    the process ends, with the exit code or [None] for a panic. *)
Definition wp {A} (c : Machine -> Outcome Machine A) (m : Machine)
    (Q : A -> Machine -> Prop) (E : option Z -> Machine -> Prop) : Prop :=
  match c m with
  | Ret a m' => Q a m'
  | Exit code m' => E (Some code) m'
  | Panic _ m' => E None m'
  end.

(** From [m] to [m'] the events [new] were added. *)
Definition adds (m m' : Machine) (new : list Event) : Prop := trace m' = new ++ trace m.

(** From [m] to [m'] events were added, each once, all in [P]. *)
Definition added (P : Event -> Prop) (m m' : Machine) : Prop :=
  exists new, adds m m' new /\ NoDup new /\ forall e, e ∈ new -> P e.

(** The events a run adds are of identities that were not in the cache, and
    that are in the cache it leaves. *)
Definition run_fresh (cache : gset Tag) (m : Machine)
    (c : Machine -> Outcome Machine (bool * gset Tag)) : Prop :=
  wp c m
     (fun r m' => cache ⊆ r.2 /\ added (fun e => (event_tag e ∉ cache) /\ (event_tag e ∈ r.2)) m m')
     (fun _ m' => added (fun e => event_tag e ∉ cache) m m').

(** Some subtask's [run] returned true: the task was not in the cache, its
    guard passed, and among the results of the loop over its subtasks one is
    true. *)
Definition child_worked (task : Task) (cache : gset Tag) (m : Machine) : Prop :=
  exists t m1, tag task = Some t /\ (t ∉ cache) /\ run_cond task t m = Ret true m1 /\
    true ∈ subtask_results (tasks task) ({[t]} ∪ cache) (log (EvTasks t) m1).

(** The task's command was run in this call. *)
Definition command_ran (task : Task) (cache : gset Tag) (m : Machine) : Prop :=
  exists t, tag task = Some t /\ EvCommand t ∈ new_events m (run task cache m).

(** The task's function was called in this call. *)
Definition function_ran (task : Task) (cache : gset Tag) (m : Machine) : Prop :=
  exists t, tag task = Some t /\ EvFunction t ∈ new_events m (run task cache m).

(** No failure of a command or a function among the events. *)
Definition no_failure (new : list Event) : Prop := forall t err, EvFailed t err ∉ new.

(** From [m] to [m'] nothing failed. *)
Definition quiet (m m' : Machine) : Prop := exists new, adds m m' new /\ no_failure new.

(** From [m] the process ended in [m'] on a failure: the failure is the last
    event, the only one of its kind, the exit code is 1 and the error is the
    last line of the error stream. *)
Definition failed (m : Machine) (code : option Z) (m' : Machine) : Prop :=
  exists t err rest pre,
    adds m m' (EvFailed t err :: rest) /\ no_failure rest /\ code = Some 1 /\
    stderr (world m') = pre ++ [err].

(** A run that returns has seen no failure; a run that ends the process has
    seen none, or has ended on one. *)
Definition fails_last {A} (m : Machine) (c : Machine -> Outcome Machine A) : Prop :=
  wp c m (fun _ m' => quiet m m') (fun code m' => quiet m m' \/ failed m code m').

(** Every condition of the list, called in order from [w], returns [b]; the
    last leaves [w']. *)
Inductive all_return (b : bool) : list (closure bool) -> World -> World -> Prop :=
| all_return_nil (w : World) : all_return b [] w w
| all_return_cons (c : closure bool) (cs : list (closure bool)) (w w1 w2 : World) :
    c w = Ret b w1 -> all_return b cs w1 w2 -> all_return b (c :: cs) w w2.

(** A value without function and without a value of another type, at any
    depth. *)
Fixpoint plain (x : Value) : bool :=
  match x with
  | VString _ | VStrings _ => true
  | VFunc _ | VOther _ => false
  | VList xs => forallb plain xs
  end.

(** The strings of a plain value, in order. *)
Fixpoint strings_of (x : Value) : list string :=
  match x with
  | VString s => [s]
  | VStrings ss => ss
  | VList xs => concat (map strings_of xs)
  | VFunc _ | VOther _ => []
  end.

(** An outcome, with [dest] in front of what it returns. *)
Definition in_front (dest : list string) (o : Outcome World (list string))
  : Outcome World (list string) :=
  match o with
  | Ret r w => Ret (dest ++ r) w
  | Exit code w => Exit code w
  | Panic v w => Panic v w
  end.

(** [s] without its bytes [c]. *)
Fixpoint remove_byte (c : ascii) (s : string) : string :=
  match s with
  | EmptyString => EmptyString
  | String a s' => if Ascii.eqb a c then remove_byte c s' else String a (remove_byte c s')
  end.

(** A task in which nothing fails: every task has an identity, every
    condition returns, every function returns nil, every command
    succeeds. *)
#[warnings="-register-all"]
Inductive calm : Task -> Prop :=
| calm_task (task : Task) :
    tag task <> None ->
    (forall c, cond task = Some c -> forall w, exists b w', c w = Ret b w') ->
    (forall f, function task = Some f -> forall w, exists w', f w = Ret None w') ->
    (command task <> [] ->
     forall environ w, exists w', cmd_Run (command task) environ w = (None, w')) ->
    Forall calm (tasks task) ->
    calm task.

(** The names of targets on the command line: the arguments without equals
    sign. *)
Definition names_of (args : list string) : gset string :=
  list_to_set (filter (fun arg => strings_Contains arg "=" = false) args).

(** Every variable of the command line was asked for by a [Getvar]. *)
Definition vars_known (args : list string) (w : World) : Prop :=
  forall key value,
    key +:+ "=" +:+ value ∈ args -> free (str equals) key = true ->
    strings_HasPrefix (key +:+ "=" +:+ value) "-" = false ->
    is_Some (varDefaults w !! key).

(** [Main] got its targets: with the global dependencies registered and the
    variables of the command line set, [getTargets] returns [available]. *)
Definition Main_starts (getTargets : closure (list Task)) (main : string)
    (deps : list string) (args : list string) (w : World) (available : list Task)
    (w1 : World) : Prop :=
  (do _ <- Main_setVars args; getTargets) (Main_globalDeps main deps w) = Ret available w1.

(** Every identity in the task is an address below [next]. *)
#[warnings="-register-all"]
Inductive tags_below (next : positive) : Task -> Prop :=
| tags_below_task (task : Task) (t : Tag) :
    tag task = Some t -> (t < next)%positive ->
    Forall (tags_below next) (tasks task) ->
    tags_below next task.

Section Removal_attempts.

Variable os_RemoveAll : string -> World -> option string * World.

(** The results of [os.RemoveAll] on each of the paths, one after the
    other. *)
Fixpoint attempts (directories : list string) (w : World) : list (option string) :=
  match directories with
  | [] => []
  | path :: directories =>
      (os_RemoveAll path w).1 :: attempts directories (os_RemoveAll path w).2
  end.

End Removal_attempts.

(** * Properties *)

(** ** [Exists] and [Missing] *)

(** C10: [Exists] is false exactly when [os.Stat] fails with an error of
    which [os.IsNotExist] holds, and true when it succeeds or fails with any
    other error; [Missing] returns the negation, leaving the state as it
    is: true only on a not-exist error. *)
Theorem Exists_Missing_stat (path : string) (w : World) :
  (Exists path w = true <->
     (exists info, os_Stat path w = StatOk info) \/
     (exists msg, os_Stat path w = StatErr false msg)) /\
  (Exists path w = false <-> exists msg, os_Stat path w = StatErr true msg) /\
  (exists b, Missing path w = Ret b w /\
     (b = true <-> exists msg, os_Stat path w = StatErr true msg)).
Proof.
  unfold Missing, Exists.
  destruct (os_Stat path w) as [info|[] msg]; simpl;
    (split; [|split]); try (eexists; split; [reflexivity|]); split;
    try discriminate; eauto;
    try (intros [[? ?]|[? ?]]; discriminate);
    try (intros [? ?]; discriminate).
Qed.

(** ** [Getvar] *)

Lemma with_varDefaults_id (w : World) : with_varDefaults w (varDefaults w) = w.
Proof. destruct w; reflexivity. Qed.

Lemma Getvar_first (key d : string) (w : World) :
  varDefaults w !! key = None ->
  Getvar key d w =
    Ret (default d (Vars w !! key)) (with_varDefaults w (<[key := d]> (varDefaults w))).
Proof. intros H. unfold Getvar. rewrite H. reflexivity. Qed.

Lemma Getvar_again (key d : string) (w : World) :
  varDefaults w !! key = Some d ->
  Getvar key d w = Ret (default d (Vars w !! key)) w.
Proof.
  intros H. unfold Getvar. rewrite H.
  rewrite bool_decide_eq_false_2 by (intros Hne; apply Hne; reflexivity).
  rewrite (insert_id _ _ _ H), with_varDefaults_id. reflexivity.
Qed.

Lemma Getvar_conflict (key d d2 : string) (w : World) :
  varDefaults w !! key = Some d -> d2 <> d ->
  Getvar key d2 w =
    Panic ("Variable " +:+ key +:+ " accessed with different default values") w.
Proof.
  intros H Hne. unfold Getvar. rewrite H.
  rewrite bool_decide_eq_true_2 by congruence. reflexivity.
Qed.

Lemma Getvar_keeps (key d key2 d2 v : string) (w w' : World) :
  Getvar key2 d2 w = Ret v w' ->
  varDefaults w !! key = Some d -> varDefaults w' !! key = Some d.
Proof.
  unfold Getvar. intros Hget H.
  destruct (varDefaults w !! key2) as [value|] eqn:E.
  - case_bool_decide as Hv; [discriminate|].
    injection Hget as _ <-. simpl.
    destruct (decide (key2 = key)) as [->|Hk].
    + rewrite lookup_insert_eq. congruence.
    + rewrite lookup_insert_ne by done. exact H.
  - injection Hget as _ <-. simpl.
    destruct (decide (key2 = key)) as [->|Hk]; [congruence|].
    rewrite lookup_insert_ne by done. exact H.
Qed.

Lemma Getvars_keep (key d : string) (queries : list (string * string)) (w w' : World) :
  Getvars queries w = Ret tt w' ->
  varDefaults w !! key = Some d -> varDefaults w' !! key = Some d.
Proof.
  revert w. induction queries as [|[k2 d2] rest IH]; intros w; simpl.
  - intros [= <-]. done.
  - unfold bind. destruct (Getvar k2 d2 w) as [v w1| |] eqn:E; try discriminate.
    intros Hrest H. apply (IH w1 Hrest). eapply Getvar_keeps; eauto.
Qed.

(** C6: after the first query of [key], made with default [d1], and whatever
    queries follow it, a query of [key] with another default panics, and a
    query with [d1] again returns. *)
Theorem Getvar_default_consistency (key d1 : string) (w : World)
    (queries : list (string * string)) (w2 : World) :
  varDefaults w !! key = None ->
  exists w1,
    Getvar key d1 w = Ret (default d1 (Vars w !! key)) w1 /\
    (Getvars queries w1 = Ret tt w2 ->
       (forall d2, d2 <> d1 ->
          Getvar key d2 w2 =
            Panic ("Variable " +:+ key +:+ " accessed with different default values") w2) /\
       Getvar key d1 w2 = Ret (default d1 (Vars w2 !! key)) w2).
Proof.
  intros Hfirst. eexists. split; [apply Getvar_first; exact Hfirst|].
  intros Hq.
  assert (varDefaults w2 !! key = Some d1) as H2.
  { eapply Getvars_keep; [exact Hq|]. simpl. apply lookup_insert_eq. }
  split.
  - intros d2 Hne. apply Getvar_conflict with d1; assumption.
  - apply Getvar_again. exact H2.
Qed.

(** ** [validateTargets] *)

Lemma validateTargets_loop_Fine (targets : list Task) (names : gset string) (defaults : bool) :
  "help" ∉ target_names targets -> NoDup (target_names targets) ->
  (forall n, n ∈ target_names targets -> n ∉ names) ->
  validateTargets_loop targets names defaults =
    Fine (defaults || existsb isDefault targets).
Proof.
  revert names defaults.
  induction targets as [|task rest IH]; intros names defaults Hh Hnd Hnew; simpl.
  - rewrite orb_false_r. reflexivity.
  - unfold target_names in *. rewrite fmap_cons, filter_cons in Hh, Hnd, Hnew.
    case_bool_decide as Hname.
    + rewrite decide_True in Hh, Hnd, Hnew by exact Hname.
      apply not_elem_of_cons in Hh as [Hh1 Hh2].
      apply NoDup_cons in Hnd as [Hnd1 Hnd2].
      rewrite bool_decide_eq_false_2 by congruence.
      rewrite bool_decide_eq_false_2 by (apply Hnew; left).
      rewrite IH; try assumption.
      * destruct (isDefault task), defaults; reflexivity.
      * intros n Hn. rewrite elem_of_union, elem_of_singleton.
        intros [->|Hin]; [contradiction|].
        revert Hin. apply Hnew. right. exact Hn.
    + rewrite decide_False in Hh, Hnd, Hnew by (intros Hx; apply Hx, Hname).
      rewrite IH; try assumption.
      destruct (isDefault task), defaults; reflexivity.
Qed.

Lemma validateTargets_loop_Panics (targets : list Task) (names : gset string) (defaults : bool) :
  "help" ∈ target_names targets \/ ~ NoDup (target_names targets) \/
  (exists n, n ∈ target_names targets /\ n ∈ names) ->
  exists task, task ∈ targets /\ name task <> EmptyString /\
    validateTargets_loop targets names defaults = Panics (name task).
Proof.
  revert names defaults.
  induction targets as [|task rest IH]; intros names defaults H; simpl.
  - exfalso. unfold target_names in H. simpl in H.
    destruct H as [H|[H|[n [H _]]]].
    + inversion H.
    + apply H. constructor.
    + inversion H.
  - unfold target_names in *. rewrite fmap_cons, filter_cons in H.
    case_bool_decide as Hname.
    + rewrite decide_True in H by exact Hname.
      case_bool_decide as Hhelp; [exists task; split; [left|split; [assumption|reflexivity]]|].
      case_bool_decide as Hseen; [exists task; split; [left|split; [assumption|reflexivity]]|].
      destruct (IH ({[name task]} ∪ names) (if isDefault task then true else defaults))
        as [task' [Hin [Hne Hp]]].
      * destruct H as [H|[H|[n [Hn Hin]]]].
        -- apply elem_of_cons in H as [H|H]; [congruence|]. left. exact H.
        -- destruct (decide (name task ∈ filter (fun n => n <> EmptyString) (name <$> rest)))
             as [Hd|Hd].
           ++ right. right. exists (name task). split; [exact Hd|].
              apply elem_of_union. left. apply elem_of_singleton. reflexivity.
           ++ right. left. intros Hnd. apply H. constructor; assumption.
        -- apply elem_of_cons in Hn as [->|Hn]; [contradiction|].
           right. right. exists n. split; [exact Hn|].
           apply elem_of_union. right. exact Hin.
      * exists task'. split; [right; exact Hin|]. split; assumption.
    + rewrite decide_False in H by (intros Hx; apply Hx, Hname).
      destruct (IH names (if isDefault task then true else defaults) H)
        as [task' [Hin [Hne Hp]]].
      exists task'. split; [right; exact Hin|]. split; assumption.
Qed.

Lemma named_help_names (targets : list Task) :
  named_help targets <-> "help" ∈ target_names targets.
Proof.
  unfold named_help, target_names. rewrite list_elem_of_filter, list_elem_of_fmap.
  split.
  - intros [task [Hin Hn]]. split; [discriminate|]. exists task. split; [congruence|exact Hin].
  - intros [_ [task [Hn Hin]]]. exists task. split; [exact Hin|congruence].
Qed.

Lemma target_names_cons (task : Task) (rest : list Task) :
  target_names (task :: rest) =
    if decide (name task <> EmptyString) then name task :: target_names rest
    else target_names rest.
Proof. unfold target_names. rewrite fmap_cons, filter_cons. reflexivity. Qed.

Lemma elem_of_target_names (n : string) (targets : list Task) :
  n ∈ target_names targets <->
  n <> EmptyString /\ exists i task, targets !! i = Some task /\ name task = n.
Proof.
  unfold target_names. rewrite list_elem_of_filter, list_elem_of_fmap.
  split.
  - intros [Hn [task [-> Hin]]]. split; [exact Hn|].
    apply list_elem_of_lookup in Hin as [i Hi]. eauto.
  - intros [Hn [i [task [Hi <-]]]]. split; [exact Hn|].
    exists task. split; [reflexivity|]. eapply list_elem_of_lookup_2; eauto.
Qed.

Lemma shared_name_names (targets : list Task) :
  shared_name targets <-> ~ NoDup (target_names targets).
Proof.
  induction targets as [|task rest IH].
  - split.
    + intros (i & j & t1 & t2 & _ & H & _). rewrite lookup_nil in H. discriminate.
    + intros H. exfalso. apply H. constructor.
  - rewrite target_names_cons. split.
    + intros (i & j & t1 & t2 & Hij & Hi & Hj & Heq & Hne) Hnd.
      assert (forall k t', rest !! k = Some t' -> name t' = name task ->
                name task <> EmptyString -> False) as Hhead.
      { intros k t' Hk Hn Hnm. rewrite decide_True in Hnd by exact Hnm.
        apply NoDup_cons in Hnd as [Hnotin _]. apply Hnotin.
        apply elem_of_target_names. split; [exact Hnm|]. eauto. }
      destruct i as [|i], j as [|j]; simpl in Hi, Hj.
      * congruence.
      * injection Hi as <-. apply (Hhead j t2 Hj); congruence.
      * injection Hj as <-. apply (Hhead i t1 Hi); congruence.
      * apply (proj1 IH).
        -- exists i, j, t1, t2. repeat split; try assumption. congruence.
        -- destruct (decide (name task <> EmptyString)); [|exact Hnd].
           apply NoDup_cons in Hnd as [_ Hnd]. exact Hnd.
    + intros Hnd.
      destruct (decide (NoDup (target_names rest))) as [Hrest|Hrest].
      * destruct (decide (name task <> EmptyString)) as [Hnm|Hnm]; [|contradiction].
        destruct (decide (name task ∈ target_names rest)) as [Hin|Hin].
        -- apply elem_of_target_names in Hin as [_ [k [t' [Hk Hn]]]].
           exists 0%nat, (S k), task, t'. repeat split; try done.
        -- exfalso. apply Hnd. constructor; assumption.
      * apply IH in Hrest as (i & j & t1 & t2 & Hij & Hi & Hj & Heq & Hne).
        exists (S i), (S j), t1, t2. repeat split; try assumption. congruence.
Qed.

(** C7: [validateTargets] panics, with the name, when two targets share a
    name that is not empty or when a target is named "help"; otherwise it
    returns whether a target is marked default. *)
Theorem validateTargets_spec (targets : list Task) :
  (shared_name targets \/ named_help targets ->
     exists task, task ∈ targets /\ name task <> EmptyString /\
       validateTargets targets = Panics (name task)) /\
  (~ (shared_name targets \/ named_help targets) ->
     validateTargets targets = Fine (existsb isDefault targets)).
Proof.
  unfold validateTargets. split.
  - intros H. apply validateTargets_loop_Panics.
    destruct H as [H|H].
    + right. left. apply shared_name_names. exact H.
    + left. apply named_help_names. exact H.
  - intros H. rewrite validateTargets_loop_Fine; [reflexivity| | |set_solver].
    + intros Hh. apply H. right. apply named_help_names. exact Hh.
    + destruct (decide (NoDup (target_names targets))) as [Hnd|Hnd]; [exact Hnd|].
      exfalso. apply H. left. apply shared_name_names. exact Hnd.
Qed.

(** ** [Outdated] *)

Lemma Outdated_deps_spec (target : string) (targetTime : Z) (deps : list string) (w : World) :
  exists b w', Outdated_deps target targetTime deps w = Ret b w' /\
    (b = true <->
       exists d, d ∈ deps /\
         (stat_fails d w \/ exists id, os_Stat d w = StatOk id /\ ModTime id > targetTime)).
Proof.
  induction deps as [|source deps IH]; simpl.
  - exists false, w. split; [reflexivity|]. split; [discriminate|].
    intros [d [Hd _]]. inversion Hd.
  - destruct (os_Stat source w) as [info|ne err] eqn:E.
    + unfold After. case_bool_decide as Hafter.
      * exists true, w. split; [reflexivity|]. split; [|reflexivity].
        intros _. exists source. split; [left|]. right. eauto.
      * destruct IH as (b & w' & Hrun & Hiff). exists b, w'. split; [exact Hrun|].
        rewrite Hiff. split.
        -- intros [d [Hd H]]. exists d. split; [right; exact Hd|exact H].
        -- intros [d [Hd H]]. apply elem_of_cons in Hd as [->|Hd]; [|eauto].
           exfalso. destruct H as [(n & msg & H)|(id & H & Hlt)]; [congruence|].
           rewrite E in H. injection H as <-. lia.
    + eexists true, _. split; [reflexivity|]. split; [|reflexivity].
      intros _. exists source. split; [left|]. left. unfold stat_fails. eauto.
Qed.

Lemma globalDeps_Main_globalDeps (main : string) (deps : list string) (w : World) :
  globalDeps (Main_globalDeps main deps w) =
    globalDeps w ++ (if decide (main = EmptyString) then [] else [main]) ++ deps.
Proof.
  unfold Main_globalDeps. case_bool_decide as Hm.
  - rewrite decide_False by exact Hm. simpl. rewrite <- app_assoc. reflexivity.
  - rewrite decide_True by (destruct (decide (main = EmptyString)); [done|contradiction]).
    reflexivity.
Qed.

(** C3, amended: the predicate of [Outdated] is true exactly when [os.Stat]
    of the target fails, or [os.Stat] of a dependency among the global ones
    and the sources of the call fails, or a dependency is modified strictly
    after the target; and a dependency that [Main] registered is among the
    global ones, so that a call without sources is true when that
    dependency is newer than the target or cannot be examined. *)
Theorem Outdated_stale :
  (forall target sources (w : World) srcs w1,
     call_sources sources w = Ret srcs w1 ->
     exists b w', Outdated target sources w = Ret b w' /\
       (b = true <->
          stat_fails target w \/
          exists d, d ∈ globalDeps w ++ srcs /\ (stat_fails d w1 \/ newer d target w w1))) /\
  (forall main deps (w0 : World) target G,
     G ∈ deps \/ (G = main /\ main <> EmptyString) ->
     let w := Main_globalDeps main deps w0 in
     G ∈ globalDeps w /\
     (stat_fails G w \/ newer G target w w ->
      exists w', Outdated target None w = Ret true w')).
Proof.
  assert (forall target sources (w : World) srcs w1,
     call_sources sources w = Ret srcs w1 ->
     exists b w', Outdated target sources w = Ret b w' /\
       (b = true <->
          stat_fails target w \/
          exists d, d ∈ globalDeps w ++ srcs /\ (stat_fails d w1 \/ newer d target w w1)))
    as Hmain.
  { intros target sources w srcs w1 Hsrc. unfold Outdated.
    destruct (os_Stat target w) as [info|ne msg] eqn:Et.
    - assert (exists b w', (do srcs <- call_sources sources;
                 Outdated_deps target (ModTime info) (globalDeps w ++ srcs)) w = Ret b w' /\
               (b = true <-> exists d, d ∈ globalDeps w ++ srcs /\
                  (stat_fails d w1 \/
                   exists id, os_Stat d w1 = StatOk id /\ ModTime id > ModTime info)))
        as (b & w' & Hrun & Hiff).
      { unfold bind. rewrite Hsrc. apply Outdated_deps_spec. }
      exists b, w'. split.
      + rewrite <- Hrun. destruct sources; simpl; [reflexivity|].
        unfold bind. simpl. rewrite app_nil_r. reflexivity.
      + rewrite Hiff. split.
        * intros [d [Hd H]]. right. exists d. split; [exact Hd|].
          destruct H as [H|(id & H & Hlt)]; [left; exact H|].
          right. exists info, id. auto.
        * intros [(n & m & H)|[d [Hd H]]]; [congruence|].
          exists d. split; [exact Hd|].
          destruct H as [H|(it & id & Ht & Hd' & Hlt)]; [left; exact H|].
          right. exists id. split; [exact Hd'|]. congruence.
    - exists true, w. split; [reflexivity|]. split; [|reflexivity].
      intros _. left. unfold stat_fails. eauto. }
  split; [exact Hmain|].
  intros main deps w0 target G HG w.
  assert (G ∈ globalDeps w) as Hin.
  { unfold w. rewrite globalDeps_Main_globalDeps.
    rewrite !elem_of_app. right.
    destruct HG as [HG|[-> Hm]]; [right; exact HG|].
    left. rewrite decide_False by exact Hm. left. }
  split; [exact Hin|].
  intros Hstale.
  destruct (Hmain target None w [] w eq_refl) as (b & w' & Hrun & Hiff).
  exists w'. rewrite Hrun. f_equal. apply Hiff.
  right. exists G. rewrite app_nil_r. auto.
Qed.

(** ** [maybeQuote] *)

Lemma append_String (x : ascii) (a b : string) : String x a +:+ b = String x (a +:+ b).
Proof. reflexivity. Qed.

Lemma append_Empty (b : string) : EmptyString +:+ b = b.
Proof. reflexivity. Qed.

Ltac str_simpl := rewrite ?append_String, ?append_Empty; simpl.

Lemma length_append (a b : string) :
  String.length (a +:+ b) = (String.length a + String.length b)%nat.
Proof. induction a as [|c a IH]; str_simpl; [reflexivity|]. rewrite IH. reflexivity. Qed.

Lemma append_assoc (a b c : string) : (a +:+ b) +:+ c = a +:+ b +:+ c.
Proof. induction a as [|x a IH]; str_simpl; [reflexivity|]. rewrite IH. reflexivity. Qed.

Lemma substring_all (x : string) : String.substring 0 (String.length x) x = x.
Proof. induction x as [|c x IH]; simpl; [reflexivity|]. rewrite IH. reflexivity. Qed.

Lemma substring_app_l (pre x : string) :
  String.substring 0 (String.length pre) (pre +:+ x) = pre.
Proof.
  induction pre as [|c pre IH]; str_simpl.
  - destruct x; reflexivity.
  - rewrite IH. reflexivity.
Qed.

Lemma substring_app_r (pre x : string) (n : nat) :
  String.substring (String.length pre) n (pre +:+ x) = String.substring 0 n x.
Proof. induction pre as [|c pre IH]; str_simpl; [reflexivity|exact IH]. Qed.

Lemma slice_prefix (pre x : string) : slice (pre +:+ x) 0 (len pre) = pre.
Proof.
  unfold slice, len. rewrite Z.sub_0_r, Nat2Z.id. apply substring_app_l.
Qed.

Lemma slice_middle (pre mid post : string) :
  slice (pre +:+ mid +:+ post) (len pre) (len pre + len mid) = mid.
Proof.
  unfold slice, len. rewrite Nat2Z.id.
  replace (Z.to_nat _) with (String.length mid) by lia.
  rewrite substring_app_r. apply substring_app_l.
Qed.

Lemma slice_suffix (pre x : string) : slice (pre +:+ x) (len pre) (len (pre +:+ x)) = x.
Proof.
  unfold slice, len. rewrite Nat2Z.id, length_append.
  replace (Z.to_nat _) with (String.length x) by lia.
  rewrite substring_app_r. apply substring_all.
Qed.

Lemma free_app (chars a b : string) :
  free chars (a +:+ b) = free chars a && free chars b.
Proof.
  induction a as [|c a IH]; str_simpl; [reflexivity|]. rewrite IH, andb_assoc. reflexivity.
Qed.

Lemma byte_in_str (a c : ascii) : byte_in a (str c) = Ascii.eqb a c.
Proof. simpl. apply orb_false_r. Qed.

Lemma prefix_str (c a : ascii) (s : string) :
  String.prefix (str c) (String a s) = Ascii.eqb a c.
Proof.
  simpl. destruct (ascii_dec c a) as [->|Hne].
  - rewrite Ascii.eqb_refl. destruct s; reflexivity.
  - symmetry. apply Ascii.eqb_neq. congruence.
Qed.

Lemma index_of_str (s : string) (c : ascii) : index_of s (str c) = index_any s (str c).
Proof.
  induction s as [|a s IH].
  - reflexivity.
  - cbn [index_of index_any]. rewrite prefix_str, byte_in_str, IH. reflexivity.
Qed.

Lemma index_any_free (chars s : string) :
  free chars s = true -> index_any s chars = None.
Proof.
  induction s as [|a s IH]; simpl; [reflexivity|].
  intros [Ha Hs]%andb_prop. apply negb_true_iff in Ha. rewrite Ha, (IH Hs). reflexivity.
Qed.

Lemma index_any_app (chars pre : string) (a : ascii) (post : string) :
  free chars pre = true -> byte_in a chars = true ->
  index_any (pre +:+ String a post) chars = Some (String.length pre).
Proof.
  intros Hpre Ha. induction pre as [|c pre IH]; str_simpl.
  - rewrite Ha. reflexivity.
  - simpl in Hpre. apply andb_prop in Hpre as [Hc Hpre]. apply negb_true_iff in Hc.
    rewrite Hc, (IH Hpre). reflexivity.
Qed.

Lemma last_index_any_free (chars s : string) :
  free chars s = true -> last_index_any s chars = None.
Proof.
  induction s as [|a s IH]; simpl; [reflexivity|].
  intros [Ha Hs]%andb_prop. apply negb_true_iff in Ha. rewrite (IH Hs), Ha. reflexivity.
Qed.

Lemma last_index_any_app (chars pre : string) (a : ascii) (post : string) :
  byte_in a chars = true -> free chars post = true ->
  last_index_any (pre +:+ String a post) chars = Some (String.length pre).
Proof.
  intros Ha Hpost. induction pre as [|c pre IH]; str_simpl.
  - rewrite (last_index_any_free _ _ Hpost), Ha. reflexivity.
  - rewrite IH. reflexivity.
Qed.

Lemma strings_Index_free (s : string) (c : ascii) :
  free (str c) s = true -> strings_Index s (str c) = -1.
Proof.
  intros H. unfold strings_Index. rewrite index_of_str, (index_any_free _ _ H). reflexivity.
Qed.

Lemma strings_Index_app (pre : string) (c : ascii) (post : string) :
  free (str c) pre = true -> strings_Index (pre +:+ String c post) (str c) = len pre.
Proof.
  intros H. unfold strings_Index. rewrite index_of_str, index_any_app; [reflexivity|exact H|].
  rewrite byte_in_str. apply Ascii.eqb_refl.
Qed.

Lemma strings_Index_at (pre : string) (c : ascii) (post : string) :
  free (str c) pre = true -> strings_Index (pre +:+ str c +:+ post) (str c) = len pre.
Proof. apply strings_Index_app. Qed.

Lemma strings_Contains_free (s : string) (c : ascii) :
  strings_Contains s (str c) = negb (free (str c) s).
Proof.
  unfold strings_Contains, strings_Index. rewrite index_of_str.
  induction s as [|a s IH]; simpl.
  - reflexivity.
  - rewrite orb_false_r. destruct (Ascii.eqb a c); simpl; [reflexivity|].
    rewrite <- IH. destruct (index_any s (str c)); simpl;
      repeat case_bool_decide; try reflexivity; lia.
Qed.

Lemma strings_Count_nonneg (s : string) (c : ascii) : 0 <= strings_Count s c.
Proof. induction s as [|a s IH]; simpl; [lia|]. destruct (Ascii.eqb a c); lia. Qed.

Lemma strings_Count_free (s : string) (c : ascii) :
  strings_Count s c = 0 <-> free (str c) s = true.
Proof.
  induction s as [|a s IH]; simpl; [tauto|].
  rewrite orb_false_r. pose proof (strings_Count_nonneg s c).
  destruct (Ascii.eqb a c); simpl.
  - split; [lia|discriminate].
  - rewrite <- IH. reflexivity.
Qed.

Lemma len_append (a b : string) : len (a +:+ b) = len a + len b.
Proof. unfold len. rewrite length_append. lia. Qed.

Lemma len_str (c : ascii) : len (str c) = 1.
Proof. reflexivity. Qed.

Lemma len_nonneg (s : string) : 0 <= len s.
Proof. unfold len. lia. Qed.

Lemma index_any_skip (chars pre x : string) :
  free chars pre = true ->
  index_any (pre +:+ x) chars = (fun k => (String.length pre + k)%nat) <$> index_any x chars.
Proof.
  intros Hpre. induction pre as [|c pre IH]; str_simpl.
  - destruct (index_any x chars); reflexivity.
  - simpl in Hpre. apply andb_prop in Hpre as [Hc Hpre]. apply negb_true_iff in Hc.
    rewrite Hc, (IH Hpre). destruct (index_any x chars); reflexivity.
Qed.

Lemma index_any_found (chars x : string) :
  free chars x = false -> exists k, index_any x chars = Some k.
Proof.
  induction x as [|c x IH]; simpl; [discriminate|].
  destruct (byte_in c chars); simpl; [eauto|].
  intros H. destruct (IH H) as [k ->]. simpl. eauto.
Qed.

(** The two-quote case of [maybeQuote], on [s = pre ++ mid ++ post] where
    [beg = len(pre)] and [end = len(pre) + len(mid)]. *)
Lemma maybeQuote_two (pre mid post : string) :
  free (str squote) (pre +:+ mid +:+ post) = true ->
  strings_Count (pre +:+ mid +:+ post) dquote = 2 ->
  (if bool_decide (strings_Index (pre +:+ mid +:+ post) (str equals) >= 0 /\
                   strings_Index (pre +:+ mid +:+ post) (str equals) <
                   strings_IndexAny (pre +:+ mid +:+ post) quote_or_space)
   then strings_Index (pre +:+ mid +:+ post) (str equals) + 1
   else strings_IndexAny (pre +:+ mid +:+ post) quote_or_space) = len pre ->
  strings_LastIndexAny (pre +:+ mid +:+ post) quote_or_space + 1 = len pre + len mid ->
  maybeQuote (pre +:+ mid +:+ post) = pre +:+ str squote +:+ mid +:+ str squote +:+ post.
Proof.
  intros Hsq Hcount Hbeg Hend. unfold maybeQuote.
  rewrite strings_Contains_free, Hsq. simpl negb. cbv iota.
  rewrite Hcount. cbv zeta. fold quote_or_space. rewrite Hbeg, Hend.
  rewrite slice_prefix, slice_middle.
  rewrite <- (append_assoc pre mid post) at 1.
  replace (len pre + len mid) with (len (pre +:+ mid)) by apply len_append.
  rewrite <- (append_assoc pre mid post) at 1.
  rewrite slice_suffix. reflexivity.
Qed.

Lemma free_String (c : ascii) (chars s : string) :
  free (String c chars) s = free (str c) s && free chars s.
Proof.
  induction s as [|a s IH]; [reflexivity|].
  cbn [free byte_in str]. rewrite IH, orb_false_r.
  destruct (Ascii.eqb a c), (byte_in a chars), (free (str c) s), (free chars s); reflexivity.
Qed.

Lemma free_str_in (chars : string) (a : ascii) :
  byte_in a chars = true -> free chars (str a) = false.
Proof. intros H. cbn [free str]. rewrite H. reflexivity. Qed.

Lemma strings_Index_skip (pre x : string) (c : ascii) :
  free (str c) pre = true ->
  strings_Index (pre +:+ x) (str c) = -1 \/
  exists k, strings_Index (pre +:+ x) (str c) = len pre + Z.of_nat k /\
            index_any x (str c) = Some k.
Proof.
  intros Hpre. unfold strings_Index. rewrite index_of_str, (index_any_skip _ _ _ Hpre).
  destruct (index_any x (str c)) as [k|]; simpl; [|left; reflexivity].
  right. exists k. split; [unfold len; lia|reflexivity].
Qed.

Lemma strings_IndexAny_skip (chars pre x : string) :
  free chars pre = true -> free chars x = false ->
  exists k, strings_IndexAny (pre +:+ x) chars = len pre + Z.of_nat k.
Proof.
  intros Hpre Hx. unfold strings_IndexAny. rewrite (index_any_skip _ _ _ Hpre).
  destruct (index_any_found _ _ Hx) as [k ->]. simpl. exists k. unfold len. lia.
Qed.

Lemma index_any_lt (s chars : string) (k : nat) :
  index_any s chars = Some k -> (k < String.length s)%nat.
Proof.
  revert k. induction s as [|a s IH]; intros k; simpl; [discriminate|].
  destruct (byte_in a chars); [intros [= <-]; lia|].
  destruct (index_any s chars) as [j|]; simpl; [|discriminate].
  intros [= <-]. specialize (IH j eq_refl). lia.
Qed.

Lemma last_index_any_lt (s chars : string) (k : nat) :
  last_index_any s chars = Some k -> (k < String.length s)%nat.
Proof.
  revert k. induction s as [|a s IH]; intros k; simpl; [discriminate|].
  destruct (last_index_any s chars) as [j|].
  - intros [= <-]. specialize (IH j eq_refl). lia.
  - destruct (byte_in a chars); [intros [= <-]; lia|discriminate].
Qed.

Lemma index_any_le_last (s chars : string) (k : nat) :
  index_any s chars = Some k ->
  exists j, last_index_any s chars = Some j /\ (k <= j)%nat.
Proof.
  revert k. induction s as [|a s IH]; intros k; simpl; [discriminate|].
  destruct (byte_in a chars) eqn:Ea.
  - intros [= <-]. destruct (last_index_any s chars) as [j|]; eexists; split; eauto; lia.
  - destruct (index_any s chars) as [i|]; simpl; [|discriminate].
    intros [= <-]. destruct (IH i eq_refl) as (j & -> & Hij). exists (S j). split; [reflexivity|lia].
Qed.

(** The slices [maybeQuote] takes are within the bounds of [s]: it does not
    panic. *)
Lemma maybeQuote_slices_ok (s : string) :
  (0 <= strings_Index s (str space) ->
   ~ (strings_Index s (str equals) < 0 \/
      strings_Index s (str equals) > strings_Index s (str space)) ->
   slice_ok s 0 (strings_Index s (str equals) + 1) /\
   slice_ok s (strings_Index s (str equals) + 1) (len s)) /\
  (strings_Count s dquote = 2 ->
   let beg := strings_IndexAny s quote_or_space in
   let i := strings_Index s (str equals) in
   let beg := if bool_decide (i >= 0 /\ i < beg) then i + 1 else beg in
   let end_ := strings_LastIndexAny s quote_or_space + 1 in
   slice_ok s 0 beg /\ slice_ok s beg end_ /\ slice_ok s end_ (len s)).
Proof.
  split.
  - unfold strings_Index. rewrite !index_of_str. intros Hsp Heq.
    destruct (index_any s (str space)) as [k|] eqn:Ek; [|lia].
    destruct (index_any s (str equals)) as [j|] eqn:Ej; [|lia].
    apply index_any_lt in Ek, Ej. unfold slice_ok, len. lia.
  - intros Hcount. cbv zeta.
    assert (free quote_or_space s = false) as Hq.
    { unfold quote_or_space. rewrite (free_String dquote (str space)).
      destruct (free (str dquote) s) eqn:E; [|reflexivity].
      apply strings_Count_free in E. lia. }
    destruct (index_any_found _ _ Hq) as [k Hk].
    destruct (index_any_le_last _ _ _ Hk) as (j & Hj & Hkj).
    pose proof (last_index_any_lt _ _ _ Hj) as Hjlen.
    unfold strings_IndexAny, strings_LastIndexAny. rewrite Hk, Hj.
    unfold slice_ok, len. case_bool_decide; lia.
Qed.

(** C9, amended: what [maybeQuote] returns, case by case.  An argument with
    a single quote goes through [strconv.Quote].  Otherwise: without double
    quote and space it is printed bare; without double quote and with a
    space it is wrapped whole in double quotes, unless an equals sign comes
    before the first space, and then only what follows the first equals
    sign is wrapped; with two double quotes, the part from the first double
    quote or space (or from behind an equals sign that comes before it) to
    the last double quote or space is wrapped in single quotes; with another
    number of double quotes the whole argument is wrapped in single
    quotes. *)
Theorem maybeQuote_cases (s : string) :
  (free (str squote) s = false -> maybeQuote s = strconv_Quote s) /\
  (free (str squote) s = true ->
   (free quote_or_space s = true -> maybeQuote s = s) /\
   (forall name value,
      s = name +:+ str equals +:+ value ->
      free (String equals (str space)) name = true ->
      free (str dquote) s = true -> free (str space) value = false ->
      maybeQuote s = name +:+ str equals +:+ str dquote +:+ value +:+ str dquote) /\
   (forall pre post,
      s = pre +:+ str space +:+ post ->
      free (String equals (str space)) pre = true ->
      free (str dquote) s = true ->
      maybeQuote s = str dquote +:+ s +:+ str dquote) /\
   (forall name mid a post,
      s = name +:+ str equals +:+ (mid +:+ str a) +:+ post ->
      strings_Count s dquote = 2 ->
      free (String equals quote_or_space) name = true ->
      byte_in a quote_or_space = true -> free quote_or_space post = true ->
      maybeQuote s =
        name +:+ str equals +:+ str squote +:+ (mid +:+ str a) +:+ str squote +:+ post) /\
   (forall pre a1 mid a2 post,
      s = pre +:+ (String a1 mid +:+ str a2) +:+ post ->
      strings_Count s dquote = 2 ->
      free (String equals quote_or_space) pre = true ->
      byte_in a1 quote_or_space = true ->
      byte_in a2 quote_or_space = true -> free quote_or_space post = true ->
      maybeQuote s =
        pre +:+ str squote +:+ (String a1 mid +:+ str a2) +:+ str squote +:+ post) /\
   (strings_Count s dquote <> 0 -> strings_Count s dquote <> 2 ->
    maybeQuote s = str squote +:+ s +:+ str squote)).
Proof.
  split.
  { intros Hsq. unfold maybeQuote. rewrite strings_Contains_free, Hsq. reflexivity. }
  intros Hsq.
  assert (forall x, maybeQuote x =
            if strings_Contains x (str squote) then strconv_Quote x
            else match strings_Count x dquote with
                 | 0 =>
                     if bool_decide (strings_Index x (str space) < 0) then x
                     else if bool_decide (strings_Index x (str equals) < 0 \/
                               strings_Index x (str equals) > strings_Index x (str space))
                          then str dquote +:+ x +:+ str dquote
                          else slice x 0 (strings_Index x (str equals) + 1) +:+ str dquote +:+
                               slice x (strings_Index x (str equals) + 1) (len x) +:+ str dquote
                 | 2 => maybeQuote x
                 | _ => str squote +:+ x +:+ str squote
                 end) as Hunfold.
  { intros x. unfold maybeQuote. destruct (strings_Contains x (str squote)); [reflexivity|].
    destruct (strings_Count x dquote) as [|[p|[p|p|]|]|p]; reflexivity. }
  assert (strings_Contains s (str squote) = false) as Hc
    by (rewrite strings_Contains_free, Hsq; reflexivity).
  repeat split.
  - (* bare *)
    intros Hfree. rewrite Hunfold, Hc.
    unfold quote_or_space in Hfree. rewrite (free_String dquote (str space)) in Hfree.
    apply andb_prop in Hfree as [Hd Hs].
    rewrite (proj2 (strings_Count_free s dquote) Hd), (strings_Index_free _ _ Hs).
    reflexivity.
  - (* name=value with a space in the value *)
    intros name value -> Hname Hd Hvalue. rewrite Hunfold, Hc.
    rewrite (proj2 (strings_Count_free _ dquote) Hd).
    rewrite (free_String equals (str space)) in Hname.
    apply andb_prop in Hname as [Hne Hns].
    assert (strings_Index (name +:+ str equals +:+ value) (str equals) = len name) as Hi
      by (apply strings_Index_at; exact Hne).
    assert (exists k, strings_Index (name +:+ str equals +:+ value) (str space) =
                        len name + 1 + Z.of_nat k) as [k Hk].
    { rewrite <- append_assoc.
      destruct (strings_Index_skip (name +:+ str equals) value space) as [H|[k [H _]]].
      - rewrite free_app, Hns. reflexivity.
      - exfalso. revert H. unfold strings_Index. rewrite index_of_str, index_any_skip
          by (rewrite free_app, Hns; reflexivity).
        destruct (index_any_found _ _ Hvalue) as [k ->]. simpl. lia.
      - exists k. rewrite H, len_append, len_str. reflexivity. }
    rewrite Hi, Hk.
    rewrite bool_decide_eq_false_2 by (pose proof (len_nonneg name); lia).
    rewrite bool_decide_eq_false_2 by (pose proof (len_nonneg name); lia).
    replace (len name + 1) with (len (name +:+ str equals))
      by (rewrite len_append, len_str; reflexivity).
    rewrite <- !(append_assoc name (str equals)).
    rewrite slice_prefix, slice_suffix. rewrite !append_assoc. reflexivity.
  - (* a space before any equals sign *)
    intros pre post -> Hpre Hd. rewrite Hunfold, Hc.
    rewrite (proj2 (strings_Count_free _ dquote) Hd).
    rewrite (free_String equals (str space)) in Hpre.
    apply andb_prop in Hpre as [Hne Hns].
    rewrite (strings_Index_at pre space post Hns).
    rewrite bool_decide_eq_false_2 by (pose proof (len_nonneg pre); lia).
    rewrite bool_decide_eq_true_2; [reflexivity|].
    destruct (strings_Index_skip pre (str space +:+ post) equals Hne) as [H|[k [H Hk]]].
    + left. rewrite H. lia.
    + right. rewrite H. destruct k as [|k]; [|lia].
      exfalso. revert Hk. change (str space +:+ post) with (String space post).
      simpl. destruct (index_any post (str equals)); simpl; intros H'; discriminate H'.
  - (* two double quotes behind name= *)
    intros name mid a post -> Hcount Hname Ha Hpost.
    rewrite (free_String equals quote_or_space) in Hname.
    apply andb_prop in Hname as [Hne Hnq].
    rewrite <- !(append_assoc name (str equals)).
    rewrite <- !(append_assoc name (str equals)) in Hsq, Hcount.
    apply maybeQuote_two; [exact Hsq|exact Hcount| |].
    + rewrite !(append_assoc name (str equals)).
      rewrite (strings_Index_at name equals _ Hne).
      destruct (strings_IndexAny_skip quote_or_space (name +:+ str equals)
                  ((mid +:+ str a) +:+ post)) as [k Hk].
      * rewrite free_app, Hnq. reflexivity.
      * rewrite !free_app, (free_str_in _ _ Ha), andb_false_r. reflexivity.
      * rewrite append_assoc in Hk. rewrite Hk, len_append, len_str.
        rewrite bool_decide_eq_true_2 by (pose proof (len_nonneg name); lia).
        reflexivity.
    + replace ((name +:+ str equals) +:+ (mid +:+ str a) +:+ post)
        with (((name +:+ str equals) +:+ mid) +:+ String a post)
        by (rewrite !append_assoc; reflexivity).
      unfold strings_LastIndexAny. rewrite (last_index_any_app _ _ _ _ Ha Hpost).
      rewrite !len_append, !len_str. unfold len. rewrite !length_append. simpl. lia.
  - (* two double quotes, no name= before them *)
    intros pre a1 mid a2 post -> Hcount Hpre Ha1 Ha2 Hpost.
    rewrite (free_String equals quote_or_space) in Hpre.
    apply andb_prop in Hpre as [Hne Hnq].
    apply maybeQuote_two; [exact Hsq|exact Hcount| |].
    + assert (strings_IndexAny (pre +:+ (String a1 mid +:+ str a2) +:+ post) quote_or_space
              = len pre) as ->.
      { unfold strings_IndexAny. rewrite !append_String.
        rewrite (index_any_app _ _ _ _ Hnq Ha1). reflexivity. }
      rewrite bool_decide_eq_false_2; [reflexivity|].
      destruct (strings_Index_skip pre ((String a1 mid +:+ str a2) +:+ post) equals Hne)
        as [H|[k [H _]]]; rewrite H; lia.
    + replace (pre +:+ (String a1 mid +:+ str a2) +:+ post)
        with ((pre +:+ String a1 mid) +:+ String a2 post)
        by (rewrite !append_assoc; reflexivity).
      unfold strings_LastIndexAny. rewrite (last_index_any_app _ _ _ _ Ha2 Hpost).
      rewrite !len_append, !len_str. unfold len. rewrite !length_append. simpl. lia.
  - (* another number of double quotes *)
    intros H0 H2. rewrite Hunfold, Hc.
    destruct (strings_Count s dquote) as [|[p|[p|p|]|]|p]; try reflexivity; contradiction.
Qed.

(** ** [Env.String] *)

Lemma string_compare_le_trans (s1 s2 s3 : string) :
  String.compare s1 s2 <> Gt -> String.compare s2 s3 <> Gt -> String.compare s1 s3 <> Gt.
Proof.
  revert s2 s3. induction s1 as [|a s1 IH]; intros [|b s2] [|c s3]; simpl; try easy.
  destruct (Ascii.compare a b) eqn:Eab.
  - apply Ascii.compare_eq_iff in Eab as ->.
    destruct (Ascii.compare b c) eqn:Ebc; try easy. apply IH.
  - destruct (Ascii.compare b c) eqn:Ebc; try easy.
    + apply Ascii.compare_eq_iff in Ebc as ->. rewrite Eab. easy.
    + unfold Ascii.compare in *. rewrite N.compare_lt_iff in Eab, Ebc.
      assert ((N_of_ascii a ?= N_of_ascii c)%N = Lt) as -> by (apply N.compare_lt_iff; lia).
      easy.
  - easy.
Qed.

Lemma string_le_compare (s1 s2 : string) : string_le s1 s2 <-> String.compare s1 s2 <> Gt.
Proof.
  unfold string_le, String.leb. destruct (String.compare s1 s2); split; easy.
Qed.

#[global] Instance string_le_trans : Transitive string_le.
Proof.
  intros s1 s2 s3. rewrite !string_le_compare. apply string_compare_le_trans.
Qed.

#[global] Instance string_le_total : Total string_le.
Proof. intros s1 s2. apply String.leb_total. Qed.

#[global] Instance string_le_antisym : AntiSymm (=) string_le.
Proof. intros s1 s2. apply String.leb_antisym. Qed.

(** Whatever algorithm sorts the strings, the result is that of
    [sort_Strings]. *)
Lemma sort_Strings_unique (x y : list string) :
  Sorted string_le y -> y ≡ₚ x -> y = sort_Strings x.
Proof.
  intros Hsorted Hperm. unfold sort_Strings.
  apply (Sorted_unique string_le); [exact Hsorted|apply Sorted_merge_sort; apply _|].
  rewrite merge_sort_Permutation. exact Hperm.
Qed.

(** What [sort.Strings] returns is fixed by the strings it is given, in
    whatever order they come. *)
Lemma sort_Strings_perm (x y : list string) : x ≡ₚ y -> sort_Strings x = sort_Strings y.
Proof.
  intros Hxy. unfold sort_Strings.
  apply (Sorted_unique string_le); try apply Sorted_merge_sort; try apply _.
  rewrite !merge_sort_Permutation. exact Hxy.
Qed.

(** C8, amended: in whatever order [range] yields the pairs of [env],
    [Env.String] returns the same string: the printed pairs
    [maybeQuote(k)=maybeQuote(v)], sorted as strings, with a space between
    them. *)
Theorem Env_String_deterministic (env : Env) (order : list (string * string)) :
  order ≡ₚ map_to_list env ->
  Env_String_in order = Env_String env /\
  exists pairs,
    Env_String_in order = strings_Join pairs " " /\
    Sorted string_le pairs /\
    pairs ≡ₚ Env_pair <$> map_to_list env.
Proof.
  intros Hperm. split.
  - unfold Env_String, Env_String_in. f_equal. apply sort_Strings_perm.
    apply Permutation_map. exact Hperm.
  - exists (sort_Strings (Env_pair <$> order)). split; [reflexivity|]. split.
    + apply Sorted_merge_sort. apply _.
    + unfold sort_Strings. rewrite merge_sort_Permutation, Hperm. reflexivity.
Qed.

(** ** The engine *)

(** Induction over a task and the tasks below it. *)
Lemma Task_tree_ind (P : Task -> Prop) :
  (forall task, Forall P (tasks task) -> P task) -> forall task, P task.
Proof.
  intros step. fix IH 1. intros [n d subtasks c e f g t]. apply step. simpl.
  induction subtasks as [|subtask rest IHrest]; constructor; [apply IH|exact IHrest].
Qed.

Lemma run_unfold (task : Task) (cache : gset Tag) :
  run task cache =
    match tag task with
    | None =>
        fun m => Exit 1 (on_world (Eprintln ["Task values must not be created directly"]) m)
    | Some t =>
        if bool_decide (t ∈ cache) then Ret (false, cache)
        else
          do go <- run_cond task t;
          if negb go then Ret (false, {[t]} ∪ cache)
          else
            do r <- (fun m => run_tasks run (tasks task) false ({[t]} ∪ cache)
                               (log (EvTasks t) m));
            do worked <- run_command task t r.1;
            do worked <- run_function task t worked;
            Ret (worked, r.2)
    end.
Proof. destruct task; reflexivity. Qed.

Lemma wp_bind {A B} (c : Machine -> Outcome Machine A) (k : A -> Machine -> Outcome Machine B)
    (m : Machine) (Q : B -> Machine -> Prop) (E : option Z -> Machine -> Prop) :
  wp c m (fun a m' => wp (k a) m' Q E) E -> wp (do x <- c; k x) m Q E.
Proof. unfold wp, bind. destruct (c m); auto. Qed.

Lemma wp_mono {A} (c : Machine -> Outcome Machine A) (m : Machine)
    (Q Q' : A -> Machine -> Prop) (E E' : option Z -> Machine -> Prop) :
  wp c m Q E -> (forall a m', Q a m' -> Q' a m') -> (forall code m', E code m' -> E' code m') ->
  wp c m Q' E'.
Proof. unfold wp. destruct (c m); auto. Qed.

Lemma added_refl (P : Event -> Prop) (m m' : Machine) : trace m' = trace m -> added P m m'.
Proof.
  intros H. exists []. split; [exact H|]. split; [constructor|]. intros e He. inversion He.
Qed.

Lemma added_log (P : Event -> Prop) (e : Event) (m m' : Machine) :
  P e -> trace m' = e :: trace m -> added P m m'.
Proof.
  intros HP H. exists [e]. split; [exact H|]. split; [apply NoDup_singleton|].
  intros x Hx. apply list_elem_of_singleton in Hx as ->. exact HP.
Qed.

Lemma added_trans (P Q : Event -> Prop) (m m1 m2 : Machine) :
  added P m m1 -> added Q m1 m2 -> (forall e, P e -> Q e -> False) ->
  added (fun e => P e \/ Q e) m m2.
Proof.
  intros (n1 & H1 & Hnd1 & HP) (n2 & H2 & Hnd2 & HQ) Hdisj.
  exists (n2 ++ n1). split; [|split].
  - unfold adds in *. rewrite H2, H1, app_assoc. reflexivity.
  - apply NoDup_app. split; [exact Hnd2|]. split; [|exact Hnd1].
    intros e He2 He1. exact (Hdisj e (HP e He1) (HQ e He2)).
  - intros e [He|He]%elem_of_app; [right; apply HQ, He|left; apply HP, He].
Qed.

Lemma added_weaken (P Q : Event -> Prop) (m m' : Machine) :
  added P m m' -> (forall e, P e -> Q e) -> added Q m m'.
Proof. intros (n & H & Hnd & HP) HPQ. exists n. auto. Qed.

Lemma wp_run_cond (task : Task) (t : Tag) (m : Machine) :
  wp (run_cond task t) m (fun _ m' => added (eq (EvCond t)) m m')
     (fun _ m' => added (eq (EvCond t)) m m').
Proof.
  unfold wp, run_cond. destruct (cond task) as [c|].
  - unfold call. simpl. destruct (c (world m)); eapply added_log; reflexivity.
  - apply added_refl. reflexivity.
Qed.

Lemma wp_run_command (task : Task) (t : Tag) (worked : bool) (m : Machine) :
  wp (run_command task t worked) m (fun _ m' => added (eq (EvCommand t)) m m')
     (fun _ m' => added (fun e => e = EvCommand t \/ exists err, e = EvFailed t err) m m').
Proof.
  unfold wp, run_command. case_bool_decide; [|apply added_refl; reflexivity].
  simpl. destruct (cmd_Run _ _ _) as [[err|] w].
  - unfold fatal. simpl. exists [EvFailed t err; EvCommand t].
    split; [reflexivity|]. split.
    + apply NoDup_cons. split; [|apply NoDup_singleton].
      intros Hx%list_elem_of_singleton. discriminate.
    + intros e [->|Hx]%elem_of_cons; [eauto|].
      apply list_elem_of_singleton in Hx as ->. eauto.
  - eapply added_log; reflexivity.
Qed.

Lemma wp_run_function (task : Task) (t : Tag) (worked : bool) (m : Machine) :
  wp (run_function task t worked) m (fun _ m' => added (eq (EvFunction t)) m m')
     (fun _ m' => added (fun e => e = EvFunction t \/ exists err, e = EvFailed t err) m m').
Proof.
  unfold wp, run_function. destruct (function task) as [f|]; [|apply added_refl; reflexivity].
  unfold bind, call. simpl. destruct (f (world m)) as [[err|] w| |].
  - unfold fatal. simpl. exists [EvFailed t err; EvFunction t].
    split; [reflexivity|]. split.
    + apply NoDup_cons. split; [|apply NoDup_singleton].
      intros Hx%list_elem_of_singleton. discriminate.
    + intros e [->|Hx]%elem_of_cons; [eauto|].
      apply list_elem_of_singleton in Hx as ->. eauto.
  - eapply added_log; reflexivity.
  - eapply added_log; [left|]; reflexivity.
  - eapply added_log; [left|]; reflexivity.
Qed.

Lemma run_tasks_fresh (subtasks : list Task) :
  Forall (fun subtask => forall cache m, run_fresh cache m (run subtask cache)) subtasks ->
  forall worked cache m, run_fresh cache m (run_tasks run subtasks worked cache).
Proof.
  induction 1 as [|subtask rest Hsub _ IH]; intros worked cache m; simpl.
  - split; [reflexivity|]. apply added_refl. reflexivity.
  - apply wp_bind. eapply wp_mono; [apply Hsub| |auto].
    intros [b c1] m1 [Hc1 Hadd1]. simpl in *.
    eapply wp_mono; [apply IH| |].
    + intros [b2 c2] m2 [Hc2 Hadd2]. simpl in *. split; [set_solver|].
      eapply added_weaken; [eapply added_trans; [exact Hadd1|exact Hadd2|]|].
      * intros e [_ Hin] [Hnot _]. contradiction.
      * intros e [[Hn Hin]|[Hn Hin]]; set_solver.
    + intros code m2 Hadd2. simpl in *.
      eapply added_weaken; [eapply added_trans; [exact Hadd1|exact Hadd2|]|].
      * intros e [_ Hin] Hnot. contradiction.
      * intros e [[Hn Hin]|Hn]; set_solver.
Qed.

Ltac ev_solve :=
  intros; cbv beta in *;
  repeat match goal with
         | H : _ \/ _ |- _ => destruct H
         | H : _ /\ _ |- _ => destruct H
         | H : exists _, _ |- _ => destruct H
         end;
  subst; simpl in *;
  first [discriminate | congruence | set_solver | (intuition eauto; fail)].

Lemma run_is_fresh (task : Task) : forall cache m, run_fresh cache m (run task cache).
Proof.
  induction task as [task IH] using Task_tree_ind. intros cache m.
  unfold run_fresh. rewrite run_unfold.
  destruct (tag task) as [t|]; [|apply added_refl; reflexivity].
  case_bool_decide as Hdone.
  { split; [reflexivity|]. apply added_refl. reflexivity. }
  apply wp_bind. eapply wp_mono; [apply wp_run_cond| |].
  2: { intros code m1 Hadd. eapply added_weaken; [exact Hadd|ev_solve]. }
  intros go m1 Hcond. destruct go; simpl.
  2: { split; [set_solver|]. eapply added_weaken; [exact Hcond|ev_solve]. }
  apply wp_bind.
  assert (added (fun e => e = EvCond t \/ e = EvTasks t) m (log (EvTasks t) m1)) as Hpre.
  { eapply added_weaken; [eapply added_trans; [exact Hcond| |]|].
    - eapply (added_log (eq (EvTasks t))); reflexivity.
    - ev_solve.
    - ev_solve. }
  pose proof (run_tasks_fresh (tasks task) IH false ({[t]} ∪ cache) (log (EvTasks t) m1))
    as Hsub.
  unfold run_fresh, wp in Hsub |- *.
  destruct (run_tasks run (tasks task) false ({[t]} ∪ cache) (log (EvTasks t) m1))
    as [[w0 c2] m2| |]; simpl in *.
  2,3: eapply added_weaken; [eapply added_trans; [exact Hpre|exact Hsub|]|]; ev_solve.
  destruct Hsub as [Hc2 Hsub].
  assert (added (fun e => (e = EvCond t \/ e = EvTasks t) \/
                          ((event_tag e ≠ t) /\ (event_tag e ∉ cache) /\ (event_tag e ∈ c2)))
            m m2) as Hmid.
  { eapply added_weaken; [eapply added_trans; [exact Hpre|exact Hsub|]|]; ev_solve. }
  fold (wp (do worked <- run_command task t w0;
            do worked0 <- run_function task t worked; Ret (worked0, c2)) m2
          (fun r m' => cache ⊆ r.2 /\
             added (fun e => (event_tag e ∉ cache) /\ (event_tag e ∈ r.2)) m m')
          (fun _ m' => added (fun e => event_tag e ∉ cache) m m')).
  apply wp_bind. eapply wp_mono; [apply wp_run_command| |].
  2: { intros code m3 Hcmd.
       eapply added_weaken; [eapply added_trans; [exact Hmid|exact Hcmd|]|]; ev_solve. }
  intros w1 m3 Hcmd.
  assert (added (fun e => (e = EvCond t \/ e = EvTasks t \/ e = EvCommand t) \/
                          ((event_tag e ≠ t) /\ (event_tag e ∉ cache) /\ (event_tag e ∈ c2)))
            m m3) as Hmid3.
  { eapply added_weaken; [eapply added_trans; [exact Hmid|exact Hcmd|]|]; ev_solve. }
  apply wp_bind. eapply wp_mono; [apply wp_run_function| |].
  2: { intros code m4 Hfun.
       eapply added_weaken; [eapply added_trans; [exact Hmid3|exact Hfun|]|]; ev_solve. }
  intros w2 m4 Hfun. unfold wp. simpl. split; [set_solver|].
  eapply added_weaken; [eapply added_trans; [exact Hmid3|exact Hfun|]|]; ev_solve.
Qed.

Lemma Main_targets_fresh (targets : list Task) (cache : gset Tag) (m : Machine) :
  wp (Main_targets targets cache) m
     (fun c' m' => cache ⊆ c' /\
        added (fun e => (event_tag e ∉ cache) /\ (event_tag e ∈ c')) m m')
     (fun _ m' => added (fun e => event_tag e ∉ cache) m m').
Proof.
  revert cache m. induction targets as [|task rest IH]; intros cache m; simpl.
  - split; [reflexivity|]. apply added_refl. reflexivity.
  - apply wp_bind. eapply wp_mono; [apply run_is_fresh| |auto].
    intros [b c1] m1 [Hc1 Hadd1]. unfold wp. cbn [fst snd] in *.
    set (m1' := if negb b
                then on_world (Println ["Nothing to be done for"; name task]) m1 else m1).
    assert (added (fun e => (event_tag e ∉ cache) /\ (event_tag e ∈ c1)) m m1') as Hadd1'.
    { destruct Hadd1 as (new & H & Hnew). exists new. split; [|exact Hnew].
      unfold adds in *. rewrite <- H. unfold m1'. destruct b; reflexivity. }
    pose proof (IH c1 m1') as Hrest. unfold wp in Hrest.
    destruct (Main_targets rest c1 m1') as [c2 m2| |].
    + destruct Hrest as [Hc2 Hadd2]. split; [set_solver|].
      eapply added_weaken; [eapply added_trans; [exact Hadd1'|exact Hadd2|]|]; ev_solve.
    + eapply added_weaken; [eapply added_trans; [exact Hadd1'|exact Hrest|]|]; ev_solve.
    + eapply added_weaken; [eapply added_trans; [exact Hadd1'|exact Hrest|]|]; ev_solve.
Qed.

Lemma new_events_adds {A} (m : Machine) (out : Outcome Machine A) (new : list Event) :
  adds m (final out) new -> new_events m out = new.
Proof.
  unfold adds, new_events. intros ->. rewrite length_app.
  replace (length new + length (trace m) - length (trace m))%nat with (length new) by lia.
  apply take_app_length.
Qed.

Lemma added_new_events {A} (P : Event -> Prop) (m : Machine) (out : Outcome Machine A) :
  added P m (final out) ->
  trace (final out) = new_events m out ++ trace m /\
  NoDup (new_events m out) /\ forall e, e ∈ new_events m out -> P e.
Proof.
  intros (new & Hadds & Hnd & HP). rewrite (new_events_adds _ _ _ Hadds). auto.
Qed.

Lemma run_fresh_final (task : Task) (cache : gset Tag) (m : Machine) :
  added (fun e => event_tag e ∉ cache) m (final (run task cache m)).
Proof.
  pose proof (run_is_fresh task cache m) as H. unfold run_fresh, wp in H.
  destruct (run task cache m) as [r m'| |]; simpl; [|exact H|exact H].
  destruct H as [_ H]. eapply added_weaken; [exact H|]. intros e [He _]. exact He.
Qed.

Lemma run_cached (task : Task) (cache : gset Tag) (m : Machine) (t : Tag) :
  tag task = Some t -> t ∈ cache -> run task cache m = Ret (false, cache) m.
Proof.
  intros Ht Hin. rewrite run_unfold, Ht. rewrite bool_decide_eq_true_2 by exact Hin.
  reflexivity.
Qed.

(** C1: in one call of [run], and in the whole loop of [Main] over the
    selected targets with its one cache, no event is recorded twice: the
    condition, the subtasks, the command and the function of an identity are
    each evaluated at most once, and only for identities that were not in
    the cache; on an identity that is in the cache [run] returns false at
    once, leaving the cache and the state as they are. *)
Theorem run_at_most_once :
  (forall task cache m,
     trace (final (run task cache m)) = new_events m (run task cache m) ++ trace m /\
     NoDup (new_events m (run task cache m)) /\
     forall e, e ∈ new_events m (run task cache m) -> event_tag e ∉ cache) /\
  (forall targets m,
     trace (final (Main_run targets m)) = new_events m (Main_run targets m) ++ trace m /\
     NoDup (new_events m (Main_run targets m))) /\
  (forall task cache m t,
     tag task = Some t -> t ∈ cache -> run task cache m = Ret (false, cache) m).
Proof.
  split; [|split].
  - intros task cache m. apply added_new_events. apply run_fresh_final.
  - intros targets m.
    assert (added (fun e => event_tag e ∉ (∅ : gset Tag)) m (final (Main_run targets m)))
      as H.
    { pose proof (Main_targets_fresh targets ∅ m) as H. unfold wp in H.
      unfold Main_run, bind. destruct (Main_targets targets ∅ m) as [c' m'| |]; simpl.
      - destruct H as [_ H]. eapply added_weaken; [exact H|]. intros e [He _]. exact He.
      - exact H.
      - exact H. }
    apply added_new_events in H as (H1 & H2 & _). auto.
  - apply run_cached.
Qed.

(** C2: a task whose condition returns false is marked in the cache and
    [run] returns false, having called nothing but the condition: no
    subtask, no command, no function.  From a cache with that mark, [run] of
    a task with the same identity returns false at once, and [run] of any
    other task records nothing for that identity. *)
Theorem run_cond_false (task : Task) (cache : gset Tag) (m : Machine) (t : Tag)
    (c : closure bool) (w' : World) :
  tag task = Some t -> t ∉ cache -> cond task = Some c -> c (world m) = Ret false w' ->
  run task cache m =
    Ret (false, {[t]} ∪ cache) {| world := w'; trace := EvCond t :: trace m |} /\
  forall later cache2 m2,
    {[t]} ∪ cache ⊆ cache2 ->
    (tag later = Some t -> run later cache2 m2 = Ret (false, cache2) m2) /\
    (forall e, e ∈ new_events m2 (run later cache2 m2) -> event_tag e <> t).
Proof.
  intros Ht Hnew Hc Hfalse. split.
  - rewrite run_unfold, Ht. rewrite bool_decide_eq_false_2 by exact Hnew.
    unfold bind, run_cond, call. rewrite Hc. simpl. rewrite Hfalse. reflexivity.
  - intros later cache2 m2 Hsub. split.
    + intros Hlater. apply (run_cached later cache2 m2 t Hlater). set_solver.
    + intros e He Heq.
      destruct (added_new_events _ _ _ (run_fresh_final later cache2 m2)) as (_ & _ & H).
      apply (H e He). rewrite Heq. set_solver.
Qed.

Lemma run_tasks_worked (subtasks : list Task) (worked : bool) (cache : gset Tag)
    (m : Machine) (r : bool * gset Tag) (m' : Machine) :
  run_tasks run subtasks worked cache m = Ret r m' ->
  (r.1 = true <-> worked = true \/ true ∈ subtask_results subtasks cache m).
Proof.
  revert worked cache m. induction subtasks as [|subtask rest IH]; intros worked cache m; simpl.
  - intros [= <- <-]. simpl. split; [auto|]. intros [H|H]; [exact H|inversion H].
  - unfold bind. destruct (run subtask cache m) as [[b c1] m1| |]; try discriminate.
    simpl. intros H. rewrite (IH _ _ _ H). rewrite elem_of_cons.
    destruct b, worked; intuition congruence.
Qed.

Lemma run_command_Ret (task : Task) (t : Tag) (worked b : bool) (m m' : Machine) :
  run_command task t worked m = Ret b m' ->
  (command task <> [] /\ b = true /\ trace m' = EvCommand t :: trace m) \/
  (command task = [] /\ b = worked /\ m' = m).
Proof.
  unfold run_command. case_bool_decide as Hlen.
  - simpl. destruct (cmd_Run _ _ _) as [[err|] w]; [discriminate|].
    intros [= <- <-]. left. split; [|auto]. intros Hnil. rewrite Hnil in Hlen. simpl in Hlen. lia.
  - intros [= <- <-]. right. split; [|auto].
    destruct (command task); [reflexivity|]. simpl in Hlen. lia.
Qed.

Lemma run_function_Ret (task : Task) (t : Tag) (worked b : bool) (m m' : Machine) :
  run_function task t worked m = Ret b m' ->
  (function task <> None /\ b = true /\ trace m' = EvFunction t :: trace m) \/
  (function task = None /\ b = worked /\ m' = m).
Proof.
  unfold run_function. destruct (function task) as [f|].
  - unfold bind, call. simpl. destruct (f (world m)) as [[err|] w| |]; try discriminate.
    intros [= <- <-]. left. auto.
  - intros [= <- <-]. right. auto.
Qed.

Lemma Main_targets_app (pre post : list Task) (cache : gset Tag) (m : Machine) :
  Main_targets (pre ++ post) cache m =
    (do c1 <- Main_targets pre cache; Main_targets post c1) m.
Proof.
  revert cache m. induction pre as [|task pre IH]; intros cache m; simpl; [reflexivity|].
  unfold bind. destruct (run task cache m) as [[b c1] m1| |]; [|reflexivity|reflexivity].
  simpl. rewrite IH. reflexivity.
Qed.

(** C4: [run] returns true exactly when the [run] of one of its subtasks
    returned true, or its command was run, or its function was called; when
    [run] of a selected target returns false, [Main] prints "Nothing to be
    done for" and the name and goes on with the targets that follow; and
    when the loop over the targets comes to its end the process exits with
    code 0. *)
Theorem run_worked :
  (forall task cache m b cache' m',
     run task cache m = Ret (b, cache') m' ->
     (b = true <->
        child_worked task cache m \/ command_ran task cache m \/ function_ran task cache m)) /\
  (forall pre task post m c1 m1 c2 m2,
     Main_targets pre ∅ m = Ret c1 m1 -> run task c1 m1 = Ret (false, c2) m2 ->
     let m2' := on_world (Println ["Nothing to be done for"; name task]) m2 in
     stdout (world m2') = stdout (world m2) ++ ["Nothing to be done for " +:+ name task] /\
     Main_run (pre ++ task :: post) m = (do _ <- Main_targets post c2; Exit 0) m2') /\
  (forall targets m c m',
     Main_targets targets ∅ m = Ret c m' -> Main_run targets m = Exit 0 m').
Proof.
  split; [|split].
  - intros task cache m b cache' m' Hrun.
    unfold child_worked, command_ran, function_ran. rewrite Hrun.
    rewrite run_unfold in Hrun. destruct (tag task) as [t|] eqn:Ht; [|discriminate].
    case_bool_decide as Hdone.
    { injection Hrun as <- <- <-.
      rewrite (new_events_adds m (Ret (false, cache) m) []) by reflexivity.
      split; [discriminate|].
      intros [(t' & m1 & [= <-] & Hn & _)|[(t' & _ & H)|(t' & _ & H)]];
        [contradiction|inversion H|inversion H]. }
    unfold bind in Hrun.
    pose proof (wp_run_cond task t m) as Hcond. unfold wp in Hcond.
    destruct (run_cond task t m) as [go m1| |] eqn:Eg; try discriminate.
    destruct Hcond as (G & HG & _ & HGall).
    destruct go; simpl in Hrun.
    2: { injection Hrun as <- <- <-.
         rewrite (new_events_adds m (Ret (false, {[t]} ∪ cache) m1) G) by exact HG.
         split; [discriminate|].
         intros [(t' & m1' & [= <-] & _ & Hg & _)|[(t' & [= <-] & H)|(t' & [= <-] & H)]].
         - rewrite Eg in Hg. discriminate.
         - apply HGall in H. discriminate.
         - apply HGall in H. discriminate. }
    pose proof (run_tasks_fresh (tasks task) (Forall_true _ _ run_is_fresh) false
                  ({[t]} ∪ cache) (log (EvTasks t) m1)) as Hsub.
    unfold run_fresh, wp in Hsub.
    destruct (run_tasks run (tasks task) false ({[t]} ∪ cache) (log (EvTasks t) m1))
      as [[w0 c2] m2| |] eqn:Et; try discriminate.
    destruct Hsub as (_ & N & HN & _ & HNall). simpl in Hrun, HNall.
    apply run_tasks_worked in Et as Hw0. simpl in Hw0.
    destruct (run_command task t w0 m2) as [w1 m3| |] eqn:Ec; try discriminate.
    destruct (run_function task t w1 m3) as [w2 m4| |] eqn:Ef; try discriminate.
    injection Hrun as <- <- <-.
    apply run_command_Ret in Ec. apply run_function_Ret in Ef.
    assert (exists C F, adds m (final (Ret (w2, c2) m4 : Outcome Machine (bool * gset Tag)))
                         (F ++ C ++ N ++ [EvTasks t] ++ G) /\
              (C = [EvCommand t] /\ w1 = true \/ C = [] /\ w1 = w0) /\
              (F = [EvFunction t] /\ w2 = true \/ F = [] /\ w2 = w1))
      as (C & F & Hadds & HC & HF).
    { unfold adds in *. simpl in *.
      destruct Ec as [(_ & -> & Hc)|(_ & -> & ->)], Ef as [(_ & -> & Hf)|(_ & -> & ->)].
      - exists [EvCommand t], [EvFunction t]. rewrite Hf, Hc, HN, HG.
        rewrite <- !app_assoc. simpl. auto.
      - exists [EvCommand t], []. rewrite Hc, HN, HG. rewrite <- !app_assoc. simpl. auto.
      - exists [], [EvFunction t]. rewrite Hf, HN, HG. rewrite <- !app_assoc. simpl. auto.
      - exists [], []. rewrite HN, HG. rewrite <- !app_assoc. simpl. auto. }
    rewrite (new_events_adds _ _ _ Hadds).
    assert (forall e, event_tag e = t -> e ∉ N) as HnotN.
    { intros e He Hin. apply (HNall e) in Hin as [Hin _]. rewrite He in Hin.
      apply Hin, elem_of_union. left. apply elem_of_singleton. reflexivity. }
    assert (EvCommand t ∈ F ++ C ++ N ++ [EvTasks t] ++ G <-> C = [EvCommand t]) as Hcmd.
    { rewrite !elem_of_app. split.
      - intros [H|[H|[H|[H|H]]]].
        + destruct HF as [[-> _]|[-> _]]; inversion H; subst.
          match goal with H' : _ ∈ [] |- _ => inversion H' end.
        + destruct HC as [[-> _]|[-> _]]; [reflexivity|inversion H].
        + exfalso. apply (HnotN (EvCommand t) eq_refl H).
        + apply list_elem_of_singleton in H. discriminate.
        + apply HGall in H. discriminate.
      - intros ->. right. left. left. }
    assert (EvFunction t ∈ F ++ C ++ N ++ [EvTasks t] ++ G <-> F = [EvFunction t]) as Hfun.
    { rewrite !elem_of_app. split.
      - intros [H|[H|[H|[H|H]]]].
        + destruct HF as [[-> _]|[-> _]]; [reflexivity|inversion H].
        + destruct HC as [[-> _]|[-> _]]; inversion H; subst.
          match goal with H' : _ ∈ [] |- _ => inversion H' end.
        + exfalso. apply (HnotN (EvFunction t) eq_refl H).
        + apply list_elem_of_singleton in H. discriminate.
        + apply HGall in H. discriminate.
      - intros ->. left. left. }
    split.
    + intros ->.
      destruct HF as [[-> _]|[-> <-]].
      { right. right. exists t. split; [reflexivity|]. apply Hfun. reflexivity. }
      destruct HC as [[-> _]|[-> Hw]].
      { right. left. exists t. split; [reflexivity|]. apply Hcmd. reflexivity. }
      left. exists t, m1. repeat split; try assumption.
      symmetry in Hw. apply Hw0 in Hw as [Hw|Hw]; [discriminate|exact Hw].
    + intros [(t' & m1' & [= <-] & _ & Hg & Hres)|[(t' & [= <-] & H)|(t' & [= <-] & H)]].
      * rewrite Eg in Hg. injection Hg as <-.
        assert (w0 = true) as -> by (apply Hw0; right; exact Hres).
        destruct HC as [[_ ->]|[_ ->]]; destruct HF as [[_ ->]|[_ ->]]; reflexivity.
      * apply Hcmd in H as ->.
        destruct HC as [[_ ->]|[[=] _]]. destruct HF as [[_ ->]|[_ ->]]; reflexivity.
      * apply Hfun in H as ->. destruct HF as [[_ ->]|[[=] _]]. reflexivity.
  - intros pre task post m c1 m1 c2 m2 Hpre Hrun m2'. split.
    + reflexivity.
    + unfold Main_run, bind. rewrite Main_targets_app. unfold bind. rewrite Hpre.
      simpl. unfold bind. rewrite Hrun. reflexivity.
  - intros targets m c m' H. unfold Main_run, bind. rewrite H. reflexivity.
Qed.

Lemma quiet_refl (m m' : Machine) : trace m' = trace m -> quiet m m'.
Proof. intros H. exists []. split; [exact H|]. intros t err Hin. inversion Hin. Qed.

Lemma quiet_log (e : Event) (m m' : Machine) :
  (forall t err, e <> EvFailed t err) -> trace m' = e :: trace m -> quiet m m'.
Proof.
  intros He H. exists [e]. split; [exact H|].
  intros t err Hin%list_elem_of_singleton. exact (He t err (eq_sym Hin)).
Qed.

Lemma quiet_trans (m m1 m2 : Machine) : quiet m m1 -> quiet m1 m2 -> quiet m m2.
Proof.
  intros (n1 & H1 & Hq1) (n2 & H2 & Hq2). exists (n2 ++ n1). split.
  - unfold adds in *. rewrite H2, H1, app_assoc. reflexivity.
  - intros t err [Hin|Hin]%elem_of_app; [exact (Hq2 t err Hin)|exact (Hq1 t err Hin)].
Qed.

Lemma quiet_failed (m m1 m2 : Machine) (code : option Z) :
  quiet m m1 -> failed m1 code m2 -> failed m code m2.
Proof.
  intros (n1 & H1 & Hq1) (t & err & rest & pre & H2 & Hq2 & Hcode & Herr).
  exists t, err, (rest ++ n1), pre. split; [|split; [|auto]].
  - unfold adds in *. rewrite H2, H1. simpl. rewrite app_assoc. reflexivity.
  - intros t' err' [Hin|Hin]%elem_of_app; [exact (Hq2 _ _ Hin)|exact (Hq1 _ _ Hin)].
Qed.

Lemma run_command_fails (task : Task) (t : Tag) (worked : bool) (m : Machine)
    (err : string) (w2 : World) :
  command task <> [] ->
  cmd_Run (command task)
    (environ task (Println ["Running"; commandline task] (world m)))
    (Println ["Running"; commandline task] (world m)) = (Some err, w2) ->
  run_command task t worked m =
    Exit 1 {| world := Eprintln [err] w2; trace := EvFailed t err :: EvCommand t :: trace m |}.
Proof.
  intros Hcmd Hrun. unfold run_command.
  rewrite bool_decide_eq_true_2 by (destruct (command task); [contradiction|simpl; lia]).
  simpl. rewrite Hrun. reflexivity.
Qed.

Lemma run_function_fails (task : Task) (t : Tag) (worked : bool) (m : Machine)
    (f : closure (option string)) (err : string) (w2 : World) :
  function task = Some f -> f (world m) = Ret (Some err) w2 ->
  run_function task t worked m =
    Exit 1 {| world := Eprintln [err] w2; trace := EvFailed t err :: EvFunction t :: trace m |}.
Proof.
  intros Hf Hrun. unfold run_function. rewrite Hf. unfold bind, call. simpl.
  rewrite Hrun. reflexivity.
Qed.

Lemma wp_run_cond_quiet (task : Task) (t : Tag) (m : Machine) :
  wp (run_cond task t) m (fun _ m' => quiet m m') (fun _ m' => quiet m m').
Proof.
  unfold wp, run_cond. destruct (cond task) as [c|]; [|apply quiet_refl; reflexivity].
  unfold call. simpl.
  destruct (c (world m)); eapply (quiet_log (EvCond t)); try reflexivity; discriminate.
Qed.

Lemma wp_run_command_failed (task : Task) (t : Tag) (worked : bool) (m : Machine) :
  wp (run_command task t worked) m (fun _ m' => quiet m m') (fun code m' => failed m code m').
Proof.
  unfold wp, run_command. case_bool_decide; [|apply quiet_refl; reflexivity].
  simpl. destruct (cmd_Run _ _ _) as [[err|] w].
  - unfold fatal. simpl. exists t, err, [EvCommand t], (stderr w).
    split; [reflexivity|]. split; [|auto].
    intros t' err' Hin%list_elem_of_singleton. discriminate.
  - eapply (quiet_log (EvCommand t)); [discriminate|reflexivity].
Qed.

Lemma wp_run_function_failed (task : Task) (t : Tag) (worked : bool) (m : Machine) :
  wp (run_function task t worked) m (fun _ m' => quiet m m')
     (fun code m' => quiet m m' \/ failed m code m').
Proof.
  unfold wp, run_function. destruct (function task) as [f|]; [|apply quiet_refl; reflexivity].
  unfold bind, call. simpl. destruct (f (world m)) as [[err|] w| |].
  - right. unfold fatal. simpl. exists t, err, [EvFunction t], (stderr w).
    split; [reflexivity|]. split; [|auto].
    intros t' err' Hin%list_elem_of_singleton. discriminate.
  - eapply (quiet_log (EvFunction t)); [discriminate|reflexivity].
  - left. eapply (quiet_log (EvFunction t)); [discriminate|reflexivity].
  - left. eapply (quiet_log (EvFunction t)); [discriminate|reflexivity].
Qed.

Lemma fails_last_bind {A B} (m : Machine) (c : Machine -> Outcome Machine A)
    (k : A -> Machine -> Outcome Machine B) :
  fails_last m c -> (forall a m1, fails_last m1 (k a)) -> fails_last m (do x <- c; k x).
Proof.
  intros Hc Hk. unfold fails_last in *. apply wp_bind.
  eapply wp_mono; [exact Hc| |auto].
  intros a m1 Hq. eapply wp_mono; [apply Hk| |].
  - intros b m2 Hq2. exact (quiet_trans _ _ _ Hq Hq2).
  - intros code m2 [Hq2|Hf];
      [left; exact (quiet_trans _ _ _ Hq Hq2)|right; exact (quiet_failed _ _ _ _ Hq Hf)].
Qed.

Lemma run_tasks_fails_last (subtasks : list Task) :
  Forall (fun subtask => forall cache m, fails_last m (run subtask cache)) subtasks ->
  forall worked cache m, fails_last m (run_tasks run subtasks worked cache).
Proof.
  induction 1 as [|subtask rest Hsub _ IH]; intros worked cache m; simpl.
  - apply quiet_refl. reflexivity.
  - apply fails_last_bind; [apply Hsub|]. intros r m1. apply IH.
Qed.

Lemma run_fails_last (task : Task) : forall cache m, fails_last m (run task cache).
Proof.
  induction task as [task IH] using Task_tree_ind. intros cache m.
  rewrite run_unfold. destruct (tag task) as [t|]; [|left; apply quiet_refl; reflexivity].
  case_bool_decide; [apply quiet_refl; reflexivity|].
  apply fails_last_bind.
  { eapply wp_mono; [apply wp_run_cond_quiet|auto|auto]. }
  intros go m1. destruct go; simpl; [|apply quiet_refl; reflexivity].
  apply fails_last_bind.
  { pose proof (run_tasks_fails_last (tasks task) IH false ({[t]} ∪ cache)
                  (log (EvTasks t) m1)) as Hsub.
    unfold fails_last, wp in *.
    assert (quiet m1 (log (EvTasks t) m1)) as Hlog
      by (eapply (quiet_log (EvTasks t)); [discriminate|reflexivity]).
    destruct (run_tasks run (tasks task) false ({[t]} ∪ cache) (log (EvTasks t) m1)).
    - exact (quiet_trans _ _ _ Hlog Hsub).
    - destruct Hsub as [Hs|Hs];
        [left; exact (quiet_trans _ _ _ Hlog Hs)|right; exact (quiet_failed _ _ _ _ Hlog Hs)].
    - destruct Hsub as [Hs|Hs];
        [left; exact (quiet_trans _ _ _ Hlog Hs)|right; exact (quiet_failed _ _ _ _ Hlog Hs)]. }
  intros r m2. apply fails_last_bind.
  { eapply wp_mono; [apply wp_run_command_failed|auto|auto]. }
  intros w1 m3. apply fails_last_bind; [apply wp_run_function_failed|].
  intros w2 m4. apply quiet_refl. reflexivity.
Qed.

Lemma Main_targets_fails_last (targets : list Task) :
  forall cache m, fails_last m (Main_targets targets cache).
Proof.
  induction targets as [|task rest IH]; intros cache m; simpl.
  - apply quiet_refl. reflexivity.
  - apply fails_last_bind; [apply run_fails_last|]. intros r m1.
    pose proof (IH r.2 (if negb r.1
                        then on_world (Println ["Nothing to be done for"; name task]) m1
                        else m1)) as Hrest.
    unfold fails_last, wp in *.
    assert (forall m2, quiet (if negb r.1
                              then on_world (Println ["Nothing to be done for"; name task]) m1
                              else m1) m2 -> quiet m1 m2) as Hq.
    { intros m2 (new & Hadds & Hnew). exists new. split; [|exact Hnew].
      unfold adds in *. rewrite Hadds. destruct (negb r.1); reflexivity. }
    assert (forall code m2,
              failed (if negb r.1
                      then on_world (Println ["Nothing to be done for"; name task]) m1
                      else m1) code m2 -> failed m1 code m2) as Hf.
    { intros code m2 (t & err & rest' & pre & Hadds & Hrest').
      exists t, err, rest', pre. split; [|exact Hrest'].
      unfold adds in *. rewrite Hadds. destruct (negb r.1); reflexivity. }
    destruct (Main_targets rest r.2 _); [auto| |]; destruct Hrest; auto.
Qed.

Lemma failure_ends {A} (m : Machine) (c : Machine -> Outcome Machine A) (t : Tag)
    (err : string) :
  fails_last m c -> EvFailed t err ∈ new_events m (c m) ->
  exists m' rest pre,
    c m = Exit 1 m' /\ new_events m (c m) = EvFailed t err :: rest /\
    no_failure rest /\ stderr (world m') = pre ++ [err].
Proof.
  unfold fails_last, wp. intros H Hin.
  assert (forall m', final (c m) = m' -> quiet m m' -> False) as Hquiet.
  { intros m' Hm' (new & Hadds & Hnew). rewrite <- Hm' in Hadds.
    rewrite (new_events_adds _ _ _ Hadds) in Hin. exact (Hnew _ _ Hin). }
  assert (forall code m', final (c m) = m' -> failed m code m' ->
            code = Some 1 /\ exists rest pre,
              new_events m (c m) = EvFailed t err :: rest /\ no_failure rest /\
              stderr (world m') = pre ++ [err]) as Hfailed.
  { intros code m' Hm' (t' & err' & rest & pre & Hadds & Hrest & Hcode & Herr).
    rewrite <- Hm' in Hadds. rewrite (new_events_adds _ _ _ Hadds) in Hin |- *.
    apply elem_of_cons in Hin as [[= <- <-]|Hin]; [|destruct (Hrest _ _ Hin)].
    split; [exact Hcode|]. exists rest, pre. auto. }
  destruct (c m) as [a m'|code m'|v m'] eqn:E; simpl in *.
  - destruct (Hquiet m' eq_refl H).
  - destruct H as [H|H]; [destruct (Hquiet m' eq_refl H)|].
    destruct (Hfailed _ m' eq_refl H) as ([= ->] & rest & pre & H1 & H2 & H3).
    exists m', rest, pre. auto.
  - destruct H as [H|H]; [destruct (Hquiet m' eq_refl H)|].
    destruct (Hfailed _ m' eq_refl H) as ([=] & _).
Qed.

(** C5: a command that returns an error and a function that returns an error
    both end the process with exit code 1, the error written to the error
    stream, at the place where they fail; a failure among the events of a
    call of [run], or of the whole loop of [Main], is the last event of the
    process, which exits with code 1 and never returns to the caller; a
    call of [run] that ends the process ends the loops around it, before
    the subtasks and the targets that follow; and when the subtasks, the
    command or the function of a task end the process, so does [run] of
    that task, in the same state. *)
Theorem failure_is_fatal :
  (forall task t worked m err w2,
     command task <> [] ->
     cmd_Run (command task)
       (environ task (Println ["Running"; commandline task] (world m)))
       (Println ["Running"; commandline task] (world m)) = (Some err, w2) ->
     run_command task t worked m =
       Exit 1 {| world := Eprintln [err] w2;
                 trace := EvFailed t err :: EvCommand t :: trace m |}) /\
  (forall task t worked m f err w2,
     function task = Some f -> f (world m) = Ret (Some err) w2 ->
     run_function task t worked m =
       Exit 1 {| world := Eprintln [err] w2;
                 trace := EvFailed t err :: EvFunction t :: trace m |}) /\
  (forall task cache m t err,
     EvFailed t err ∈ new_events m (run task cache m) ->
     exists m' rest pre,
       run task cache m = Exit 1 m' /\
       new_events m (run task cache m) = EvFailed t err :: rest /\
       no_failure rest /\ stderr (world m') = pre ++ [err]) /\
  (forall targets m t err,
     EvFailed t err ∈ new_events m (Main_run targets m) ->
     exists m' rest pre,
       Main_run targets m = Exit 1 m' /\
       new_events m (Main_run targets m) = EvFailed t err :: rest /\
       no_failure rest /\ stderr (world m') = pre ++ [err]) /\
  (forall subtask rest worked cache m code m',
     run subtask cache m = Exit code m' ->
     run_tasks run (subtask :: rest) worked cache m = Exit code m' /\
     Main_targets (subtask :: rest) cache m = Exit code m' /\
     (cache = ∅ -> Main_run (subtask :: rest) m = Exit code m')) /\
  (forall task cache m t m1 code m',
     tag task = Some t -> t ∉ cache -> run_cond task t m = Ret true m1 ->
     (run_tasks run (tasks task) false ({[t]} ∪ cache) (log (EvTasks t) m1) = Exit code m' ->
      run task cache m = Exit code m') /\
     (forall r m2,
        run_tasks run (tasks task) false ({[t]} ∪ cache) (log (EvTasks t) m1) = Ret r m2 ->
        (run_command task t r.1 m2 = Exit code m' -> run task cache m = Exit code m') /\
        (forall worked m3,
           run_command task t r.1 m2 = Ret worked m3 ->
           run_function task t worked m3 = Exit code m' ->
           run task cache m = Exit code m'))).
Proof.
  split; [exact run_command_fails|]. split; [exact run_function_fails|].
  split; [|split; [|split]].
  - intros task cache m t err. apply failure_ends. apply run_fails_last.
  - intros targets m t err. apply failure_ends. unfold Main_run.
    apply fails_last_bind; [apply Main_targets_fails_last|].
    intros c m1. left. apply quiet_refl. reflexivity.
  - intros subtask rest worked cache m code m' Hrun.
    assert (Main_targets (subtask :: rest) cache m = Exit code m') as HM
      by (simpl; unfold bind; rewrite Hrun; reflexivity).
    split; [|split].
    + simpl. unfold bind. rewrite Hrun. reflexivity.
    + exact HM.
    + intros ->. unfold Main_run, bind. rewrite HM. reflexivity.
  - intros task cache m t m1 code m' Ht Hnew Hgo.
    rewrite run_unfold, Ht. rewrite bool_decide_eq_false_2 by exact Hnew.
    unfold bind. rewrite Hgo. simpl. split.
    + intros ->. reflexivity.
    + intros r m2 ->. split.
      * intros ->. reflexivity.
      * intros worked m3 -> ->. reflexivity.
Qed.

(** ** [All] and [Any] *)

Lemma All_loop_true (conds : list (closure bool)) (w w' : World) :
  All_loop conds w = Ret true w' <-> all_return true conds w w'.
Proof.
  revert w. induction conds as [|c cs IH]; intros w; simpl.
  - split; [intros [= <-]; constructor|inversion 1; reflexivity].
  - unfold bind. split.
    + destruct (c w) as [[] w1| |] eqn:E; try discriminate.
      intros H. econstructor; [exact E|]. apply IH. exact H.
    + inversion 1 as [|? ? ? w1 ? Hc Hrest]; subst. rewrite Hc. apply IH. exact Hrest.
Qed.

Lemma All_loop_false (conds : list (closure bool)) (w w' : World) :
  All_loop conds w = Ret false w' <->
  exists pre c post w1,
    conds = pre ++ c :: post /\ all_return true pre w w1 /\ c w1 = Ret false w'.
Proof.
  revert w. induction conds as [|c cs IH]; intros w; simpl.
  - split; [discriminate|]. intros (pre & c & post & w1 & H & _). destruct pre; discriminate.
  - unfold bind. split.
    + destruct (c w) as [[] w1| |] eqn:E; try discriminate.
      * intros H. apply IH in H as (pre & c' & post & w2 & -> & Hpre & Hc).
        exists (c :: pre), c', post, w2. split; [reflexivity|]. split; [|exact Hc].
        econstructor; eauto.
      * intros [= <-]. exists [], c, cs, w. split; [reflexivity|]. split; [constructor|exact E].
    + intros (pre & c' & post & w1 & Heq & Hpre & Hc). destruct pre as [|p pre].
      * injection Heq as <- <-. inversion Hpre; subst. rewrite Hc. reflexivity.
      * injection Heq as <- ->. inversion Hpre as [|? ? ? w2 ? Hp Hrest]; subst.
        rewrite Hp. apply IH. exists pre, c', post, w1. auto.
Qed.

Lemma All_is_loop (conds : list (closure bool)) (w : World) : All conds w = All_loop conds w.
Proof.
  destruct conds as [|c [|c' cs]]; try reflexivity.
  simpl. unfold bind. destruct (c w) as [[] w1| |]; reflexivity.
Qed.

(** X1: [All] returns true exactly when every condition, called in order,
    returns true; it returns false exactly when a condition returns false
    after those before it returned true, whatever comes behind it: the
    conditions behind the first false one are not called. *)
Theorem All_short_circuit (conds : list (closure bool)) (w w' : World) :
  (All conds w = Ret true w' <-> all_return true conds w w') /\
  (All conds w = Ret false w' <->
     exists pre c post w1,
       conds = pre ++ c :: post /\ all_return true pre w w1 /\ c w1 = Ret false w').
Proof.
  rewrite All_is_loop. split; [apply All_loop_true|apply All_loop_false].
Qed.

Lemma Any_loop_false (conds : list (closure bool)) (w w' : World) :
  Any_loop conds w = Ret false w' <-> all_return false conds w w'.
Proof.
  revert w. induction conds as [|c cs IH]; intros w; simpl.
  - split; [intros [= <-]; constructor|inversion 1; reflexivity].
  - unfold bind. split.
    + destruct (c w) as [[] w1| |] eqn:E; try discriminate.
      intros H. econstructor; [exact E|]. apply IH. exact H.
    + inversion 1 as [|? ? ? w1 ? Hc Hrest]; subst. rewrite Hc. apply IH. exact Hrest.
Qed.

Lemma Any_loop_true (conds : list (closure bool)) (w w' : World) :
  Any_loop conds w = Ret true w' <->
  exists pre c post w1,
    conds = pre ++ c :: post /\ all_return false pre w w1 /\ c w1 = Ret true w'.
Proof.
  revert w. induction conds as [|c cs IH]; intros w; simpl.
  - split; [discriminate|]. intros (pre & c & post & w1 & H & _). destruct pre; discriminate.
  - unfold bind. split.
    + destruct (c w) as [[] w1| |] eqn:E; try discriminate.
      * intros [= <-]. exists [], c, cs, w. split; [reflexivity|]. split; [constructor|exact E].
      * intros H. apply IH in H as (pre & c' & post & w2 & -> & Hpre & Hc).
        exists (c :: pre), c', post, w2. split; [reflexivity|]. split; [|exact Hc].
        econstructor; eauto.
    + intros (pre & c' & post & w1 & Heq & Hpre & Hc). destruct pre as [|p pre].
      * injection Heq as <- <-. inversion Hpre; subst. rewrite Hc. reflexivity.
      * injection Heq as <- ->. inversion Hpre as [|? ? ? w2 ? Hp Hrest]; subst.
        rewrite Hp. apply IH. exists pre, c', post, w1. auto.
Qed.

Lemma Any_is_loop (conds : list (closure bool)) (w : World) : Any conds w = Any_loop conds w.
Proof.
  destruct conds as [|c [|c' cs]]; try reflexivity.
  simpl. unfold bind. destruct (c w) as [[] w1| |]; reflexivity.
Qed.

(** X2: [Any] returns false exactly when every condition, called in order,
    returns false (so for no condition at all); it returns true exactly when
    a condition returns true after those before it returned false: the
    conditions behind the first true one are not called. *)
Theorem Any_short_circuit (conds : list (closure bool)) (w w' : World) :
  (Any conds w = Ret false w' <-> all_return false conds w w') /\
  (Any conds w = Ret true w' <->
     exists pre c post w1,
       conds = pre ++ c :: post /\ all_return false pre w w1 /\ c w1 = Ret true w').
Proof.
  rewrite Any_is_loop. split; [apply Any_loop_false|apply Any_loop_true].
Qed.

(** ** [Flatten] *)

(** Induction over a value and the values in it. *)
Lemma Value_tree_ind (P : Value -> Prop) :
  (forall s, P (VString s)) -> (forall ss, P (VStrings ss)) -> (forall f, P (VFunc f)) ->
  (forall xs, Forall P xs -> P (VList xs)) -> (forall shown, P (VOther shown)) ->
  forall x, P x.
Proof.
  intros Hs Hss Hf Hl Ho. fix IH 1.
  intros [s|ss|f|xs|shown]; [apply Hs|apply Hss|apply Hf| |apply Ho].
  apply Hl. induction xs as [|x xs IHxs]; constructor; [apply IH|exact IHxs].
Qed.

Lemma flatten_loop_app (each : list string -> Value -> closure (list string))
    (dest : list string) (xs ys : list Value) (w : World) :
  flatten_loop each dest (xs ++ ys) w =
    (do d <- flatten_loop each dest xs; flatten_loop each d ys) w.
Proof.
  revert dest w. induction xs as [|x xs IH]; intros dest w; simpl; [reflexivity|].
  unfold bind. destruct (each dest x w); [|reflexivity|reflexivity]. apply IH.
Qed.

Lemma flatten_loop_in_front (dest : list string) (xs : list Value) (w : World) :
  Forall (fun x => forall dest w, flatten_value dest x w = in_front dest (flatten_value [] x w))
         xs ->
  flatten_loop flatten_value dest xs w = in_front dest (flatten_loop flatten_value [] xs w).
Proof.
  intros Hxs. revert dest w.
  induction Hxs as [|x xs Hx _ IH]; intros dest w; simpl.
  - rewrite app_nil_r. reflexivity.
  - unfold bind. rewrite (Hx dest w).
    destruct (flatten_value [] x w) as [r w1| |]; simpl; [|reflexivity|reflexivity].
    rewrite (IH (dest ++ r) w1), (IH r w1).
    destruct (flatten_loop flatten_value [] xs w1); simpl; [|reflexivity|reflexivity].
    rewrite app_assoc. reflexivity.
Qed.

Lemma flatten_value_in_front (x : Value) (dest : list string) (w : World) :
  flatten_value dest x w = in_front dest (flatten_value [] x w).
Proof.
  revert dest w. induction x as [s|ss|f|xs IH|shown] using Value_tree_ind; intros dest w;
    simpl; try reflexivity.
  - unfold bind. destruct (f w); reflexivity.
  - apply flatten_loop_in_front. exact IH.
Qed.

Lemma flatten_in_front (dest : list string) (xs : list Value) (w : World) :
  flatten dest xs w = in_front dest (Flatten xs w).
Proof.
  apply flatten_loop_in_front. apply Forall_true. intros x. apply flatten_value_in_front.
Qed.

(** X3: [Flatten] of two lists of values one behind the other is [Flatten]
    of the first, then [Flatten] of the second, with the strings of the first
    in front; a [[]interface{}] among the values counts as its elements (so
    [Flattener] of the values is [Flatten] of them); and [flatten] with a
    [dest] puts [dest] in front of what [Flatten] returns. *)
Theorem Flatten_app (xs ys : list Value) (dest : list string) (w : World) :
  Flatten (xs ++ ys) w = (do a <- Flatten xs; do b <- Flatten ys; Ret (a ++ b)) w /\
  Flatten (VList xs :: ys) w = Flatten (xs ++ ys) w /\
  Flattener xs w = Flatten xs w /\
  flatten dest xs w = in_front dest (Flatten xs w).
Proof.
  assert (Flatten (xs ++ ys) w = (do a <- Flatten xs; do b <- Flatten ys; Ret (a ++ b)) w)
    as Happ.
  { unfold Flatten at 1. unfold flatten. rewrite flatten_loop_app. unfold bind.
    fold (flatten [] xs). fold (Flatten xs).
    destruct (Flatten xs w) as [a w1| |]; [|reflexivity|reflexivity].
    fold (flatten a ys). rewrite flatten_in_front.
    destruct (Flatten ys w1); reflexivity. }
  split; [exact Happ|]. split; [|split].
  - rewrite Happ. unfold Flatten at 1, flatten. simpl. unfold bind.
    fold (flatten [] xs). fold (Flatten xs).
    destruct (Flatten xs w) as [a w1| |]; [|reflexivity|reflexivity].
    fold (flatten a ys). rewrite flatten_in_front.
    destruct (Flatten ys w1); reflexivity.
  - unfold Flattener, Flatten at 1, flatten. simpl. unfold bind.
    fold (flatten [] xs). fold (Flatten xs). destruct (Flatten xs w); reflexivity.
  - apply flatten_in_front.
Qed.

Lemma Flatten_plain_loop (xs : list Value) (dest : list string) (w : World) :
  Forall (fun x => plain x = true -> forall dest w,
                   flatten_value dest x w = Ret (dest ++ strings_of x) w) xs ->
  forallb plain xs = true ->
  flatten_loop flatten_value dest xs w = Ret (dest ++ concat (map strings_of xs)) w.
Proof.
  intros Hxs. revert dest. induction Hxs as [|x xs Hx _ IH]; intros dest; simpl.
  - intros _. rewrite app_nil_r. reflexivity.
  - intros [Hp Hps]%andb_prop. unfold bind. rewrite (Hx Hp). rewrite (IH _ Hps).
    rewrite app_assoc. reflexivity.
Qed.

Lemma flatten_value_plain (x : Value) :
  plain x = true -> forall dest w, flatten_value dest x w = Ret (dest ++ strings_of x) w.
Proof.
  induction x as [s|ss|f|xs IH|shown] using Value_tree_ind; simpl; try discriminate;
    try reflexivity.
  intros Hp dest w. apply Flatten_plain_loop; assumption.
Qed.

(** X4: on values that are strings, string slices and slices of such, at any
    depth, [Flatten] returns their strings in order and leaves the state as
    it is: it neither panics nor ends the process. *)
Theorem Flatten_plain (xs : list Value) (w : World) :
  forallb plain xs = true -> Flatten xs w = Ret (concat (map strings_of xs)) w.
Proof.
  intros Hp. unfold Flatten, flatten. rewrite Flatten_plain_loop; [reflexivity| |exact Hp].
  apply Forall_true. intros x. apply flatten_value_plain.
Qed.

(** X5: a value of a type that [flatten] does not know makes [Flatten] panic
    with that value, when the values before it are plain; the functions
    among the values behind it are not called. *)
Theorem Flatten_panics (pre post : list Value) (shown : string) (w : World) :
  forallb plain pre = true ->
  Flatten (pre ++ VOther shown :: post) w = Panic shown w.
Proof.
  intros Hp. unfold Flatten, flatten. rewrite flatten_loop_app. unfold bind.
  fold (flatten [] pre). fold (Flatten pre). rewrite (Flatten_plain pre w Hp). reflexivity.
Qed.

(** X6: [Wrap] with an empty first argument is [Flatten] of the rest; with
    another first argument it is that argument in front of [Flatten] of the
    rest. *)
Theorem Wrap_optional (optional : string) (xs : list Value) (w : World) :
  (optional = EmptyString -> Wrap optional xs w = Flatten xs w) /\
  (optional <> EmptyString -> Wrap optional xs w = in_front [optional] (Flatten xs w)).
Proof.
  unfold Wrap. split.
  - intros ->. reflexivity.
  - intros Hne. rewrite bool_decide_eq_true_2 by exact Hne.
    unfold flatten at 1. simpl. unfold bind. fold (flatten [optional] xs).
    apply flatten_in_front.
Qed.

(** ** [ReplaceSuffix] *)

Lemma last_index_of_str (s : string) (c : ascii) :
  last_index_of s (str c) = last_index_any s (str c).
Proof.
  induction s as [|a s IH]; [reflexivity|].
  cbn [last_index_of last_index_any]. rewrite IH, prefix_str, byte_in_str. reflexivity.
Qed.

Lemma last_index_any_split (s chars : string) (i : nat) :
  last_index_any s chars = Some i ->
  exists pre a post,
    s = pre +:+ String a post /\ String.length pre = i /\
    byte_in a chars = true /\ free chars post = true.
Proof.
  revert i. induction s as [|a s IH]; intros i; simpl; [discriminate|].
  destruct (last_index_any s chars) as [j|] eqn:E.
  - intros [= <-]. destruct (IH j eq_refl) as (pre & b & post & -> & Hlen & Hb & Hpost).
    exists (String a pre), b, post. rewrite append_String. simpl. auto.
  - destruct (byte_in a chars) eqn:Ea; [|discriminate]. intros [= <-].
    exists EmptyString, a, s. repeat split; try reflexivity; [exact Ea|].
    clear IH Ea. induction s as [|b s IHs]; [reflexivity|]. simpl in E |- *.
    destruct (last_index_any s chars); [discriminate|].
    destruct (byte_in b chars); [discriminate|]. simpl. apply IHs. reflexivity.
Qed.

Lemma ReplaceSuffix_stem (stem ext newSuffix : string) :
  stem <> EmptyString -> free (String "." (str "/")) ext = true ->
  ReplaceSuffix (stem +:+ "." +:+ ext) newSuffix = Fine (stem +:+ newSuffix).
Proof.
  intros Hstem Hext. rewrite (free_String "." (str "/")) in Hext.
  apply andb_prop in Hext as [Hdot Hslash].
  assert (strings_LastIndex (stem +:+ "." +:+ ext) "." = len stem) as Hi.
  { unfold strings_LastIndex. change "."%string with (str "."%char).
    rewrite last_index_of_str. change (str "." +:+ ext) with (String "."%char ext).
    rewrite (last_index_any_app (str ".") stem "." ext); [reflexivity|reflexivity|exact Hdot]. }
  unfold ReplaceSuffix. rewrite Hi.
  rewrite bool_decide_eq_false_2
    by (unfold len; destruct stem; [contradiction|simpl; lia]).
  rewrite slice_suffix, slice_prefix. simpl orb.
  change "/"%string with (str "/"%char). rewrite strings_Contains_free.
  change ("." +:+ ext) with (String "."%char ext). cbn [free byte_in str].
  rewrite Hslash. reflexivity.
Qed.

(** X7: [ReplaceSuffix] returns the stem with the new suffix when its
    argument is a stem that is not empty, a dot, and a suffix without dot
    and slash; on every other argument it panics with the argument. *)
Theorem ReplaceSuffix_cases (s newSuffix : string) :
  (forall stem ext,
     s = stem +:+ "." +:+ ext -> stem <> EmptyString ->
     free (String "." (str "/")) ext = true ->
     ReplaceSuffix s newSuffix = Fine (stem +:+ newSuffix)) /\
  ((forall stem ext,
      s = stem +:+ "." +:+ ext -> stem <> EmptyString ->
      free (String "." (str "/")) ext = false) ->
   ReplaceSuffix s newSuffix = Panics s).
Proof.
  split.
  - intros stem ext -> Hstem Hext. apply ReplaceSuffix_stem; assumption.
  - intros Hnone. unfold ReplaceSuffix.
    destruct (bool_decide (strings_LastIndex s "." <= 0) ||
              strings_Contains (slice s (strings_LastIndex s ".") (len s)) "/") eqn:E;
      [reflexivity|].
    exfalso. apply orb_false_elim in E as [Hi Hslash].
    apply bool_decide_eq_false in Hi.
    unfold strings_LastIndex in Hi, Hslash. change "."%string with (str "."%char) in Hi, Hslash.
    rewrite last_index_of_str in Hi, Hslash.
    destruct (last_index_any s (str ".")) as [i|] eqn:Ei; [|lia].
    destruct (last_index_any_split _ _ _ Ei) as (pre & a & post & -> & Hlen & Ha & Hpost).
    rewrite byte_in_str in Ha. apply Ascii.eqb_eq in Ha as ->.
    assert (Z.of_nat i = len pre) as Hi' by (unfold len; lia).
    rewrite Hi' in Hslash. rewrite slice_suffix in Hslash.
    change "/"%string with (str "/"%char) in Hslash. rewrite strings_Contains_free in Hslash.
    apply negb_false_iff in Hslash. cbn [free byte_in str] in Hslash.
    apply andb_prop in Hslash as [_ Hslash].
    specialize (Hnone pre post eq_refl).
    rewrite (free_String "." (str "/")), Hpost, Hslash in Hnone.
    assert (pre <> EmptyString) as Hpre by (intros ->; simpl in Hlen; lia).
    specialize (Hnone Hpre). discriminate.
Qed.

(** X8: replacing the suffix twice is replacing it once: after a replacement
    by a dot and a suffix without dot and slash, a second replacement gives
    what it gives on the first argument. *)
Theorem ReplaceSuffix_twice (s ext newSuffix r : string) :
  free (String "." (str "/")) ext = true ->
  ReplaceSuffix s ("." +:+ ext) = Fine r ->
  ReplaceSuffix r newSuffix = ReplaceSuffix s newSuffix.
Proof.
  intros Hext Hfirst.
  assert (exists stem old, s = stem +:+ "." +:+ old /\ stem <> EmptyString /\
            free (String "." (str "/")) old = true) as (stem & old & -> & Hstem & Hold).
  { destruct (ReplaceSuffix_cases s ("." +:+ ext)) as [_ Hp].
    assert (~ forall stem old, s = stem +:+ "." +:+ old -> stem <> EmptyString ->
                free (String "." (str "/")) old = false) as Hn.
    { intros Hall. rewrite (Hp Hall) in Hfirst. discriminate. }
    unfold ReplaceSuffix in Hfirst.
    destruct (bool_decide (strings_LastIndex s "." <= 0) ||
              strings_Contains (slice s (strings_LastIndex s ".") (len s)) "/") eqn:E;
      [discriminate|].
    apply orb_false_elim in E as [Hi Hslash]. apply bool_decide_eq_false in Hi.
    unfold strings_LastIndex in Hi, Hslash. change "."%string with (str "."%char) in Hi, Hslash.
    rewrite last_index_of_str in Hi, Hslash.
    destruct (last_index_any s (str ".")) as [i|] eqn:Ei; [|lia].
    destruct (last_index_any_split _ _ _ Ei) as (pre & a & post & -> & Hlen & Ha & Hpost).
    rewrite byte_in_str in Ha. apply Ascii.eqb_eq in Ha as ->.
    assert (Z.of_nat i = len pre) as Hi' by (unfold len; lia).
    rewrite Hi' in Hslash. rewrite slice_suffix in Hslash.
    change "/"%string with (str "/"%char) in Hslash. rewrite strings_Contains_free in Hslash.
    apply negb_false_iff in Hslash. cbn [free byte_in str] in Hslash.
    apply andb_prop in Hslash as [_ Hslash].
    exists pre, post. split; [reflexivity|]. split.
    - intros ->. simpl in Hlen. lia.
    - rewrite (free_String "." (str "/")), Hpost, Hslash. reflexivity. }
  rewrite (ReplaceSuffix_stem stem old _ Hstem Hold) in Hfirst. injection Hfirst as <-.
  rewrite (ReplaceSuffix_stem stem old _ Hstem Hold).
  apply ReplaceSuffix_stem; assumption.
Qed.

(** ** [maybeQuote] and [commandline], read back *)

Lemma append_Empty_r (x : string) : x +:+ EmptyString = x.
Proof. induction x as [|a x IH]; [reflexivity|]. rewrite append_String, IH. reflexivity. Qed.

Lemma substring_Empty (n m : nat) : String.substring n m EmptyString = EmptyString.
Proof. destruct n, m; reflexivity. Qed.

Lemma substring_glue (s : string) (n m k : nat) :
  String.substring n m s +:+ String.substring (n + m) k s = String.substring n (m + k) s.
Proof.
  revert n m. induction s as [|c s IH]; intros n m.
  - rewrite !substring_Empty. reflexivity.
  - destruct n as [|n]; [destruct m as [|m]|]; simpl.
    + reflexivity.
    + rewrite append_String. f_equal. apply (IH 0%nat m).
    + apply IH.
Qed.

Lemma slice_glue (s : string) (a b c : Z) :
  0 <= a -> a <= b -> b <= c ->
  slice s a b +:+ slice s b c = slice s a c.
Proof.
  intros Ha Hab Hbc. unfold slice.
  replace (Z.to_nat b) with (Z.to_nat a + Z.to_nat (b - a))%nat by lia.
  rewrite substring_glue. f_equal. lia.
Qed.

Lemma slice_whole (s : string) : slice s 0 (len s) = s.
Proof. unfold slice, len. rewrite Z.sub_0_r, Nat2Z.id. apply substring_all. Qed.

Lemma free_substring (chars s : string) (n m : nat) :
  free chars s = true -> free chars (String.substring n m s) = true.
Proof.
  revert n m. induction s as [|c s IH]; intros n m Hs.
  - rewrite substring_Empty. reflexivity.
  - simpl in Hs. apply andb_prop in Hs as [Hc Hs].
    destruct n as [|n]; [destruct m as [|m]|]; simpl; auto.
    rewrite Hc. apply IH. exact Hs.
Qed.

Lemma remove_byte_app (c : ascii) (a b : string) :
  remove_byte c (a +:+ b) = remove_byte c a +:+ remove_byte c b.
Proof.
  induction a as [|x a IH]; [reflexivity|]. rewrite append_String. simpl.
  destruct (Ascii.eqb x c); [exact IH|]. rewrite append_String, IH. reflexivity.
Qed.

Lemma remove_byte_free (c : ascii) (s : string) :
  free (str c) s = true -> remove_byte c s = s.
Proof.
  induction s as [|a s IH]; [reflexivity|]. cbn [free byte_in str remove_byte].
  rewrite orb_false_r. destruct (Ascii.eqb a c); [discriminate|].
  simpl. intros H. rewrite (IH H). reflexivity.
Qed.

Lemma remove_byte_str (c : ascii) : remove_byte c (str c) = EmptyString.
Proof. simpl. rewrite Ascii.eqb_refl. reflexivity. Qed.

Lemma remove_byte_slice (c : ascii) (s : string) (a b : Z) :
  free (str c) s = true -> remove_byte c (slice s a b) = slice s a b.
Proof. intros H. apply remove_byte_free. apply free_substring. exact H. Qed.

(** X9: what [maybeQuote] prints for an argument without single quote is
    the argument with quote characters of one kind put in: double quotes
    when the argument has no double quote, single quotes otherwise.  With
    these taken out again, the argument is read back as it was. *)
Theorem maybeQuote_lossless (s : string) :
  free (str squote) s = true ->
  remove_byte (if bool_decide (strings_Count s dquote = 0) then dquote else squote)
    (maybeQuote s) = s.
Proof.
  intros Hsq. unfold maybeQuote. rewrite strings_Contains_free, Hsq. simpl negb. cbv iota.
  pose proof (maybeQuote_slices_ok s) as [Hzero Htwo].
  destruct (strings_Count s dquote) as [|p|p] eqn:Hcount.
  - rewrite bool_decide_eq_true_2 by reflexivity.
    assert (free (str dquote) s = true) as Hd by (apply strings_Count_free; exact Hcount).
    cbv zeta. case_bool_decide as Hsp; [apply remove_byte_free; exact Hd|].
    case_bool_decide as Heq.
    + rewrite !remove_byte_app, remove_byte_str, (remove_byte_free _ _ Hd).
      rewrite append_Empty, append_Empty_r. reflexivity.
    + destruct (Hzero ltac:(lia) Heq) as [(H1 & H2 & H3) (H4 & H5 & H6)].
      rewrite !remove_byte_app, remove_byte_str, !(remove_byte_slice _ _ _ _ Hd).
      rewrite append_Empty, append_Empty_r, slice_glue by lia. apply slice_whole.
  - rewrite bool_decide_eq_false_2 by discriminate.
    assert (forall x, remove_byte squote (str squote +:+ x +:+ str squote) =
                      remove_byte squote x) as Hwrap.
    { intros x. rewrite !remove_byte_app, remove_byte_str, append_Empty.
      apply append_Empty_r. }
    destruct p as [p|[p|p|]|]; try (rewrite Hwrap; apply remove_byte_free; exact Hsq).
    cbv zeta. fold quote_or_space.
    specialize (Htwo eq_refl). cbv zeta in Htwo.
    destruct Htwo as ((H1 & H2 & H3) & (H4 & H5 & H6) & (H7 & H8 & H9)).
    rewrite !remove_byte_app, remove_byte_str, !(remove_byte_slice _ _ _ _ Hsq).
    rewrite !append_Empty. rewrite !slice_glue by lia. apply slice_whole.
  - pose proof (strings_Count_nonneg s dquote). lia.
Qed.

Lemma map_maybeQuote_bare (args : list string) :
  Forall (fun s => free (String squote quote_or_space) s = true) args ->
  map maybeQuote args = args.
Proof.
  induction 1 as [|s args Hs _ IH]; [reflexivity|]. simpl. rewrite IH. f_equal.
  rewrite (free_String squote quote_or_space) in Hs. apply andb_prop in Hs as [Hsq Hq].
  exact (proj1 (proj2 (maybeQuote_cases s) Hsq) Hq).
Qed.

(** X10: the command line that [run] prints for a task without environment
    whose arguments have no space, no double quote and no single quote is
    the arguments as they are, with a space between them. *)
Theorem commandline_bare (task : Task) :
  env task = None ->
  Forall (fun s => free (String squote quote_or_space) s = true) (command task) ->
  commandline task = strings_Join (command task) " ".
Proof.
  intros Henv Hargs. unfold commandline. rewrite Henv, (map_maybeQuote_bare _ Hargs).
  reflexivity.
Qed.

(** ** Tasks in which nothing fails *)

Lemma run_tasks_calm (subtasks : list Task) :
  Forall (fun subtask => forall cache m, exists r m', run subtask cache m = Ret r m') subtasks ->
  forall worked cache m, exists r m', run_tasks run subtasks worked cache m = Ret r m'.
Proof.
  induction 1 as [|subtask rest Hsub _ IH]; intros worked cache m; simpl.
  - eauto.
  - unfold bind. destruct (Hsub cache m) as (r & m1 & ->). apply IH.
Qed.

Lemma run_calm (task : Task) :
  calm task -> forall cache m, exists r m', run task cache m = Ret r m'.
Proof.
  induction task as [task IH] using Task_tree_ind.
  intros Hcalm cache m. destruct Hcalm as [task Htag Hcond Hfun Hcmd Hsub].
  rewrite run_unfold. destruct (tag task) as [t|]; [|contradiction].
  case_bool_decide; [eauto|]. unfold bind.
  assert (exists go m1, run_cond task t m = Ret go m1) as (go & m1 & ->).
  { unfold run_cond. destruct (cond task) as [c|]; [|eauto].
    unfold call. simpl. destruct (Hcond c eq_refl (world m)) as (b & w' & ->). eauto. }
  destruct go; simpl; [|eauto].
  destruct (run_tasks_calm (tasks task)) with (worked := false) (cache := {[t]} ∪ cache)
    (m := log (EvTasks t) m1) as (r & m2 & ->).
  { rewrite Forall_forall in IH, Hsub |- *. intros subtask Hin. apply IH; auto. }
  assert (exists w1 m3, run_command task t r.1 m2 = Ret w1 m3) as (w1 & m3 & ->).
  { unfold run_command. case_bool_decide as Hlen; [|eauto]. simpl.
    assert (command task <> []) as Hne
      by (intros Hnil; rewrite Hnil in Hlen; simpl in Hlen; lia).
    destruct (Hcmd Hne (environ task (Println ["Running"; commandline task] (world m2)))
                (Println ["Running"; commandline task] (world m2))) as (w' & ->). eauto. }
  assert (exists w2 m4, run_function task t w1 m3 = Ret w2 m4) as (w2 & m4 & ->).
  { unfold run_function. destruct (function task) as [f|]; [|eauto].
    unfold bind, call. simpl. destruct (Hfun f eq_refl (world m3)) as (w' & ->). eauto. }
  eauto.
Qed.

(** X11: when every task of the targets has an identity, every condition
    returns, every function returns nil and every command succeeds, [run]
    returns on each of them from any cache, and the loop of [Main] over them
    ends the process with exit code 0. *)
Theorem calm_completes (targets : list Task) (m : Machine) :
  Forall calm targets ->
  (forall task cache m, task ∈ targets ->
     exists b cache' m', run task cache m = Ret (b, cache') m') /\
  exists m', Main_run targets m = Exit 0 m'.
Proof.
  intros Hcalm. split.
  - intros task cache m0 Hin. rewrite Forall_forall in Hcalm.
    destruct (run_calm task (Hcalm task Hin) cache m0) as ([b c'] & m' & H). eauto.
  - unfold Main_run, bind.
    assert (forall cache m, exists c m', Main_targets targets cache m = Ret c m') as Hloop.
    { clear m. induction Hcalm as [|task rest Htask _ IH]; intros cache m; simpl; [eauto|].
      unfold bind. destruct (run_calm task Htask cache m) as (r & m1 & ->). apply IH. }
    destruct (Hloop ∅ m) as (c & m' & ->). eauto.
Qed.

(** ** [Main], from the command line to the targets *)

Lemma index_any_split (s chars : string) (i : nat) :
  index_any s chars = Some i ->
  exists pre a post,
    s = pre +:+ String a post /\ String.length pre = i /\
    free chars pre = true /\ byte_in a chars = true.
Proof.
  revert i. induction s as [|a s IH]; intros i; simpl; [discriminate|].
  destruct (byte_in a chars) eqn:Ea.
  - intros [= <-]. exists EmptyString, a, s. auto.
  - destruct (index_any s chars) as [j|]; simpl; [|discriminate]. intros [= <-].
    destruct (IH j eq_refl) as (pre & b & post & -> & Hlen & Hpre & Hb).
    exists (String a pre), b, post. rewrite append_String. simpl. rewrite Ea.
    repeat split; auto.
Qed.

Lemma strings_SplitN2_pair (k v : string) (c : ascii) :
  free (str c) k = true -> strings_SplitN2 (k +:+ str c +:+ v) (str c) = [k; v].
Proof.
  intros Hk. unfold strings_SplitN2. rewrite index_of_str.
  change (str c +:+ v) with (String c v).
  rewrite (index_any_app (str c) k c v Hk) by (rewrite byte_in_str; apply Ascii.eqb_refl).
  fold (len k). rewrite slice_prefix. f_equal. f_equal.
  change (String c v) with (str c +:+ v). rewrite <- append_assoc.
  replace (len k + len (str c)) with (len (k +:+ str c)) by apply len_append.
  apply slice_suffix.
Qed.

Lemma strings_Contains_split (s : string) (c : ascii) :
  strings_Contains s (str c) = true ->
  exists k v, s = k +:+ str c +:+ v /\ free (str c) k = true.
Proof.
  rewrite strings_Contains_free. intros H%negb_true_iff.
  destruct (index_any_found _ _ H) as [i Hi].
  destruct (index_any_split _ _ _ Hi) as (pre & a & post & -> & _ & Hpre & Ha).
  rewrite byte_in_str in Ha. apply Ascii.eqb_eq in Ha as ->. eauto.
Qed.

Lemma strings_Contains_pair (k v : string) (c : ascii) :
  strings_Contains (k +:+ str c +:+ v) (str c) = true.
Proof.
  rewrite strings_Contains_free, !free_app. cbn [free byte_in str].
  rewrite Ascii.eqb_refl. simpl. rewrite andb_false_r. reflexivity.
Qed.

(** What a variable on the command line is: a key without equals sign that
    does not start with a dash, an equals sign, and a value. *)
Lemma is_var_split (arg : string) :
  is_var arg = true <->
  exists k v, arg = k +:+ "=" +:+ v /\ free (str equals) k = true /\
              strings_HasPrefix arg "-" = false.
Proof.
  unfold is_var. change "="%string with (str equals). split.
  - intros [Hc Hp]%andb_prop. apply negb_true_iff in Hp.
    destruct (strings_Contains_split _ _ Hc) as (k & v & -> & Hk). eauto.
  - intros (k & v & -> & Hk & Hp). rewrite strings_Contains_pair, Hp. reflexivity.
Qed.

Lemma Main_setVars_Ret (args : list string) (w : World) :
  exists w', Main_setVars args w = Ret tt w' /\
    varDefaults w' = varDefaults w /\ globalDeps w' = globalDeps w /\
    files w' = files w /\ stdout w' = stdout w /\ stderr w' = stderr w.
Proof.
  revert w. induction args as [|arg rest IH]; intros w; simpl.
  - exists w. repeat split; reflexivity.
  - destruct (is_var arg) eqn:E; [|apply IH].
    apply is_var_split in E as (k & v & -> & Hk & _).
    change "="%string with (str equals). rewrite (strings_SplitN2_pair k v equals Hk).
    destruct (IH (with_Vars w (<[k:=v]> (Vars w)))) as (w' & -> & H1 & H2 & H3 & H4 & H5).
    exists w'. repeat split; assumption.
Qed.

Lemma Main_setVars_other (args : list string) (w w' : World) (key : string) :
  Main_setVars args w = Ret tt w' ->
  (forall v, key +:+ "=" +:+ v ∉ args) ->
  Vars w' !! key = Vars w !! key.
Proof.
  revert w. induction args as [|arg rest IH]; intros w; simpl.
  - intros [= <-] _. reflexivity.
  - intros Hrun Hnot.
    assert (forall v, key +:+ "=" +:+ v ∉ rest) as Hrest
      by (intros v Hin; apply (Hnot v); right; exact Hin).
    destruct (is_var arg) eqn:E; [|apply IH; assumption].
    apply is_var_split in E as (k & v & -> & Hk & _).
    change "="%string with (str equals) in Hrun.
    rewrite (strings_SplitN2_pair k v equals Hk) in Hrun.
    rewrite (IH _ Hrun Hrest). simpl. apply lookup_insert_ne.
    intros ->. apply (Hnot v). left.
Qed.

(** X12: the first loop of [Main] never panics and only writes [Vars]; a
    variable [key=value] of the command line, where the key has no equals
    sign and does not start with a dash, is in [Vars] with the value of its
    last occurrence, whatever the value holds, and [Getvar], asked for the
    key a first time, returns that value and not the default; a key that
    the command line does not give keeps what [Vars] had. *)
Theorem Main_setVars_last (args : list string) (w : World) :
  exists w',
    Main_setVars args w = Ret tt w' /\ varDefaults w' = varDefaults w /\
    (forall pre key value post,
       args = pre ++ (key +:+ "=" +:+ value) :: post ->
       free (str equals) key = true ->
       strings_HasPrefix (key +:+ "=" +:+ value) "-" = false ->
       (forall v, key +:+ "=" +:+ v ∉ post) ->
       Vars w' !! key = Some value /\
       (varDefaults w !! key = None ->
        forall d, exists w2, Getvar key d w' = Ret value w2)) /\
    (forall key, (forall v, key +:+ "=" +:+ v ∉ args) -> Vars w' !! key = Vars w !! key).
Proof.
  destruct (Main_setVars_Ret args w) as (w' & Hrun & Hvd & _).
  exists w'. split; [exact Hrun|]. split; [exact Hvd|]. split.
  - intros pre key value post -> Hkey Hdash Hlast.
    assert (Vars w' !! key = Some value) as Hv.
    { clear Hvd. revert w Hrun. induction pre as [|arg pre IH]; intros w Hrun.
      - simpl in Hrun.
        assert (is_var (key +:+ "=" +:+ value) = true) as Hvar
          by (apply is_var_split; eauto).
        rewrite Hvar in Hrun. change "="%string with (str equals) in Hrun.
        rewrite (strings_SplitN2_pair key value equals Hkey) in Hrun.
        rewrite (Main_setVars_other _ _ _ key Hrun Hlast). simpl. apply lookup_insert_eq.
      - simpl in Hrun. destruct (is_var arg) eqn:E; [|exact (IH w Hrun)].
        apply is_var_split in E as (k & v & -> & Hk & _).
        change "="%string with (str equals) in Hrun.
        rewrite (strings_SplitN2_pair k v equals Hk) in Hrun. exact (IH _ Hrun). }
    split; [exact Hv|]. intros Hfresh d. rewrite <- Hvd in Hfresh.
    rewrite (Getvar_first key d w' Hfresh). simpl. rewrite Hv. simpl. eauto.
  - intros key Hnot. exact (Main_setVars_other args w w' key Hrun Hnot).
Qed.

Lemma Main_checkVars_known (args : list string) (w : World) :
  vars_known args w -> Main_checkVars args w = Ret tt w.
Proof.
  induction args as [|arg rest IH]; intros Hknown; simpl; [reflexivity|].
  assert (vars_known rest w) as Hrest
    by (intros k v Hin; apply Hknown; right; exact Hin).
  destruct (is_var arg) eqn:E; [|apply IH; exact Hrest].
  apply is_var_split in E as (k & v & -> & Hk & Hdash).
  change "="%string with (str equals). rewrite (strings_SplitN2_pair k v equals Hk).
  destruct (Hknown k v) as [d ->]; [left|exact Hk|exact Hdash|]. apply IH. exact Hrest.
Qed.

Lemma Main_checkVars_unknown (pre post : list string) (key value : string) (w : World) :
  vars_known pre w -> free (str equals) key = true ->
  strings_HasPrefix (key +:+ "=" +:+ value) "-" = false ->
  varDefaults w !! key = None ->
  Main_checkVars (pre ++ (key +:+ "=" +:+ value) :: post) w =
    Exit 2 (Eprintln ["Unknown variable:"; key] w).
Proof.
  intros Hpre Hkey Hdash Hnone. induction pre as [|arg pre IH]; simpl.
  - assert (is_var (key +:+ "=" +:+ value) = true) as -> by (apply is_var_split; eauto).
    change "="%string with (str equals). rewrite (strings_SplitN2_pair key value equals Hkey).
    rewrite Hnone. reflexivity.
  - assert (vars_known pre w) as Hrest
      by (intros k v Hin; apply Hpre; right; exact Hin).
    destruct (is_var arg) eqn:E; [|apply IH; exact Hrest].
    apply is_var_split in E as (k & v & -> & Hk & Hd).
    change "="%string with (str equals). rewrite (strings_SplitN2_pair k v equals Hk).
    destruct (Hpre k v) as [d ->]; [left|exact Hk|exact Hd|]. apply IH. exact Hrest.
Qed.

Lemma Main_names_Ret (defaults : bool) (main prog : string) (available : list Task)
    (args : list string) (names : gset string) (w : World) :
  (forall arg, arg ∈ args -> strings_HasPrefix arg "-" = false) ->
  Main_names defaults main prog available args names w = Ret (names_of args ∪ names) w.
Proof.
  unfold names_of. revert names. induction args as [|arg rest IH]; intros names Hdash.
  - cbn [Main_names]. f_equal. rewrite filter_nil, list_to_set_nil, (left_id_L ∅ (∪)).
    reflexivity.
  - cbn [Main_names]. rewrite (Hdash arg) by left.
    assert (forall a, a ∈ rest -> strings_HasPrefix a "-" = false) as Hrest
      by (intros a Hin; apply Hdash; right; exact Hin).
    destruct (strings_Contains arg "=") eqn:E; cbn [negb].
    + rewrite filter_cons_False by (rewrite E; discriminate). apply IH. exact Hrest.
    + rewrite filter_cons_True by exact E. rewrite (IH _ Hrest). f_equal.
      rewrite list_to_set_cons.
      rewrite (assoc_L (∪)), (comm_L (∪) _ {[arg]}). reflexivity.
Qed.

Lemma Main_names_dash (defaults : bool) (main prog : string) (available : list Task)
    (args : list string) (names : gset string) (w : World) :
  (exists arg, arg ∈ args /\ strings_HasPrefix arg "-" = true) ->
  Main_names defaults main prog available args names w =
    usage defaults main prog available 2 w.
Proof.
  revert names. induction args as [|arg rest IH]; intros names (a & Hin & Ha); simpl.
  - inversion Hin.
  - destruct (strings_HasPrefix arg "-") eqn:E; [reflexivity|].
    apply elem_of_cons in Hin as [->|Hin]; [congruence|].
    destruct (strings_Contains arg "="); simpl; apply IH; eauto.
Qed.

Lemma Main_unknown_found (order : list string) (found : gset string) (w : World) :
  (forall n, n ∈ order -> n ∈ found) -> Main_unknown order found w = Ret tt w.
Proof.
  induction order as [|n rest IH]; intros Hall; simpl; [reflexivity|].
  rewrite bool_decide_eq_true_2 by (apply Hall; left).
  apply IH. intros n' Hin. apply Hall. right. exact Hin.
Qed.

Lemma Main_unknown_missing (order : list string) (found : gset string) (w : World) :
  (exists n, n ∈ order /\ (n ∉ found)) ->
  exists n, n ∈ order /\ (n ∉ found) /\
    Main_unknown order found w = Exit 2 (Eprintln ["Unknown target:"; n] w).
Proof.
  induction order as [|n rest IH]; intros (n0 & Hin & Hn0); simpl; [inversion Hin|].
  case_bool_decide as Hn.
  - apply elem_of_cons in Hin as [->|Hin]; [contradiction|].
    destruct IH as (n1 & H1 & H2 & H3); [eauto|]. exists n1. split; [right; exact H1|auto].
  - exists n. split; [left|]. auto.
Qed.

Lemma found_selected (names : gset string) (available : list Task) (n : string) :
  n ∈ names ->
  (n ∈ (list_to_set (name <$> Main_select names available) : gset string) <->
   exists task, task ∈ available /\ name task = n).
Proof.
  intros Hn. rewrite elem_of_list_to_set, list_elem_of_fmap. unfold Main_select. split.
  - intros (task & -> & Hin). apply list_elem_of_filter in Hin as [_ Hin]. eauto.
  - intros (task & Hin & <-). exists task. split; [reflexivity|].
    apply list_elem_of_filter. split; [left; exact Hn|exact Hin].
Qed.

Lemma Main_select_cases (names : gset string) (available : list Task) :
  (names = ∅ -> Main_select names available =
                filter (fun task => isDefault task = true) available) /\
  (names <> ∅ -> Main_select names available =
                 filter (fun task => name task ∈ names) available).
Proof.
  unfold Main_select. split.
  - intros ->. apply list_filter_iff. intros task. rewrite size_empty. split.
    + intros [Hin|[_ Hd]]; [|exact Hd]. destruct (not_elem_of_empty (C:=gset string) _ Hin).
    + intros Hd. right. split; [reflexivity|exact Hd].
  - intros Hne. apply list_filter_iff. intros task.
    assert (size names <> 0%nat) as Hsize
      by (intros H%size_empty_inv; apply Hne; apply leibniz_equiv; exact H).
    split; [intros [Hin|[Hz _]]; [exact Hin|contradiction]|intros Hin; left; exact Hin].
Qed.

(** [Main] before the help flag is looked at. *)
Lemma Main_targets_of_start (getTargets : closure (list Task)) (main : string)
    (deps : list string) (prog : string) (args : list string) (w : World)
    (available : list Task) (w1 : World) (defaults : bool) :
  Main_starts getTargets main deps args w available w1 ->
  validateTargets available = Fine defaults ->
  vars_known args w1 ->
  Main_targets_of getTargets main deps prog args w =
    (do _ <- (match args with
              | [arg] =>
                  if bool_decide (arg = "-h" \/ arg = "-help" \/ arg = "--help")
                  then usage defaults main prog available 0
                  else Ret tt
              | _ => Ret tt
              end);
     do names <- Main_names defaults main prog available args ∅;
     do _ <- (if negb defaults && bool_decide (size names = 0%nat)
              then usage defaults main prog available 2 else Ret tt);
     do _ <- Main_unknown (elements names)
               (list_to_set (name <$> Main_select names available));
     Ret (Main_select names available)) w1.
Proof.
  unfold Main_starts, Main_targets_of. intros Hstart Hvalid Hknown. unfold bind in *.
  destruct (Main_setVars args (Main_globalDeps main deps w)) as [[] w0| |];
    try discriminate.
  rewrite Hstart, Hvalid. rewrite (Main_checkVars_known _ _ Hknown). reflexivity.
Qed.

Lemma names_of_nodash_help (args : list string) :
  (forall arg, arg ∈ args -> strings_HasPrefix arg "-" = false) ->
  match args with
  | [arg] => bool_decide (arg = "-h" \/ arg = "-help" \/ arg = "--help") = false
  | _ => True
  end.
Proof.
  intros Hdash. destruct args as [|arg [|]]; try exact I.
  apply bool_decide_eq_false. specialize (Hdash arg ltac:(left)).
  intros [->|[->| ->]]; discriminate.
Qed.

(** X13: when [getTargets] returns targets that pass [validateTargets],
    every variable of the command line was asked for, no argument starts
    with a dash, every name on the command line is the name of a target, and
    either a name is given or a target is marked default, [Main] runs the
    selected targets and nothing else: with names given, the targets so
    named, in the order in which [getTargets] returned them and not in that
    of the command line, each once however often it is named; with no name
    given, the targets marked default. *)
Theorem Main_runs_selected (getTargets : closure (list Task)) (main : string)
    (deps : list string) (prog : string) (args : list string) (m : Machine)
    (available : list Task) (w1 : World) (defaults : bool) :
  Main_starts getTargets main deps args (world m) available w1 ->
  validateTargets available = Fine defaults ->
  vars_known args w1 ->
  (forall arg, arg ∈ args -> strings_HasPrefix arg "-" = false) ->
  (forall n, n ∈ names_of args -> exists task, task ∈ available /\ name task = n) ->
  defaults = true \/ names_of args <> ∅ ->
  Main getTargets main deps prog args m =
    Main_run (Main_select (names_of args) available) {| world := w1; trace := trace m |} /\
  (names_of args = ∅ ->
   Main_select (names_of args) available =
     filter (fun task => isDefault task = true) available) /\
  (names_of args <> ∅ ->
   Main_select (names_of args) available =
     filter (fun task => name task ∈ names_of args) available).
Proof.
  intros Hstart Hvalid Hknown Hdash Hnames Hsome.
  split; [|apply Main_select_cases].
  unfold Main. unfold bind at 1. unfold call.
  rewrite (Main_targets_of_start _ _ _ _ _ _ _ _ _ Hstart Hvalid Hknown).
  unfold bind.
  assert ((match args with
           | [arg] =>
               if bool_decide (arg = "-h" \/ arg = "-help" \/ arg = "--help")
               then usage defaults main prog available 0
               else Ret tt
           | _ => Ret tt
           end) w1 = Ret tt w1) as ->.
  { pose proof (names_of_nodash_help args Hdash) as H.
    destruct args as [|arg [|]]; try reflexivity. rewrite H. reflexivity. }
  rewrite (Main_names_Ret _ _ _ _ _ _ _ Hdash).
  rewrite (right_id_L ∅ (∪)).
  assert (negb defaults && bool_decide (size (names_of args) = 0%nat) = false) as ->.
  { destruct Hsome as [->|Hne]; [reflexivity|].
    rewrite bool_decide_eq_false_2; [apply andb_false_r|].
    intros H%size_empty_inv. apply Hne. apply leibniz_equiv. exact H. }
  rewrite Main_unknown_found; [reflexivity|].
  intros n Hn%elem_of_elements. apply found_selected; [exact Hn|]. apply Hnames. exact Hn.
Qed.

(** X14: under the same conditions, but with a name on the command line
    that is the name of no target, [Main] reports such a name as an unknown
    target on the error stream and ends the process with exit code 2; no
    target is run, not even those whose names are known. *)
Theorem Main_unknown_target (getTargets : closure (list Task)) (main : string)
    (deps : list string) (prog : string) (args : list string) (m : Machine)
    (available : list Task) (w1 : World) (defaults : bool) :
  Main_starts getTargets main deps args (world m) available w1 ->
  validateTargets available = Fine defaults ->
  vars_known args w1 ->
  (forall arg, arg ∈ args -> strings_HasPrefix arg "-" = false) ->
  (exists n, n ∈ names_of args /\ forall task, task ∈ available -> name task <> n) ->
  exists n,
    n ∈ names_of args /\ (forall task, task ∈ available -> name task <> n) /\
    Main getTargets main deps prog args m =
      Exit 2 {| world := Eprintln ["Unknown target:"; n] w1; trace := trace m |}.
Proof.
  intros Hstart Hvalid Hknown Hdash (n0 & Hn0 & Hnone).
  destruct (Main_unknown_missing (elements (names_of args))
              (list_to_set (name <$> Main_select (names_of args) available)) w1)
    as (n & Hn & Hmiss & Hrun).
  { exists n0. split; [apply elem_of_elements; exact Hn0|].
    rewrite (found_selected _ _ _ Hn0). intros (task & Hin & Heq). exact (Hnone task Hin Heq). }
  apply elem_of_elements in Hn. exists n. split; [exact Hn|]. split.
  { intros task Hin Heq. apply Hmiss. apply found_selected; eauto. }
  unfold Main. unfold bind at 1. unfold call.
  rewrite (Main_targets_of_start _ _ _ _ _ _ _ _ _ Hstart Hvalid Hknown).
  unfold bind.
  assert ((match args with
           | [arg] =>
               if bool_decide (arg = "-h" \/ arg = "-help" \/ arg = "--help")
               then usage defaults main prog available 0
               else Ret tt
           | _ => Ret tt
           end) w1 = Ret tt w1) as ->.
  { pose proof (names_of_nodash_help args Hdash) as H.
    destruct args as [|arg [|]]; try reflexivity. rewrite H. reflexivity. }
  rewrite (Main_names_Ret _ _ _ _ _ _ _ Hdash).
  rewrite (right_id_L ∅ (∪)).
  assert (negb defaults && bool_decide (size (names_of args) = 0%nat) = false) as ->.
  { rewrite bool_decide_eq_false_2; [apply andb_false_r|].
    intros H%size_empty_inv. apply leibniz_equiv in H. rewrite H in Hn.
    exact (not_elem_of_empty (C:=gset string) _ Hn). }
  rewrite Hrun. reflexivity.
Qed.

(** X15: a variable on the command line that no [Getvar] asked for while
    [getTargets] built the targets ends the process with exit code 2 and a
    line on the error stream that names it: the first such variable, after
    the targets were built and validated, and before any target is run. *)
Theorem Main_unknown_variable (getTargets : closure (list Task)) (main : string)
    (deps : list string) (prog : string) (pre post : list string) (key value : string)
    (m : Machine) (available : list Task) (w1 : World) (defaults : bool) :
  Main_starts getTargets main deps (pre ++ (key +:+ "=" +:+ value) :: post) (world m)
    available w1 ->
  validateTargets available = Fine defaults ->
  vars_known pre w1 ->
  free (str equals) key = true ->
  strings_HasPrefix (key +:+ "=" +:+ value) "-" = false ->
  varDefaults w1 !! key = None ->
  Main getTargets main deps prog (pre ++ (key +:+ "=" +:+ value) :: post) m =
    Exit 2 {| world := Eprintln ["Unknown variable:"; key] w1; trace := trace m |}.
Proof.
  intros Hstart Hvalid Hpre Hkey Hdash Hnone.
  unfold Main. unfold bind at 1. unfold call. unfold Main_targets_of.
  unfold Main_starts in Hstart. unfold bind in *.
  destruct (Main_setVars _ (Main_globalDeps main deps (world m))) as [[] w0| |];
    try discriminate.
  rewrite Hstart, Hvalid.
  rewrite (Main_checkVars_unknown pre post key value w1 Hpre Hkey Hdash Hnone). reflexivity.
Qed.

(** X16: once the targets are built and validated, a single argument [-h],
    [-help] or [--help] makes [Main] print the usage text on the error
    stream and exit with code 0; any other command line with an argument
    that starts with a dash, and a command line without a name when no
    target is marked default, make it print the usage text and exit with
    code 2.  In each case no target is run and nothing goes to the standard
    output. *)
Theorem Main_usage (getTargets : closure (list Task)) (main : string)
    (deps : list string) (prog : string) (args : list string) (m : Machine)
    (available : list Task) (w1 : World) (defaults : bool) :
  Main_starts getTargets main deps args (world m) available w1 ->
  validateTargets available = Fine defaults ->
  (forall code, exists w',
     call (usage (A:=unit) defaults main prog available code)
          {| world := w1; trace := trace m |} =
       Exit code {| world := w'; trace := trace m |} /\
     stdout w' = stdout w1 /\
     exists first second,
       stderr w' = stderr w1 ++ [first; second; EmptyString; "Targets:"] ++
                   usage_targets available ++ usage_vars w1 ++ [EmptyString]) /\
  (forall flag,
     args = [flag] -> flag = "-h" \/ flag = "-help" \/ flag = "--help" ->
     Main getTargets main deps prog args m =
       call (usage defaults main prog available 0) {| world := w1; trace := trace m |}) /\
  (vars_known args w1 ->
   (exists arg, arg ∈ args /\ strings_HasPrefix arg "-" = true) ->
   (forall flag, args = [flag] -> ~ (flag = "-h" \/ flag = "-help" \/ flag = "--help")) ->
   Main getTargets main deps prog args m =
     call (usage defaults main prog available 2) {| world := w1; trace := trace m |}) /\
  (vars_known args w1 ->
   (forall arg, arg ∈ args -> strings_HasPrefix arg "-" = false) ->
   defaults = false -> names_of args = ∅ ->
   Main getTargets main deps prog args m =
     call (usage defaults main prog available 2) {| world := w1; trace := trace m |}).
Proof.
  intros Hstart Hvalid. split; [|split; [|split]].
  - intros code. unfold call, usage. cbn [world trace]. eexists.
    split; [reflexivity|]. split; [reflexivity|].
    cbn [stderr with_stderr]. eexists _, _. reflexivity.
  - intros flag -> Hflag.
    assert (vars_known [flag] w1) as Hknown.
    { intros k v Hin%list_elem_of_singleton Hk Hd. exfalso. rewrite Hin in Hd.
      destruct Hflag as [->|[->| ->]]; discriminate. }
    unfold Main. unfold bind at 1. unfold call.
    rewrite (Main_targets_of_start _ _ _ _ _ _ _ _ _ Hstart Hvalid Hknown).
    unfold bind. rewrite bool_decide_eq_true_2 by exact Hflag. reflexivity.
  - intros Hknown Harg Hnohelp.
    unfold Main. unfold bind at 1. unfold call.
    rewrite (Main_targets_of_start _ _ _ _ _ _ _ _ _ Hstart Hvalid Hknown).
    unfold bind.
    assert ((match args with
             | [arg] =>
                 if bool_decide (arg = "-h" \/ arg = "-help" \/ arg = "--help")
                 then usage defaults main prog available 0
                 else Ret tt
             | _ => Ret tt
             end) w1 = Ret tt w1) as ->.
    { destruct args as [|arg [|]]; try reflexivity.
      rewrite bool_decide_eq_false_2 by (apply Hnohelp; reflexivity). reflexivity. }
    rewrite (Main_names_dash _ _ _ _ _ _ _ Harg). reflexivity.
  - intros Hknown Hdash -> Hnames.
    unfold Main. unfold bind at 1. unfold call.
    rewrite (Main_targets_of_start _ _ _ _ _ _ _ _ _ Hstart Hvalid Hknown).
    unfold bind.
    assert ((match args with
             | [arg] =>
                 if bool_decide (arg = "-h" \/ arg = "-help" \/ arg = "--help")
                 then usage false main prog available 0
                 else Ret tt
             | _ => Ret tt
             end) w1 = Ret tt w1) as ->.
    { pose proof (names_of_nodash_help args Hdash) as H.
      destruct args as [|arg [|]]; try reflexivity. rewrite H. reflexivity. }
    rewrite (Main_names_Ret _ _ _ _ _ _ _ Hdash), Hnames, (right_id_L ∅ (∪)), size_empty.
    reflexivity.
Qed.

(** ** The tasks that are built *)

Lemma run_tasks_only (subtasks : list Task) (worked : bool) (cache : gset Tag) (m : Machine) :
  (do r <- run_tasks run subtasks worked cache;
   do worked <- Ret (A:=bool) r.1;
   do worked <- Ret (A:=bool) worked;
   Ret (worked, r.2)) m = run_tasks run subtasks worked cache m.
Proof.
  unfold bind. destruct (run_tasks run subtasks worked cache m) as [[b c] m'| |]; reflexivity.
Qed.

(** X17: [Command] (and [Env.Command]) flattens its arguments when the task
    is built, not when it is run.  A task whose arguments flatten to no
    string at all has no command: [run] reports no work and runs nothing.
    Otherwise [run] prints the command line, runs the command once with the
    environment of the task, and returns true, or ends the process with
    exit code 1 when the command fails. *)
Theorem Command_runs (env : option Env) (args : list Value) (next : positive)
    (w w1 : World) (task : Task) (next' : positive) :
  Env_Command env args next w = Ret (task, next') w1 ->
  Flatten args w = Ret (command task) w1 /\ tag task = Some next /\
  next' = Pos.succ next /\
  forall cache m, next ∉ cache ->
    (command task = [] ->
     run task cache m = Ret (false, {[next]} ∪ cache) (log (EvTasks next) m)) /\
    (command task <> [] ->
     forall r w2,
       cmd_Run (command task)
         (environ task (Println ["Running"; commandline task] (world m)))
         (Println ["Running"; commandline task] (world m)) = (r, w2) ->
       run task cache m =
         match r with
         | None =>
             Ret (true, {[next]} ∪ cache)
                 {| world := w2; trace := EvCommand next :: EvTasks next :: trace m |}
         | Some err =>
             Exit 1 {| world := Eprintln [err] w2;
                       trace := EvFailed next err :: EvCommand next :: EvTasks next ::
                                trace m |}
         end).
Proof.
  unfold Env_Command, bind. intros Hbuild.
  destruct (Flatten_app args [] [] w) as (_ & _ & Hflat & _). unfold Flattener in Hflat.
  rewrite Hflat in Hbuild. destruct (Flatten args w) as [c w0| |]; try discriminate.
  simpl in Hbuild. injection Hbuild as <- <- <-. cbn [command tag].
  repeat split; try reflexivity.
  - intros Hnil. rewrite run_unfold. simpl. rewrite bool_decide_eq_false_2 by assumption.
    unfold bind, run_cond, run_command, run_function. simpl. rewrite Hnil. reflexivity.
  - intros Hne r w2 Hrun. rewrite run_unfold. simpl.
    rewrite bool_decide_eq_false_2 by assumption.
    unfold bind, run_cond, run_command, run_function. simpl.
    rewrite bool_decide_eq_true_2 by (destruct c; [contradiction|simpl; lia]).
    simpl in Hrun. rewrite Hrun. destruct r; reflexivity.
Qed.

(** X18: what [run] does on a task that was built, when its identity is not
    in the cache.  On a [Target], a [TargetDefault] and a [Group] it is the
    loop over the tasks given: the result is true exactly when one of them
    worked.  On an [If] the condition is called first: false gives no work
    and none of the tasks is run, true gives the loop over the tasks.  On a
    [Func] the function is called: nil gives true, an error ends the process
    with exit code 1. *)
Theorem built_tasks_run (next : positive) (cache : gset Tag) (m : Machine) :
  next ∉ cache ->
  (forall name tasks,
     run (Target name tasks next).1 cache m =
       run_tasks run tasks false ({[next]} ∪ cache) (log (EvTasks next) m) /\
     run (TargetDefault name tasks next).1 cache m =
       run_tasks run tasks false ({[next]} ∪ cache) (log (EvTasks next) m) /\
     run (Group tasks next).1 cache m =
       run_tasks run tasks false ({[next]} ∪ cache) (log (EvTasks next) m)) /\
  (forall cond tasks,
     run (If cond tasks next).1 cache m =
       match cond (world m) with
       | Ret true w1 =>
           run_tasks run tasks false ({[next]} ∪ cache)
             {| world := w1; trace := EvTasks next :: EvCond next :: trace m |}
       | Ret false w1 =>
           Ret (false, {[next]} ∪ cache) {| world := w1; trace := EvCond next :: trace m |}
       | Exit code w1 => Exit code {| world := w1; trace := EvCond next :: trace m |}
       | Panic v w1 => Panic v {| world := w1; trace := EvCond next :: trace m |}
       end) /\
  (forall f,
     run (Func f next).1 cache m =
       match f (world m) with
       | Ret None w1 =>
           Ret (true, {[next]} ∪ cache)
               {| world := w1; trace := EvFunction next :: EvTasks next :: trace m |}
       | Ret (Some err) w1 =>
           Exit 1 {| world := Eprintln [err] w1;
                     trace := EvFailed next err :: EvFunction next :: EvTasks next ::
                              trace m |}
       | Exit code w1 =>
           Exit code {| world := w1; trace := EvFunction next :: EvTasks next :: trace m |}
       | Panic v w1 =>
           Panic v {| world := w1; trace := EvFunction next :: EvTasks next :: trace m |}
       end).
Proof.
  intros Hnew.
  assert (forall name d tasks,
            run (mkTask name d tasks [] None None None (Some next)) cache m =
              run_tasks run tasks false ({[next]} ∪ cache) (log (EvTasks next) m)) as Hplain.
  { intros name d tasks. rewrite run_unfold. simpl.
    rewrite bool_decide_eq_false_2 by exact Hnew.
    unfold bind at 1. unfold run_cond. simpl.
    apply (run_tasks_only tasks false ({[next]} ∪ cache) (log (EvTasks next) m)). }
  split; [|split].
  - intros name tasks. repeat split; apply Hplain.
  - intros cond0 tasks. unfold If, new_tag. cbn [fst]. rewrite run_unfold. simpl.
    rewrite bool_decide_eq_false_2 by exact Hnew.
    unfold bind at 1. unfold run_cond, call. simpl.
    destruct (cond0 (world m)) as [[] w1| |]; try reflexivity. simpl.
    apply (run_tasks_only tasks false ({[next]} ∪ cache)).
  - intros f. unfold Func, new_tag. cbn [fst]. rewrite run_unfold. simpl.
    rewrite bool_decide_eq_false_2 by exact Hnew.
    unfold bind, run_cond, run_command, run_function, call, log. simpl.
    unfold bind. simpl.
    destruct (f (world m)) as [[err|] w1| |]; reflexivity.
Qed.

Lemma tags_below_le (next next' : positive) (task : Task) :
  (next <= next')%positive -> tags_below next task -> tags_below next' task.
Proof.
  intros Hle. induction task as [task IH] using Task_tree_ind.
  intros Hbelow. inversion Hbelow as [task' t Ht Hlt Hsub Heq]. subst task'.
  apply (tags_below_task next' task t Ht); [lia|].
  rewrite Forall_forall in IH, Hsub |- *. intros sub Hin.
  apply (IH sub Hin). apply (Hsub sub Hin).
Qed.

(** X19: every function that builds a task gives it the next free address
    as its identity and moves on to the address behind it: when the tasks
    given hold only addresses in use, so does the task built, and its own
    identity is the identity of none of the tasks built before, nor of a
    task below it. *)
Theorem builders_fresh (next : positive) (tasks : list Task) :
  Forall (tags_below next) tasks ->
  (forall built,
     (exists name, built = Target name tasks next) \/
     (exists name, built = TargetDefault name tasks next) \/
     (exists cond, built = If cond tasks next) \/
     built = Group tasks next \/
     (exists f, built = Func f next) \/
     (exists env args w w1, Env_Command env args next w = Ret built w1) \/
     (exists env optional args w w1,
        Env_CommandWrap env optional args next w = Ret built w1) ->
     tag built.1 = Some next /\ built.2 = Pos.succ next /\
     tags_below built.2 built.1) /\
  (forall old, tags_below next old -> tag old <> Some next).
Proof.
  intros Hsub.
  assert (Forall (tags_below (Pos.succ next)) tasks) as Hsub'.
  { rewrite Forall_forall in Hsub |- *. intros sub Hin.
    apply (tags_below_le next); [lia|auto]. }
  assert (forall name d tasks0 c e f g,
            Forall (tags_below (Pos.succ next)) tasks0 ->
            tags_below (Pos.succ next) (mkTask name d tasks0 c e f g (Some next))) as Hmk.
  { intros. apply (tags_below_task _ _ next); [reflexivity|lia|assumption]. }
  split.
  - intros built
      [[name ->]|[[name ->]|[[c ->]|[->|[[f ->]|[(env & args & w & w1 & H)|
        (env & optional & args & w & w1 & H)]]]]]];
      simpl; try (repeat split; apply Hmk; auto; fail).
    + unfold Env_Command, bind in H.
      destruct (Flatten [VList args] w); try discriminate.
      injection H as <- <-. simpl. repeat split. apply Hmk. constructor.
    + unfold Env_CommandWrap, bind in H.
      destruct (Wrap optional [VList args] w); try discriminate.
      injection H as <- <-. simpl. repeat split. apply Hmk. constructor.
  - intros old [task t Ht Hlt _] Heq. rewrite Ht in Heq. injection Heq as ->. lia.
Qed.

(** ** Removal *)

Section Removal_properties.

Variable os_RemoveAll : string -> World -> option string * World.

#[local] Abbreviation Removal_loop := (Removal_loop os_RemoveAll).
#[local] Abbreviation Removal := (Removal os_RemoveAll).
#[local] Abbreviation attempts := (attempts os_RemoveAll).

Lemma Removal_loop_all (directories : list string) :
  forall err w,
    Removal_loop directories err w =
      (match err with
       | Some _ => err
       | None => head (omap id (attempts directories w))
       end,
       fold_left (fun w path => (os_RemoveAll path w).2) directories w).
Proof.
  induction directories as [|path rest IH]; intros err w; simpl.
  - destruct err; reflexivity.
  - destruct (os_RemoveAll path w) as [e w1] eqn:Hrm. rewrite IH. simpl.
    destruct err as [err|]; [reflexivity|]. destruct e; reflexivity.
Qed.

(** X20: the function of a [Removal] task calls [os.RemoveAll] on every
    directory in the order given, also on those behind one that could not
    be removed, and returns the first error there was (nil when there was
    none); [run] of the task therefore ends the process with exit code 1
    after all directories have been tried when one of them failed. *)
Theorem Removal_tries_all (directories : list string) (next : positive)
    (cache : gset Tag) (m : Machine) :
  let left := fold_left (fun w path => (os_RemoveAll path w).2) directories (world m) in
  let events := EvFunction next :: EvTasks next :: trace m in
  next ∉ cache ->
  run (Removal directories next).1 cache m =
    match head (omap id (attempts directories (world m))) with
    | None => Ret (true, {[next]} ∪ cache) {| world := left; trace := events |}
    | Some err =>
        Exit 1 {| world := Eprintln [err] left; trace := EvFailed next err :: events |}
    end.
Proof.
  intros left events Hnew. unfold Removal, Func, new_tag. cbn [fst].
  rewrite run_unfold. simpl. rewrite bool_decide_eq_false_2 by exact Hnew.
  unfold bind, run_cond, run_command, run_function, call, log. simpl.
  unfold bind. simpl. rewrite Removal_loop_all. fold left.
  destruct (head (omap id (attempts directories (world m)))); reflexivity.
Qed.

End Removal_properties.

(** ** Checking the variables, the other way round *)

Lemma Main_checkVars_returns (args : list string) (w : World) :
  Main_checkVars args w = Ret tt w -> vars_known args w.
Proof.
  induction args as [|arg rest IH]; intros Hcheck key value Hin Hfree Hdash.
  - inversion Hin.
  - simpl in Hcheck. apply elem_of_cons in Hin as [Heq|Hin].
    + subst arg.
      assert (is_var (key +:+ "=" +:+ value) = true) as Hvar
        by (apply is_var_split; eauto).
      rewrite Hvar in Hcheck. change "="%string with (str equals) in Hcheck.
      rewrite (strings_SplitN2_pair key value equals Hfree) in Hcheck.
      destruct (varDefaults w !! key); [eauto|discriminate].
    + apply (fun H => IH H key value Hin Hfree Hdash).
      destruct (is_var arg); [|exact Hcheck].
      destruct (strings_SplitN2 arg "=") as [|k ?]; [discriminate|].
      destruct (varDefaults w !! k); [exact Hcheck|discriminate].
Qed.

End Make.

(** * Examples *)

(** ** A machine to run the examples on *)

Definition backslash : ascii := "092"%char.

Definition hex_digit (n : N) : ascii :=
  default "0"%char (String.get (N.to_nat n) "0123456789abcdef").

(** One byte of [strconv.Quote], for an ASCII byte. *)
Definition Quote_byte (a : ascii) : string :=
  let n := N_of_ascii a in
  if Ascii.eqb a dquote || Ascii.eqb a backslash then String backslash (str a)
  else if (32 <=? n)%N && (n <? 127)%N then str a
  else match n with
       | 7%N => String backslash "a"
       | 8%N => String backslash "b"
       | 12%N => String backslash "f"
       | 10%N => String backslash "n"
       | 13%N => String backslash "r"
       | 9%N => String backslash "t"
       | 11%N => String backslash "v"
       | _ => String backslash (String "x" (String (hex_digit (n / 16)) (str (hex_digit (n mod 16)))))
       end.

Fixpoint Quote_bytes (s : string) : string :=
  match s with
  | EmptyString => EmptyString
  | String a s' => Quote_byte a +:+ Quote_bytes s'
  end.

(** [strconv.Quote] on strings of ASCII bytes. *)
Definition Quote_ascii (s : string) : string :=
  str dquote +:+ Quote_bytes s +:+ str dquote.

(** Files: [out], older than [make.go] and newer than [go.mod]; a path that
    cannot be examined; nothing else exists. *)
Definition example_files (path : string) : StatResult :=
  if String.eqb path "out" then StatOk {| ModTime := 10 |}
  else if String.eqb path "make.go" then StatOk {| ModTime := 20 |}
  else if String.eqb path "go.mod" then StatOk {| ModTime := 5 |}
  else if String.eqb path "locked/out" then StatErr false "stat locked/out: permission denied"
  else StatErr true ("stat " +:+ path +:+ ": no such file or directory").

Definition example_world : @World unit :=
  {| files := example_files; globalDeps := []; Vars := ∅; varDefaults := ∅;
     stdout := []; stderr := []; os_Environ := []; ext := tt |}.

(** The program [false] fails, every other program succeeds. *)
Definition example_cmd_Run (command : list string) (environ : option (list string))
    (w : @World unit) : option string * @World unit :=
  match command with
  | "false" :: _ => (Some "exit status 1", w)
  | _ => (None, w)
  end.

Definition example_machine : @Machine unit := {| world := example_world; trace := [] |}.

Abbreviation run' := (run Quote_ascii example_cmd_Run).
Abbreviation Main_run' := (Main_run Quote_ascii example_cmd_Run).
Abbreviation Main_targets' := (Main_targets Quote_ascii example_cmd_Run).

(** ** Tasks *)

(** A function task that succeeds, shared below. *)
Definition shared_leaf : @Task unit :=
  mkTask EmptyString false [] [] None (Some (fun w => Ret None w)) None (Some 3%positive).

Definition left_group : @Task unit :=
  mkTask EmptyString false [shared_leaf] [] None None None (Some 1%positive).

Definition right_group : @Task unit :=
  mkTask EmptyString false [shared_leaf] ["true"] None None None (Some 2%positive).

(** Two targets over the shared task. *)
Definition target_all : @Task unit :=
  mkTask "all" true [left_group; right_group] [] None None None (Some 4%positive).

Definition target_again : @Task unit :=
  mkTask "again" false [right_group; shared_leaf] [] None None None (Some 5%positive).

(** A task whose condition is false, over the shared task. *)
Definition gated : @Task unit :=
  mkTask EmptyString false [shared_leaf] ["true"] None None
    (Some (fun w => Ret false w)) (Some 6%positive).

(** A target whose command fails, and one whose function fails. *)
Definition target_false : @Task unit :=
  mkTask "broken" false [shared_leaf] ["false"; "now"] None None None (Some 7%positive).

Definition target_boom : @Task unit :=
  mkTask "boom" false [] [] None (Some (fun w => Ret (Some "boom") w)) None (Some 8%positive).

Definition target_help : @Task unit :=
  mkTask "help" false [] [] None None None (Some 9%positive).

(** The value a call returned, for a call of the examples that returns. *)
Definition returned {S A} (d : A) (o : Outcome S A) : A :=
  match o with
  | Ret a _ => a
  | _ => d
  end.

(** ** The properties at work *)

(** C1 at work: two targets over a shared task, and the shared task from a
    cache that has it. *)
Lemma run_at_most_once_witness :
  NoDup (new_events example_machine
           (Main_run' [target_all; target_again] example_machine)) /\
  run' shared_leaf {[3%positive]} example_machine =
    Ret (false, {[3%positive]}) example_machine.
Proof.
  split.
  - apply (proj1 (proj2 (run_at_most_once Quote_ascii example_cmd_Run))).
  - apply (proj2 (proj2 (run_at_most_once Quote_ascii example_cmd_Run))
             shared_leaf {[3%positive]} example_machine 3%positive).
    + reflexivity.
    + apply elem_of_singleton. reflexivity.
Defined.

(** C2 at work: the gated task, and the shared task below it, which is
    still to run. *)
Lemma run_cond_false_witness :
  run' gated ∅ example_machine =
    Ret (false, {[6%positive]} ∪ ∅)
        {| world := example_world; trace := [EvCond 6%positive] |} /\
  run' gated ({[6%positive]} ∪ ∅) example_machine =
    Ret (false, {[6%positive]} ∪ ∅) example_machine.
Proof.
  destruct (run_cond_false Quote_ascii example_cmd_Run gated ∅ example_machine
              6%positive (fun w => Ret false w) example_world)
    as [Hfirst Hlater].
  - reflexivity.
  - apply not_elem_of_empty.
  - reflexivity.
  - reflexivity.
  - split; [exact Hfirst|].
    apply (Hlater gated ({[6%positive]} ∪ ∅) example_machine); reflexivity.
Defined.

(** C3 at work: [make.go], registered by [Main], is newer than [out]. *)
Lemma Outdated_stale_witness :
  exists w', Outdated "out" None (Main_globalDeps "make.go" ["go.mod"] example_world) =
             Ret true w'.
Proof.
  apply (proj2 (@Outdated_stale unit) "make.go" ["go.mod"] example_world "out" "make.go").
  - right. split; [reflexivity|discriminate].
  - right. exists {| ModTime := 10 |}, {| ModTime := 20 |}.
    split; [reflexivity|]. split; [reflexivity|]. simpl. lia.
Defined.

(** C3 as worded fails where [os.Stat] of the target fails for another
    reason than the target's absence: [Outdated] is true there. *)
Lemma Outdated_iff_not_exist_counterexample :
  ~ Outdated_iff_not_exist "locked/out" None example_world.
Proof.
  intros H. destruct (H [] example_world eq_refl) as (b & w' & Hrun & Hiff).
  injection Hrun as <- <-.
  destruct (proj1 Hiff eq_refl) as [[msg Hne]|(d & Hd & _)].
  - discriminate Hne.
  - inversion Hd.
Qed.

(** C4 at work: the second target finds everything below it in the cache,
    [Main] says so and exits with code 0; the first target worked, as its
    subtasks did. *)
Lemma run_worked_witness :
  (child_worked Quote_ascii example_cmd_Run target_all ∅ example_machine \/
   command_ran Quote_ascii example_cmd_Run target_all ∅ example_machine \/
   function_ran Quote_ascii example_cmd_Run target_all ∅ example_machine) /\
  exists m', Main_run' [target_all; target_again] example_machine = Exit 0 m' /\
             stdout (world m') = ["Running true"; "Nothing to be done for again"].
Proof.
  pose proof (run_worked Quote_ascii example_cmd_Run) as (Hrun & Hnothing & Hexit).
  split.
  - apply (Hrun target_all ∅ example_machine true
             (returned (false, ∅) (run' target_all ∅ example_machine)).2
             (final (run' target_all ∅ example_machine))); reflexivity.
  - eexists. split.
    + apply (Hexit [target_all; target_again] example_machine
               (returned ∅ (Main_targets' [target_all; target_again] ∅ example_machine))).
      reflexivity.
    + reflexivity.
Defined.

(** C5 at work: the command of the second target fails; the process exits
    with code 1 on that failure and the third target is not run. *)
Lemma failure_is_fatal_witness :
  exists m' rest,
    Main_run' [target_all; target_false; target_again] example_machine = Exit 1 m' /\
    new_events example_machine
      (Main_run' [target_all; target_false; target_again] example_machine) =
      EvFailed 7%positive "exit status 1" :: rest /\
    stderr (world m') = ["exit status 1"].
Proof.
  destruct (proj1 (proj2 (proj2 (proj2 (failure_is_fatal Quote_ascii example_cmd_Run))))
              [target_all; target_false; target_again] example_machine
              7%positive "exit status 1")
    as (m' & rest & pre & Hexit & Hnew & _ & Herr).
  - vm_compute. left.
  - exists m', rest. split; [exact Hexit|]. split; [exact Hnew|].
    vm_compute in Hexit. injection Hexit as <-. reflexivity.
Defined.

(** C6 at work: [CC] is queried with "gcc", then [LD], then [CC] again. *)
Lemma Getvar_default_consistency_witness :
  exists w1,
    Getvar "CC" "gcc" example_world = Ret "gcc" w1 /\
    (Getvars [("LD", "ld")] w1 =
       Ret tt (final (Getvars [("CC", "gcc"); ("LD", "ld")] example_world)) ->
     (forall d2, d2 <> "gcc" ->
        Getvar "CC" d2 (final (Getvars [("CC", "gcc"); ("LD", "ld")] example_world)) =
          Panic "Variable CC accessed with different default values"
                (final (Getvars [("CC", "gcc"); ("LD", "ld")] example_world))) /\
     Getvar "CC" "gcc" (final (Getvars [("CC", "gcc"); ("LD", "ld")] example_world)) =
       Ret "gcc" (final (Getvars [("CC", "gcc"); ("LD", "ld")] example_world))).
Proof.
  apply (Getvar_default_consistency "CC" "gcc" example_world [("LD", "ld")]
           (final (Getvars [("CC", "gcc"); ("LD", "ld")] example_world))).
  reflexivity.
Defined.

(** C7 at work: two targets named "all". *)
Lemma validateTargets_spec_witness :
  exists task, task ∈ [target_all; target_boom; target_all] /\
    name task <> EmptyString /\
    validateTargets [target_all; target_boom; target_all] = Panics (name task).
Proof.
  apply (proj1 (validateTargets_spec [target_all; target_boom; target_all])).
  left. exists 0%nat, 2%nat, target_all, target_all.
  split; [lia|]. split; [reflexivity|]. split; [reflexivity|].
  split; [reflexivity|discriminate].
Defined.

(** C8 at work: two variables, in the order of the map and in the other
    order. *)
Lemma Env_String_deterministic_witness :
  Env_String_in Quote_ascii [("A", "x"); ("A1", "y")] =
    Env_String Quote_ascii {[ "A" := "x"; "A1" := "y" ]}.
Proof.
  apply (Env_String_deterministic Quote_ascii {[ "A" := "x"; "A1" := "y" ]}
           [("A", "x"); ("A1", "y")]).
  vm_compute. apply perm_swap.
Defined.

(** C8 as worded fails where one key goes on, behind another key, with a
    byte below the equals sign: the printed pairs are in the other order
    than the keys. *)
Lemma Env_String_by_key_counterexample :
  Env_String Quote_ascii {[ "A" := "x"; "A1" := "y" ]} <>
  Env_String_by_key Quote_ascii {[ "A" := "x"; "A1" := "y" ]}.
Proof. vm_compute. discriminate. Qed.

(** C9 at work: a value with a space behind a name. *)
Lemma maybeQuote_cases_witness :
  maybeQuote Quote_ascii "CFLAGS=-O2 -g" =
    "CFLAGS" +:+ str equals +:+ str dquote +:+ "-O2 -g" +:+ str dquote.
Proof.
  apply (proj1 (proj2 (proj2 (maybeQuote_cases Quote_ascii "CFLAGS=-O2 -g") eq_refl))
           "CFLAGS" "-O2 -g"); reflexivity.
Defined.

(** An argument with a single quote, and neither space nor double quote, is
    not printed bare either. *)
Lemma maybeQuote_single_quote_example :
  maybeQuote Quote_ascii "it's" = str dquote +:+ "it's" +:+ str dquote.
Proof. reflexivity. Qed.

(** C9 as worded fails on an argument with a space behind a name and an
    equals sign: only the value is wrapped. *)
Lemma maybeQuote_as_stated_counterexample :
  ~ maybeQuote_as_stated Quote_ascii "CFLAGS=-O2 -g".
Proof. intros [_ H]. specialize (H eq_refl eq_refl). vm_compute in H. discriminate H. Qed.

(** ** More of the code at work *)

Abbreviation Main' := (Main Quote_ascii example_cmd_Run).

(** A build script: one command, built from the variable [CC], below a
    default target and a second target. *)
Definition example_targets : closure (list (@Task unit)) :=
  do cc <- Getvar "CC" "gcc";
  do built <- Command [VString cc; VList [VStrings ["-c"; "main.c"]]] 1%positive;
  let (compile, next) := built in
  let (all, next) := TargetDefault "all" [compile] next in
  let (check, next) := Target "check" [compile] next in
  Ret [all; check].

(** The targets it returns when [CC] is set to [cc]. *)
Definition example_available (cc : string) : list (@Task unit) :=
  let compile :=
    mkTask EmptyString false [] [cc; "-c"; "main.c"] None None None (Some 1%positive) in
  [mkTask "all" true [compile] [] None None None (Some 2%positive);
   mkTask "check" false [compile] [] None None None (Some 3%positive)].

(** [os.RemoveAll] where the tree [locked] cannot be removed. *)
Definition example_RemoveAll (path : string) (w : @World unit)
  : option string * @World unit :=
  if String.eqb path "locked" then (Some "unlinkat locked: permission denied", w)
  else
    (None,
     {| files := fun p =>
          if String.eqb p path || strings_HasPrefix p (path +:+ "/")
          then StatErr true ("stat " +:+ p +:+ ": no such file or directory")
          else files w p;
        globalDeps := globalDeps w; Vars := Vars w; varDefaults := varDefaults w;
        stdout := stdout w; stderr := stderr w; os_Environ := os_Environ w;
        ext := ext w |}).

(** X4 at work: strings and slices, nested. *)
Lemma Flatten_plain_witness :
  Flatten [VString "cc"; VList [VStrings ["-c"; "x.c"]; VString "-o"]] example_world =
    Ret ["cc"; "-c"; "x.c"; "-o"] example_world.
Proof.
  apply (Flatten_plain [VString "cc"; VList [VStrings ["-c"; "x.c"]; VString "-o"]]
           example_world).
  reflexivity.
Defined.

(** X5 at work: an integer among the arguments. *)
Lemma Flatten_panics_witness :
  Flatten [VString "cc"; VOther "int"; VString "x.c"] example_world =
    Panic "int" example_world.
Proof.
  apply (Flatten_panics [VString "cc"] [VString "x.c"] "int" example_world). reflexivity.
Defined.

(** X8 at work: from [main.c] over [main.o]. *)
Lemma ReplaceSuffix_twice_witness :
  ReplaceSuffix "main.o" ".s" = ReplaceSuffix "main.c" ".s".
Proof. apply (ReplaceSuffix_twice "main.c" "o" ".s" "main.o"); reflexivity. Defined.

(** X9 at work: the value of [CFLAGS] is wrapped in double quotes. *)
Lemma maybeQuote_lossless_witness :
  remove_byte dquote (maybeQuote Quote_ascii "CFLAGS=-O2 -g") = "CFLAGS=-O2 -g".
Proof. apply (maybeQuote_lossless Quote_ascii "CFLAGS=-O2 -g"). reflexivity. Defined.

(** X10 at work. *)
Lemma commandline_bare_witness :
  commandline Quote_ascii
    (mkTask (Ext:=unit) EmptyString false [] ["cc"; "-c"; "main.c"] None None None
            (Some 1%positive)) = "cc -c main.c".
Proof.
  apply (commandline_bare Quote_ascii
           (mkTask EmptyString false [] ["cc"; "-c"; "main.c"] None None None
                   (Some 1%positive))).
  - reflexivity.
  - repeat constructor.
Defined.

Lemma shared_leaf_calm : calm example_cmd_Run shared_leaf.
Proof.
  constructor; simpl; try discriminate; try contradiction; try constructor.
  intros f [= <-] w. exists w. reflexivity.
Qed.

Lemma right_group_calm : calm example_cmd_Run right_group.
Proof.
  constructor; simpl; try discriminate.
  - intros _ environ w. exists w. reflexivity.
  - constructor; [exact shared_leaf_calm|constructor].
Qed.

(** X11 at work: the two targets over the shared task. *)
Lemma calm_completes_witness :
  exists m', Main_run' [target_all; target_again] example_machine = Exit 0 m'.
Proof.
  apply (calm_completes Quote_ascii example_cmd_Run [target_all; target_again]
           example_machine).
  assert (calm example_cmd_Run left_group) as Hleft.
  { constructor; simpl; try discriminate; try contradiction.
    constructor; [exact shared_leaf_calm|constructor]. }
  constructor; [|constructor; [|constructor]].
  - constructor; simpl; try discriminate; try contradiction.
    constructor; [exact Hleft|]. constructor; [exact right_group_calm|constructor].
  - constructor; simpl; try discriminate; try contradiction.
    constructor; [exact right_group_calm|].
    constructor; [exact shared_leaf_calm|constructor].
Defined.

(** The world in which [Main] has its targets, when [CC] was set to [cc] on
    the command line or, for [None], not at all. *)
Definition example_started (cc : option string) : @World unit :=
  {| files := example_files; globalDeps := ["make.go"; "go.mod"];
     Vars := match cc with Some v => {[ "CC" := v ]} | None => ∅ end;
     varDefaults := {[ "CC" := "gcc" ]};
     stdout := []; stderr := []; os_Environ := []; ext := tt |}.

(** X13 at work: the target [check] with [CC] set to [clang]. *)
Lemma Main_runs_selected_witness :
  Main' example_targets "make.go" ["go.mod"] "make" ["check"; "CC=clang"] example_machine =
    Main_run' (filter (fun task => name task ∈ names_of ["check"; "CC=clang"])
                 (example_available "clang"))
      {| world := example_started (Some "clang"); trace := [] |}.
Proof.
  destruct (Main_runs_selected Quote_ascii example_cmd_Run example_targets "make.go"
              ["go.mod"] "make" ["check"; "CC=clang"] example_machine
              (example_available "clang") (example_started (Some "clang")) true)
    as (Hrun & _ & Hnames).
  - vm_compute. reflexivity.
  - reflexivity.
  - apply Main_checkVars_returns. vm_compute. reflexivity.
  - apply Forall_forall. repeat constructor.
  - intros n Hn. apply elem_of_list_to_set, list_elem_of_filter in Hn as [Hname Hn].
    apply elem_of_cons in Hn as [->|Hn].
    + exists (mkTask "check" false
                [mkTask EmptyString false [] ["clang"; "-c"; "main.c"] None None None
                        (Some 1%positive)] [] None None None (Some 3%positive)).
      split; [right; left|reflexivity].
    + apply elem_of_cons in Hn as [->|Hn]; [discriminate Hname|inversion Hn].
  - left. reflexivity.
  - rewrite Hrun, Hnames; [reflexivity|].
    intros Hempty. apply (not_elem_of_empty (C:=gset string) "check").
    rewrite <- Hempty. apply elem_of_list_to_set, list_elem_of_filter.
    split; [reflexivity|left].
Defined.

(** X14 at work: there is no target [install]. *)
Lemma Main_unknown_target_witness :
  exists n,
    Main' example_targets "make.go" ["go.mod"] "make" ["check"; "install"] example_machine =
      Exit 2 {| world := Eprintln ["Unknown target:"; n] (example_started None);
                trace := [] |}.
Proof.
  destruct (Main_unknown_target Quote_ascii example_cmd_Run example_targets "make.go"
              ["go.mod"] "make" ["check"; "install"] example_machine
              (example_available "gcc") (example_started None) true)
    as (n & _ & _ & Hexit).
  - vm_compute. reflexivity.
  - reflexivity.
  - apply Main_checkVars_returns. vm_compute. reflexivity.
  - apply Forall_forall. repeat constructor.
  - exists "install". split.
    + apply elem_of_list_to_set, list_elem_of_filter. split; [reflexivity|right; left].
    + intros task Hin. apply elem_of_cons in Hin as [->|Hin]; [discriminate|].
      apply elem_of_cons in Hin as [->|Hin]; [discriminate|inversion Hin].
  - exists n. exact Hexit.
Defined.

(** X15 at work: no [Getvar] asks for [LD]. *)
Lemma Main_unknown_variable_witness :
  Main' example_targets "make.go" ["go.mod"] "make" ["CC=clang"; "LD=lld"; "check"]
    example_machine =
    Exit 2 {| world := Eprintln ["Unknown variable:"; "LD"]
                         {| files := example_files; globalDeps := ["make.go"; "go.mod"];
                            Vars := {[ "CC" := "clang"; "LD" := "lld" ]};
                            varDefaults := {[ "CC" := "gcc" ]};
                            stdout := []; stderr := []; os_Environ := []; ext := tt |};
              trace := [] |}.
Proof.
  apply (Main_unknown_variable Quote_ascii example_cmd_Run example_targets "make.go"
           ["go.mod"] "make" ["CC=clang"] ["check"] "LD" "lld" example_machine
           (example_available "clang") _ true).
  - vm_compute. reflexivity.
  - reflexivity.
  - apply Main_checkVars_returns. vm_compute. reflexivity.
  - reflexivity.
  - reflexivity.
  - vm_compute. reflexivity.
Defined.

(** X16 at work: the usage text, and exit code 0 for [--help]. *)
Lemma Main_usage_witness :
  Main' example_targets "make.go" ["go.mod"] "make" ["--help"] example_machine =
    Exit 0 {| world :=
                with_stderr (example_started None)
                  ["Usage: go run make.go [TARGET]... [VAR=value]...";
                   "       go run make.go -h|--help";
                   EmptyString;
                   "Targets:";
                   "  all (default)";
                   "  check";
                   EmptyString;
                   "Variables:";
                   "  CC (gcc)";
                   EmptyString];
              trace := [] |}.
Proof.
  destruct (Main_usage Quote_ascii example_cmd_Run example_targets "make.go"
              ["go.mod"] "make" ["--help"] example_machine
              (example_available "gcc") (example_started None) true)
    as (_ & Hhelp & _).
  - vm_compute. reflexivity.
  - reflexivity.
  - rewrite (Hhelp "--help" eq_refl); [|right; right; reflexivity].
    vm_compute. reflexivity.
Defined.

(** X17 at work: the command [false now], built and run. *)
Lemma Command_runs_witness :
  exists task,
    Command [VString "false"; VList [VString "now"]] 1%positive example_world =
      Ret (task, 2%positive) example_world /\
    run' task ∅ example_machine =
      Exit 1 {| world := Eprintln ["exit status 1"]
                           (Println ["Running"; "false now"] example_world);
                trace := [EvFailed 1%positive "exit status 1"; EvCommand 1%positive;
                          EvTasks 1%positive] |}.
Proof.
  exists (mkTask EmptyString false [] ["false"; "now"] None None None (Some 1%positive)).
  split; [reflexivity|].
  destruct (Command_runs Quote_ascii example_cmd_Run None
              [VString "false"; VList [VString "now"]] 1%positive example_world
              example_world
              (mkTask EmptyString false [] ["false"; "now"] None None None
                      (Some 1%positive)) 2%positive eq_refl)
    as (_ & _ & _ & Hrun).
  destruct (Hrun ∅ example_machine) as [_ Hfails].
  - apply not_elem_of_empty.
  - apply (Hfails ltac:(discriminate) (Some "exit status 1")
             (Println ["Running"; "false now"] example_world)).
    reflexivity.
Defined.

(** X18 at work: a group over the shared task. *)
Lemma built_tasks_run_witness :
  run' (Group [shared_leaf] 10%positive).1 ∅ example_machine =
    run_tasks run' [shared_leaf] false ({[10%positive]} ∪ ∅)
      (log (EvTasks 10%positive) example_machine).
Proof.
  destruct (built_tasks_run Quote_ascii example_cmd_Run 10%positive ∅ example_machine)
    as (Hplain & _ & _).
  - apply not_elem_of_empty.
  - apply (Hplain EmptyString [shared_leaf]).
Defined.

(** X19 at work: a group over two tasks built before. *)
Lemma builders_fresh_witness :
  tags_below 11%positive (Group [shared_leaf; left_group] 10%positive).1 /\
  tag left_group <> Some 10%positive.
Proof.
  assert (tags_below 10%positive shared_leaf) as Hleaf.
  { apply (tags_below_task _ _ 3%positive); [reflexivity|reflexivity|constructor]. }
  assert (tags_below 10%positive left_group) as Hleft.
  { apply (tags_below_task _ _ 1%positive); [reflexivity|reflexivity|].
    constructor; [exact Hleaf|constructor]. }
  destruct (builders_fresh 10%positive [shared_leaf; left_group]) as [Hbuilt Hold].
  - constructor; [exact Hleaf|]. constructor; [exact Hleft|constructor].
  - split.
    + apply (Hbuilt (Group [shared_leaf; left_group] 10%positive)).
      right. right. right. left. reflexivity.
    + apply Hold. exact Hleft.
Defined.

(** X20 at work: [out] is removed although [locked] could not be. *)
Lemma Removal_tries_all_witness :
  exists m',
    run' (Removal example_RemoveAll ["locked"; "out"] 10%positive).1 ∅ example_machine =
      Exit 1 m' /\
    files (world m') "out" = StatErr true "stat out: no such file or directory" /\
    stderr (world m') = ["unlinkat locked: permission denied"].
Proof.
  eexists. split.
  - apply (Removal_tries_all Quote_ascii example_cmd_Run example_RemoveAll
             ["locked"; "out"] 10%positive ∅ example_machine).
    apply not_elem_of_empty.
  - split; reflexivity.
Defined.
